(** * Casino simulator: the blackjack round engine, the shoe, table turnover
    and the revival step of the simulation loop, embedded from the Python
    sources [deck.py], [player.py], [seat.py], [table.py], [casino.py],
    [blackjack.py] and [simulation.py].

    Conventions of the embedding.
    - Python [int] is [Z]; list positions and seat indices are [nat].
    - [Player] objects are mutable and shared by reference between seats,
      the waiting pool and the finished pool.  They live in a store
      ([Heap]) addressed by references ([ref]); seats and pools hold
      references, so moving a player moves the reference and mutating a
      player is a store update seen by every holder.
    - A raised Python exception is the [Raise] result; the state left
      behind by an aborted call is not modelled.
    - The global [random] generator is a state [G] threaded through the
      calls, with [randint] and [shuffle] as its two operations. *)

From Stdlib Require Import ZArith String List Lia Ascii DecimalString.
From stdpp Require Import base decidable option list numbers strings.

Local Open Scope string_scope.
Local Open Scope list_scope.
Local Open Scope Z_scope.

(** ** Exceptions and results *)

Inductive exn : Type :=
  | IndexError_pop_from_empty_list   (* [list.pop()] on an empty list *)
  | IndexError_list_index_out_of_range (* [l[i]] past the end *)
  | KeyError                          (* [d[k]] on a missing key *)
  | AttributeError                    (* attribute access on [None] *)
  | ValueError.                       (* [list.remove(x)], [x] absent *)

Inductive result (A : Type) : Type :=
  | Ok (a : A)
  | Raise (e : exn).
Arguments Ok {A} a.
Arguments Raise {A} e.

Definition result_bind {A B : Type} (f : A → result B) (m : result A) : result B :=
  match m with
  | Ok a => f a
  | Raise e => Raise e
  end.

#[global] Instance result_mbind : MBind result := @result_bind.
#[global] Instance result_mret : MRet result := @Ok.

Definition is_Ok {A : Type} (m : result A) : Prop := ∃ a, m = Ok a.

(** ** deck.py *)

(** A card is the tuple [(rank, suit, value)]. *)
Definition Card : Type := string * string * Z.

(** [card[2]] *)
Definition card_value (card : Card) : Z := snd card.

Definition CARD_LIST : list (string * Z) :=
  [("A", 11); ("2", 2); ("3", 3); ("4", 4); ("5", 5); ("6", 6);
   ("7", 7); ("8", 8); ("9", 9); ("10", 10); ("J", 10); ("Q", 10); ("K", 10)].

Definition SUITS : list string := ["Heart"; "Spade"; "Club"; "Diamond"].

(** [for card, value in self.CARD_LIST: self.deck.append((card, suit, value))] *)
Definition append_suit (suit : string) (deck : list Card) : list Card :=
  fold_left (λ d cv, d ++ [(fst cv, suit, snd cv)]) CARD_LIST deck.

(** [for suit in self.SUITS: ...] *)
Definition append_deck (deck : list Card) : list Card :=
  fold_left (λ d suit, append_suit suit d) SUITS deck.

(** [Deck.__init__(num_decks)]: [range(num_decks)] is empty for
    [num_decks <= 0]. *)
Definition Deck_init (num_decks : Z) : list Card :=
  Nat.iter (Z.to_nat num_decks) append_deck [].

(** [Deck.draw_card]: [self.deck.pop()] removes and returns the last
    element of the list. *)
Definition draw_card (deck : list Card) : result (Card * list Card) :=
  match last deck with
  | Some card => Ok (card, removelast deck)
  | None => Raise IndexError_pop_from_empty_list
  end.

(** [n] successive calls of [draw_card]; the cards come back in the
    order drawn. *)
Fixpoint draw_cards (n : nat) (deck : list Card) : result (list Card * list Card) :=
  match n with
  | O => Ok ([], deck)
  | S n' =>
      '(card, deck1) ← draw_card deck;
      '(cards, deck2) ← draw_cards n' deck1;
      Ok (card :: cards, deck2)
  end.

(** [total = 0; for card in hand: total += card[2]] *)
Definition hand_total (hand : list Card) : Z :=
  fold_left (λ total card, total + card_value card) hand 0.

(** The shoe seen from its top: the order in which successive
    [draw_card] calls hand the cards out. *)
Definition upcoming (deck : list Card) : list Card := rev deck.

(** ** Insertion-ordered dictionaries keyed by seat index

    [player_hands], [event["initial_bets"]] and [event["hands"]] are
    Python dicts keyed by [seat.seat_index]: assigning to a present key
    replaces the value in place, assigning to a new key appends, and
    [items()] iterates in that order. *)

Definition dict (V : Type) : Type := list (nat * V).

Fixpoint dict_set {V : Type} (k : nat) (v : V) (d : dict V) : dict V :=
  match d with
  | [] => [(k, v)]
  | (k', v') :: d' =>
      if decide (k' = k) then (k, v) :: d' else (k', v') :: dict_set k v d'
  end.

Fixpoint dict_get {V : Type} (k : nat) (d : dict V) : option V :=
  match d with
  | [] => None
  | (k', v') :: d' => if decide (k' = k) then Some v' else dict_get k d'
  end.

Definition dict_keys {V : Type} (d : dict V) : list nat := map fst d.

(** ** player.py, seat.py, table.py, casino.py *)

Record Player : Type := mkPlayer {
  first_name : string;
  last_name : string;
  email : string;
  player_id : Z;
  player_type : string;
  money_left : Z;
  rounds_left : Z;
  history : list (string * Z)
}.

#[global] Instance Player_eq_dec : EqDecision Player.
Proof. solve_decision. Defined.

Definition set_money_left (m : Z) (p : Player) : Player :=
  mkPlayer (first_name p) (last_name p) (email p) (player_id p)
           (player_type p) m (rounds_left p) (history p).

Definition set_rounds_left (r : Z) (p : Player) : Player :=
  mkPlayer (first_name p) (last_name p) (email p) (player_id p)
           (player_type p) (money_left p) r (history p).

Definition set_history (hist : list (string * Z)) (p : Player) : Player :=
  mkPlayer (first_name p) (last_name p) (email p) (player_id p)
           (player_type p) (money_left p) (rounds_left p) hist.

(** References to [Player] objects and the store they live in. *)
Definition ref : Type := nat.
Definition Heap : Type := ref → Player.

(** In-place mutation of the object behind [r]. *)
Definition heap_upd (f : Player → Player) (r : ref) (h : Heap) : Heap :=
  λ r', if decide (r' = r) then f (h r') else h r'.

Record Seat : Type := mkSeat {
  seat_index : nat;
  player : option ref
}.

Record Table : Type := mkTable {
  table_id : Z;
  num_seats : Z;
  seats_list : list Seat;
  current_round_number : Z
}.

(** [Table.__init__]: [Seat(i)] for [i in range(num_seats)], round 1. *)
Definition Table_init (table_id num_seats : Z) : Table :=
  mkTable table_id num_seats
          (map (λ i, mkSeat i None) (seq 0 (Z.to_nat num_seats))) 1.

Record Casino : Type := mkCasino {
  casino_name : string;
  tables : list Table;
  finished_players : list ref;
  casino_profit : Z;
  total_hands_played : Z
}.

Definition Casino_init (casino_name : string) : Casino :=
  mkCasino casino_name [] [] 0 0.

Definition set_tables (ts : list Table) (c : Casino) : Casino :=
  mkCasino (casino_name c) ts (finished_players c) (casino_profit c)
           (total_hands_played c).

Definition set_finished_players (fin : list ref) (c : Casino) : Casino :=
  mkCasino (casino_name c) (tables c) fin (casino_profit c)
           (total_hands_played c).

Definition set_casino_profit (profit : Z) (c : Casino) : Casino :=
  mkCasino (casino_name c) (tables c) (finished_players c) profit
           (total_hands_played c).

Definition set_total_hands_played (n : Z) (c : Casino) : Casino :=
  mkCasino (casino_name c) (tables c) (finished_players c) (casino_profit c) n.

Definition set_seats_list (seats : list Seat) (t : Table) : Table :=
  mkTable (table_id t) (num_seats t) seats (current_round_number t).

Definition set_current_round_number (n : Z) (t : Table) : Table :=
  mkTable (table_id t) (num_seats t) (seats_list t) n.

(** The eviction test of [remove_finished_players]:
    [money_left < 100 or rounds_left <= 0]. *)
Definition finished (p : Player) : bool :=
  (money_left p <? 100) || (rounds_left p <=? 0).

(** [Table.remove_finished_players]: the loop over [self.seats_list],
    returning the seats and [casino.finished_players] as it leaves
    them. *)
Fixpoint remove_finished_seats (h : Heap) (seats : list Seat) (fin : list ref)
  : list Seat * list ref :=
  match seats with
  | [] => ([], fin)
  | seat :: rest =>
      match player seat with
      | Some p =>
          if finished (h p) then
            let '(rest', fin') := remove_finished_seats h rest (fin ++ [p]) in
            (mkSeat (seat_index seat) None :: rest', fin')
          else
            let '(rest', fin') := remove_finished_seats h rest fin in
            (seat :: rest', fin')
      | None =>
          let '(rest', fin') := remove_finished_seats h rest fin in
          (seat :: rest', fin')
      end
  end.

Definition remove_finished_players (h : Heap) (t : Table) (c : Casino)
  : Table * Casino :=
  let '(seats, fin) := remove_finished_seats h (seats_list t) (finished_players c) in
  (set_seats_list seats t, set_finished_players fin c).

(** [Table.fill_empty_seats]: the loop over [self.seats_list];
    [player_pool.pop(0)] takes the first waiting player. *)
Fixpoint fill_seats (seats : list Seat) (player_pool : list ref)
  : list Seat * list ref :=
  match seats with
  | [] => ([], player_pool)
  | seat :: rest =>
      match player seat, player_pool with
      | None, p :: player_pool' =>
          let '(rest', pool') := fill_seats rest player_pool' in
          (mkSeat (seat_index seat) (Some p) :: rest', pool')
      | _, _ =>
          let '(rest', pool') := fill_seats rest player_pool in
          (seat :: rest', pool')
      end
  end.

Definition fill_empty_seats (t : Table) (player_pool : list ref)
  : Table * list ref :=
  let '(seats, pool') := fill_seats (seats_list t) player_pool in
  (set_seats_list seats t, pool').

(** The players seated at a table, in seat order. *)
Definition seated (seats : list Seat) : list ref := omap player seats.

(** ** blackjack.py *)

(** One entry of [event["results"]]. *)
Record ResultEntry : Type := mkResult {
  res_seat_index : nat;
  res_player_name : string;
  res_money_delta : Z
}.

(** One entry of [event["seats_after"]]: an empty seat records only its
    index and [player = None]; an occupied one also the player's first
    name, money and rounds. *)
Record SeatAfter : Type := mkSeatAfter {
  sa_seat : nat;
  sa_player : option (string * Z * Z)
}.

(** The event dictionary returned by [play_round]. *)
Record Event : Type := mkEvent {
  ev_table_id : Z;
  ev_round_num : Z;
  ev_initial_bets : dict Z;
  ev_results : list ResultEntry;
  ev_seats_after : list SeatAfter;
  ev_profit_delta : Z;
  ev_hands : dict (list Card);
  ev_dealer_hand : list Card
}.

(** [player.history.append(outcome); if len(player.history) > 5:
    player.history = player.history[-5:]] *)
Definition record_outcome (outcome : string * Z) (p : Player) : Player :=
  let hist := history p ++ [outcome] in
  set_history (if (5 <? Z.of_nat (length hist))
               then drop (length hist - 5) hist else hist) p.

(** The player's [while total < 18] loop, run over the cards in drawing
    order: draw, append, recompute the total, [break] above 21. *)
Fixpoint player_hits (cards : list Card) (hand : list Card)
  : result (list Card * list Card) :=
  if hand_total hand <? 18 then
    match cards with
    | [] => Raise IndexError_pop_from_empty_list
    | new_card :: cards' =>
        let hand' := hand ++ [new_card] in
        if 21 <? hand_total hand' then Ok (hand', cards')
        else player_hits cards' hand'
    end
  else Ok (hand, cards).

Definition player_action (hand deck : list Card) : result (list Card * list Card) :=
  '(hand', cards) ← player_hits (upcoming deck) hand;
  Ok (hand', rev cards).

(** The dealer's [while dealer_total < 18] loop (no [break]). *)
Fixpoint dealer_hits (cards : list Card) (dealer_hand : list Card)
  : result (list Card * list Card) :=
  if hand_total dealer_hand <? 18 then
    match cards with
    | [] => Raise IndexError_pop_from_empty_list
    | new_card :: cards' => dealer_hits cards' (dealer_hand ++ [new_card])
    end
  else Ok (dealer_hand, cards).

Definition dealer_action (dealer_hand deck : list Card)
  : result (list Card * list Card) :=
  '(hand', cards) ← dealer_hits (upcoming deck) dealer_hand;
  Ok (hand', rev cards).

(** "Deal two cards to each active player". *)
Fixpoint deal_players (seats : list Seat) (player_hands : dict (list Card))
    (deck : list Card) : result (dict (list Card) * list Card) :=
  match seats with
  | [] => Ok (player_hands, deck)
  | seat :: rest =>
      match player seat with
      | Some _ =>
          '(card1, deck1) ← draw_card deck;
          '(card2, deck2) ← draw_card deck1;
          deal_players rest (dict_set (seat_index seat) [card1; card2] player_hands) deck2
      | None => deal_players rest player_hands deck
      end
  end.

(** "Player Actions": the loop over [player_hands.items()].  Each hand
    is grown in place, so the dictionary keeps its keys and order. *)
Fixpoint players_act (items : dict (list Card)) (deck : list Card) (c : Casino)
  : result (dict (list Card) * list Card * Casino) :=
  match items with
  | [] => Ok ([], deck, c)
  | (seat_index, hand) :: items' =>
      let c1 := set_total_hands_played (total_hands_played c + 1) c in
      '(hand', deck1) ← player_action hand deck;
      '(items'', deck2, c2) ← players_act items' deck1 c1;
      Ok ((seat_index, hand') :: items'', deck2, c2)
  end.

(** "Compare outcomes and adjust balances": the body of the loop, for
    one [(seat_index, hand)] item. *)
Definition settle_hand (t : Table) (initial_bets : dict Z) (dealer_total : Z)
    (seat_index : nat) (hand : list Card)
    (st : Heap * Casino * list ResultEntry)
  : result (Heap * Casino * list ResultEntry) :=
  let '(h, c, results) := st in
  match seats_list t !! seat_index with
  | None => Raise IndexError_list_index_out_of_range
  | Some seat =>
      match dict_get seat_index initial_bets with
      | None => Raise KeyError
      | Some bet =>
          let player_total := hand_total hand in
          match player seat with
          | None => Raise AttributeError
          | Some p =>
              if 21 <? player_total then
                (* Player busts → casino wins *)
                let h1 := heap_upd (λ q, set_money_left (money_left q - bet) q) p h in
                let c1 := set_casino_profit (casino_profit c + bet) c in
                let results1 := results ++ [mkResult seat_index (first_name (h1 p)) bet] in
                Ok (heap_upd (record_outcome ("loss", bet)) p h1, c1, results1)
              else if 21 <? dealer_total then
                (* Dealer busts → player wins *)
                let h1 := heap_upd (λ q, set_money_left (money_left q + bet) q) p h in
                let c1 := set_casino_profit (casino_profit c - bet) c in
                let results1 := results ++ [mkResult seat_index (first_name (h1 p)) (- bet)] in
                Ok (heap_upd (record_outcome ("win", bet)) p h1, c1, results1)
              else if dealer_total <? player_total then
                (* Player wins by higher total *)
                let h1 := heap_upd (λ q, set_money_left (money_left q + bet) q) p h in
                let c1 := set_casino_profit (casino_profit c - bet) c in
                let results1 := results ++ [mkResult seat_index (first_name (h1 p)) (- bet)] in
                Ok (heap_upd (record_outcome ("win", bet)) p h1, c1, results1)
              else if player_total <? dealer_total then
                (* Player loses by lower total *)
                let h1 := heap_upd (λ q, set_money_left (money_left q - bet) q) p h in
                let c1 := set_casino_profit (casino_profit c + bet) c in
                let results1 := results ++ [mkResult seat_index (first_name (h1 p)) bet] in
                Ok (heap_upd (record_outcome ("loss", bet)) p h1, c1, results1)
              else
                (* Tie → push (no balance change) *)
                let results1 := results ++ [mkResult seat_index (first_name (h p)) 0] in
                Ok (heap_upd (record_outcome ("push", 0)) p h, c, results1)
          end
      end
  end.

(** The settlement loop over [player_hands.items()]. *)
Fixpoint settle_hands (t : Table) (initial_bets : dict Z) (dealer_total : Z)
    (items : dict (list Card)) (st : Heap * Casino * list ResultEntry)
  : result (Heap * Casino * list ResultEntry) :=
  match items with
  | [] => Ok st
  | (seat_index, hand) :: items' =>
      st1 ← settle_hand t initial_bets dealer_total seat_index hand st;
      settle_hands t initial_bets dealer_total items' st1
  end.

(** "Decrease rounds left for active players". *)
Definition decrement_rounds (seats : list Seat) (h : Heap) : Heap :=
  fold_left
    (λ h seat,
       match player seat with
       | Some p => heap_upd (λ q, set_rounds_left (rounds_left q - 1) q) p h
       | None => h
       end)
    seats h.

(** "Record final seat state for this round". *)
Definition seats_after (h : Heap) (seats : list Seat) : list SeatAfter :=
  map (λ seat,
         match player seat with
         | Some p =>
             mkSeatAfter (seat_index seat)
                         (Some (first_name (h p), money_left (h p), rounds_left (h p)))
         | None => mkSeatAfter (seat_index seat) None
         end)
      seats.

(** What a completed call of [play_round] returns and leaves behind. *)
Record Round (G : Type) : Type := mkRound {
  rd_event : Event;
  rd_heap : Heap;
  rd_casino : Casino;
  rd_table : Table;
  rd_player_pool : list ref;
  rd_rng : G
}.
Arguments mkRound {G}.
Arguments rd_event {G}.
Arguments rd_heap {G}.
Arguments rd_casino {G}.
Arguments rd_table {G}.
Arguments rd_player_pool {G}.
Arguments rd_rng {G}.

Section RoundEngine.

(** The state of Python's [random] module and the two operations the
    simulator calls on it. *)
Context {G : Type}.
Context (randint : Z → Z → G → Z * G).
Context (shuffle : list Card → G → list Card * G).

(** [Deck.shuffle_deck]: three calls of [random.shuffle]. *)
Definition shuffle_deck (deck : list Card) (g : G) : list Card * G :=
  let '(deck1, g1) := shuffle deck g in
  let '(deck2, g2) := shuffle deck1 g1 in
  shuffle deck2 g2.

(** "Generate bets for each seated player". *)
Fixpoint generate_bets (seats : list Seat) (initial_bets : dict Z) (g : G)
  : dict Z * G :=
  match seats with
  | [] => (initial_bets, g)
  | seat :: rest =>
      match player seat with
      | None => generate_bets rest initial_bets g
      | Some _ =>
          let '(bet, g1) := randint 10 100 g in
          generate_bets rest (dict_set (seat_index seat) bet initial_bets) g1
      end
  end.

Definition play_round (h : Heap) (casino : Casino) (table : Table)
    (player_pool : list ref) (g : G) : result (Round G) :=
  let starting_profit := casino_profit casino in
  let '(deck, g1) := shuffle_deck (Deck_init 20) g in
  let '(initial_bets, g2) := generate_bets (seats_list table) [] g1 in
  '(player_hands, deck1) ← deal_players (seats_list table) [] deck;
  '(dealer_cards, deck2) ← draw_cards 2 deck1;
  '(player_hands1, deck3, casino1) ← players_act player_hands deck2 casino;
  '(dealer_hand, deck4) ← dealer_action dealer_cards deck3;
  let dealer_total := hand_total dealer_hand in
  '(h1, casino2, results) ←
     settle_hands table initial_bets dealer_total player_hands1 (h, casino1, []);
  let h2 := decrement_rounds (seats_list table) h1 in
  let '(table1, casino3) := remove_finished_players h2 table casino2 in
  let '(table2, player_pool1) := fill_empty_seats table1 player_pool in
  let table3 := set_current_round_number (current_round_number table2 + 1) table2 in
  let event :=
    mkEvent (table_id table) (current_round_number table) initial_bets results
            (seats_after h2 (seats_list table3))
            (casino_profit casino3 - starting_profit)
            player_hands1 dealer_hand in
  Ok (mkRound event h2 casino3 table3 player_pool1 g2).

End RoundEngine.

(** ** simulation.py *)

(** [list.remove(x)] on a list of players: deletes the first item that
    is [x] or compares equal to it ([Player] is a dataclass, so [==]
    compares the fields); [ValueError] when there is none. *)
Fixpoint list_remove (h : Heap) (x : ref) (l : list ref) : result (list ref) :=
  match l with
  | [] => Raise ValueError
  | y :: l' =>
      if bool_decide (y = x) || bool_decide (h y = h x) then Ok l'
      else l'' ← list_remove h x l'; Ok (y :: l'')
  end.

(** "Move revived players back to waiting pool". *)
Fixpoint move_revived (h : Heap) (revived_players : list ref)
    (fin player_pool : list ref) : result (list ref * list ref) :=
  match revived_players with
  | [] => Ok (fin, player_pool)
  | p :: rest =>
      fin1 ← list_remove h p fin;
      move_revived h rest fin1 (player_pool ++ [p])
  end.

(** [collect_all_players]: seated players of every table, then the
    waiting pool, then the finished players. *)
Definition collect_all_players (c : Casino) (player_pool : list ref) : list ref :=
  flat_map (λ t, seated (seats_list t)) (tables c) ++ player_pool ++ finished_players c.

(** [for table in casino.tables: table.fill_empty_seats(player_pool)] *)
Fixpoint fill_tables (ts : list Table) (player_pool : list ref)
  : list Table * list ref :=
  match ts with
  | [] => ([], player_pool)
  | t :: rest =>
      let '(t', pool1) := fill_empty_seats t player_pool in
      let '(rest', pool2) := fill_tables rest pool1 in
      (t' :: rest', pool2)
  end.

(** The state the simulation loop carries from tick to tick. *)
Record Sim (G : Type) : Type := mkSim {
  sim_heap : Heap;
  sim_casino : Casino;
  sim_player_pool : list ref;
  sim_rng : G;
  sim_time : Z
}.
Arguments mkSim {G}.
Arguments sim_heap {G}.
Arguments sim_casino {G}.
Arguments sim_player_pool {G}.
Arguments sim_rng {G}.
Arguments sim_time {G}.

Section Simulation.

Context {G : Type}.
Context (randint : Z → Z → G → Z * G).
Context (shuffle : list Card → G → list Card * G).

(** "Give broke players money and rounds again". *)
Fixpoint revive_players (fin : list ref) (h : Heap) (revived_players : list ref)
    (g : G) : Heap * list ref * G :=
  match fin with
  | [] => (h, revived_players, g)
  | p :: rest =>
      let '(money, g1) := randint 500 1000 g in
      let h1 := heap_upd (λ q, set_money_left (money_left q + money) q) p h in
      let '(rounds, g2) := randint 3 10 g1 in
      let h2 := heap_upd (λ q, set_rounds_left (rounds_left q + rounds) q) p h1 in
      revive_players rest h2 (revived_players ++ [p]) g2
  end.

(** The body of [if sim_time % 1800 == 0:]. *)
Definition revive (st : Sim G) : result (Sim G) :=
  let c := sim_casino st in
  let '(h1, revived_players, g1) :=
    revive_players (finished_players c) (sim_heap st) [] (sim_rng st) in
  '(fin, player_pool) ←
     move_revived h1 revived_players (finished_players c) (sim_player_pool st);
  Ok (mkSim h1 (set_finished_players fin c) player_pool g1 (sim_time st)).

(** "Every 1800 simulated seconds (30 min), revive finished players". *)
Definition revival_step (st : Sim G) : result (Sim G) :=
  if sim_time st mod 1800 =? 0 then revive st else Ok st.

(** "Play a round on every active table". *)
Fixpoint play_tables (ts : list Table) (h : Heap) (c : Casino)
    (player_pool : list ref) (g : G)
  : result (list Event * list Table * Heap * Casino * list ref * G) :=
  match ts with
  | [] => Ok ([], [], h, c, player_pool, g)
  | table :: rest =>
      rd ← play_round randint shuffle h c table player_pool g;
      '(events, rest', h', c', pool', g') ←
         play_tables rest (rd_heap rd) (rd_casino rd) (rd_player_pool rd) (rd_rng rd);
      Ok (rd_event rd :: events, rd_table rd :: rest', h', c', pool', g')
  end.

(** One iteration of the main loop.  Display, [sleep] and the JSON
    save read the state without changing it. *)
Definition tick (st : Sim G) : result (list Event * Sim G) :=
  '(round_events, ts, h, c, player_pool, g) ←
     play_tables (tables (sim_casino st)) (sim_heap st) (sim_casino st)
                 (sim_player_pool st) (sim_rng st);
  let st1 := mkSim h (set_tables ts c) player_pool g (sim_time st + 10) in
  st2 ← revival_step st1;
  let '(ts', pool') := fill_tables (tables (sim_casino st2)) (sim_player_pool st2) in
  Ok (round_events,
      mkSim (sim_heap st2) (set_tables ts' (sim_casino st2)) pool'
            (sim_rng st2) (sim_time st2)).

Fixpoint ticks (n : nat) (st : Sim G) : result (Sim G) :=
  match n with
  | O => Ok st
  | S n' => '(_, st1) ← tick st; ticks n' st1
  end.

(** [run_simulation]: returns [sim_time] (and the final state). *)
Definition run_simulation (h : Heap) (casino : Casino) (player_pool : list ref)
    (minutes : Z) (g : G) : result (Z * Sim G) :=
  let rounds_to_play := (minutes * 60) / 10 in
  let '(ts, pool0) := fill_tables (tables casino) player_pool in
  st ← ticks (Z.to_nat rounds_to_play) (mkSim h (set_tables ts casino) pool0 g 0);
  Ok (sim_time st, st).

End Simulation.

(** ** Vocabulary of the statements *)

(** Number of copies of [card] in [deck]. *)
Definition occurrences (card : Card) (deck : list Card) : nat :=
  length (filter (λ c, c = card) deck).

(** The 52 cards one pass of the construction loop appends. *)
Definition one_deck : list Card := append_deck [].

(** A table as [Table.__init__] builds it and every later step keeps
    it: the seat at position [i] carries [seat_index = i]. *)
Definition Table_wf (t : Table) : Prop :=
  ∀ i seat, seats_list t !! i = Some seat → seat_index seat = i.

(** Number of occupied seats. *)
Definition occupied (seats : list Seat) : nat := length (seated seats).

(** The player sitting at position [k], if any:
    [table.seats_list[k].player]. *)
Definition seat_player (t : Table) (k : nat) : option ref :=
  seat ← seats_list t !! k; player seat.

(** The house's share of one settled hand: the bet on a loss, its
    negation on a win, nothing on a push.  This is the [money_delta]
    the event records. *)
Definition house_delta (player_total dealer_total bet : Z) : Z :=
  if 21 <? player_total then bet
  else if 21 <? dealer_total then - bet
  else if dealer_total <? player_total then - bet
  else if player_total <? dealer_total then bet
  else 0.

(** The [(outcome, stake)] pair appended to the history. *)
Definition outcome_of (player_total dealer_total bet : Z) : string * Z :=
  if 21 <? player_total then ("loss", bet)
  else if 21 <? dealer_total then ("win", bet)
  else if dealer_total <? player_total then ("win", bet)
  else if player_total <? dealer_total then ("loss", bet)
  else ("push", 0).

(** What one settlement does to the [Player] object. *)
Definition settle_player (player_total dealer_total bet : Z) (q : Player) : Player :=
  record_outcome (outcome_of player_total dealer_total bet)
                 (set_money_left (money_left q - house_delta player_total dealer_total bet) q).

(** The effect on the object behind [r] of settling one item of
    [player_hands]. *)
Definition settle_item (t : Table) (initial_bets : dict Z) (dealer_total : Z)
    (r : ref) (q : Player) (item : nat * list Card) : Player :=
  match seat_player t (fst item), dict_get (fst item) initial_bets with
  | Some p, Some bet =>
      if decide (r = p) then settle_player (hand_total (snd item)) dealer_total bet q
      else q
  | _, _ => q
  end.

(** The house's share of one item, and the result entry it produces. *)
Definition item_delta (initial_bets : dict Z) (dealer_total : Z)
    (item : nat * list Card) : Z :=
  match dict_get (fst item) initial_bets with
  | Some bet => house_delta (hand_total (snd item)) dealer_total bet
  | None => 0
  end.

Definition item_result (t : Table) (h : Heap) (initial_bets : dict Z)
    (dealer_total : Z) (item : nat * list Card) : ResultEntry :=
  mkResult (fst item)
           (match seat_player t (fst item) with
            | Some p => first_name (h p)
            | None => ""
            end)
           (item_delta initial_bets dealer_total item).

(** Sum of a list of integers. *)
Definition sumZ (l : list Z) : Z := foldr Z.add 0 l.

(** Indices recorded on the occupied seats, in seat order. *)
Definition occupied_indices (seats : list Seat) : list nat :=
  map seat_index (filter (λ seat, is_Some (player seat)) seats).

(** Every card of the list is worth at least 2. *)
Definition cards_ge_2 (cards : list Card) : Prop :=
  Forall (λ card, 2 ≤ card_value card) cards.

(** [hand'] is [hand] grown by the hit loop: cards were appended one at
    a time while the total was below 18, and the final total is not. *)
Definition grown (hand hand' : list Card) : Prop :=
  ∃ drawn,
    hand' = hand ++ drawn
    ∧ 18 ≤ hand_total hand'
    ∧ ∀ k, (k < length drawn)%nat → hand_total (hand ++ take k drawn) < 18.

(** What the simulator relies on from [random.randint] and
    [random.shuffle]. *)
Definition randint_in_range {G : Type} (randint : Z → Z → G → Z * G) : Prop :=
  ∀ lo hi g, lo ≤ hi → lo ≤ fst (randint lo hi g) ≤ hi.

Definition shuffle_permutes {G : Type} (shuffle : list Card → G → list Card * G) : Prop :=
  ∀ deck g, fst (shuffle deck g) ≡ₚ deck.

(** What [remove_finished_players] leaves in a seat, given the store at
    the time of the call. *)
Definition evict_seat (h : Heap) (seat : Seat) : Seat :=
  match player seat with
  | Some p => if finished (h p) then mkSeat (seat_index seat) None else seat
  | None => seat
  end.

(** Number of empty seats. *)
Definition empty_seats (seats : list Seat) : nat :=
  length (filter (λ seat, player seat = None) seats).

(** What [fill_empty_seats] leaves in the seat at position [i]: an
    occupied seat is kept; the [n]-th empty seat (counting from 0 in
    seat order) receives the [n]-th waiting player, if there is one. *)
Definition refill_seat (seats : list Seat) (player_pool : list ref) (i : nat)
    (seat : Seat) : Seat :=
  match player seat with
  | Some _ => seat
  | None => mkSeat (seat_index seat) (player_pool !! empty_seats (take i seats))
  end.

(** Number of seats of the list that hold [p]. *)
Definition seats_held (p : ref) (seats : list Seat) : nat :=
  length (filter (λ q, q = p) (seated seats)).

(** ** Sample data

    A deterministic stand-in for [random] (the state counts the calls),
    a store of players and a three-seat table, used to run the model on
    concrete inputs. *)

Definition counting_randint (lo hi : Z) (g : nat) : Z * nat :=
  (lo + Z.of_nat g mod (hi - lo + 1), S g).

Definition reversing_shuffle (deck : list Card) (g : nat) : list Card * nat :=
  (rev deck, S g).

(** A shuffle that happens to leave the order as it is. *)
Definition keeping_shuffle (deck : list Card) (g : nat) : list Card * nat :=
  (deck, S g).

(** A table with one seat, taken by player 0. *)
Definition solo_table : Table :=
  fst (fill_empty_seats (Table_init 2 1) [0]%nat).

Definition sample_heap : Heap :=
  λ r, mkPlayer "Ann" "Lee" "ann@example.org" (Z.of_nat r) "casual"
                (if decide (r = 1%nat) then 50 else 1000) 5 [].

Definition sample_casino : Casino := Casino_init "Royale".

Definition sample_table : Table :=
  fst (fill_empty_seats (Table_init 1 3) [0; 1; 2]%nat).

(** Number of times [p] occurs in a list of players. *)
Definition times_in (p : ref) (l : list ref) : nat :=
  length (filter (λ q, q = p) l).

(** A simulation state one tick before the half hour: no tables, two
    finished players, one waiting. *)
Definition sample_sim : Sim nat :=
  mkSim sample_heap (mkCasino "Royale" [] [5; 6]%nat 0 0) [7]%nat 0%nat 1790.


(** ** More vocabulary *)

(** The fields of a [Player] no code of the simulator assigns to after
    construction. *)
Definition identity (p : Player) : string * string * string * Z * string :=
  (first_name p, last_name p, email p, player_id p, player_type p).

(** A history entry as [play_round] writes it: a win or a loss with the
    stake, which is a bet drawn from [randint(10, 100)], or a push with
    no stake. *)
Definition history_entry_ok (entry : string * Z) : Prop :=
  ((fst entry = "win" ∨ fst entry = "loss") ∧ 10 ≤ snd entry ≤ 100)
  ∨ entry = ("push", 0).

(** A card as [Deck.__init__] builds it: a rank with its value from
    [CARD_LIST] and one of the four [SUITS]. *)
Definition shoe_card (card : Card) : Prop :=
  (fst (fst card), snd card) ∈ CARD_LIST ∧ snd (fst card) ∈ SUITS.

(** What of a table stays as [Table.__init__] made it: its id, its
    [num_seats] and the indices its seats carry. *)
Definition table_shape (t : Table) : Z * Z * list nat :=
  (table_id t, num_seats t, map seat_index (seats_list t)).

(** A table [play_round] can always complete a round at. *)
Definition playable (t : Table) : Prop :=
  Table_wf t ∧ (length (seats_list t) ≤ 114)%nat.

(** The players seated at the tables of the casino, table by table. *)
Definition all_seated (ts : list Table) : list ref :=
  flat_map (λ t, seated (seats_list t)) ts.

(** The money the players of [L] hold together. *)
Definition total_money (h : Heap) (L : list ref) : Z :=
  sumZ (map (λ r, money_left (h r)) L).

(** A player the eviction test lets stay: able to cover any bet, with a
    round left. *)
Definition can_play (q : Player) : Prop :=
  100 ≤ money_left q ∧ 1 ≤ rounds_left q.

Definition owes_nothing (q : Player) : Prop :=
  0 ≤ money_left q ∧ 0 ≤ rounds_left q.

(** Seated and waiting players can play; finished players owe
    nothing. *)
Definition solvent (h : Heap) (c : Casino) (player_pool : list ref) : Prop :=
  (∀ p, p ∈ all_seated (tables c) ++ player_pool → can_play (h p))
  ∧ (∀ p, p ∈ finished_players c → owes_nothing (h p)).

(** ** Python strings

    A [str] is held as its UTF-8 bytes.  [len] counts code points, so
    the continuation bytes [10xxxxxx] do not count. *)

Definition continuation_byte (a : ascii) : bool :=
  let n := nat_of_ascii a in (128 <=? n)%nat && (n <? 192)%nat.

Fixpoint py_len (s : string) : nat :=
  match s with
  | EmptyString => 0
  | String a s' => if continuation_byte a then py_len s' else S (py_len s')
  end.

(** [" " * n] *)
Fixpoint spaces (n : nat) : string :=
  match n with
  | O => ""
  | S n' => String " " (spaces n')
  end.

(** [f"{s:<w}"] and [f"{s:>w}"] for a string [s]. *)
Definition ljust (width : nat) (s : string) : string :=
  s +:+ spaces (width - py_len s).

Definition rjust (width : nat) (s : string) : string :=
  spaces (width - py_len s) +:+ s.

(** [str(n)] for an [int]. *)
Definition str_of_Z (n : Z) : string := NilZero.string_of_int (Z.to_int n).

(** [f"{n:02d}"]: zero-padded to two characters, the sign counted. *)
Definition format_02d (n : Z) : string :=
  if (0 <=? n) && (n <? 10) then "0" +:+ str_of_Z n else str_of_Z n.

(** ** ui.py *)

(** "Convert simulated time (seconds) → HH:MM:SS", as the three display
    functions do. *)
Definition timestamp (sim_time : Z) : string :=
  let hours := sim_time / 3600 in
  let minutes := (sim_time mod 3600) / 60 in
  let seconds := sim_time mod 60 in
  format_02d hours +:+ ":" +:+ format_02d minutes +:+ ":" +:+ format_02d seconds.

(** [ascii_cards]: the dictionary of suit symbols; a missing key raises
    [KeyError]. *)
Definition suit_symbols : list (string * string) :=
  [("Heart", "♥"); ("Diamond", "♦"); ("Club", "♣"); ("Spade", "♠")].

Fixpoint str_dict_get {V : Type} (k : string) (d : list (string * V)) : option V :=
  match d with
  | [] => None
  | (k', v) :: d' => if String.eqb k' k then Some v else str_dict_get k d'
  end.

(** The five lines of one card. *)
Definition card_lines (r s : string) : list string :=
  ["┌─────────┐";
   "│" +:+ ljust 2 r +:+ "       │";
   "│    " +:+ s +:+ "    │";
   "│       " +:+ rjust 2 r +:+ "│";
   "└─────────┘"].

(** [for i in range(5): lines[i] += card[i] + " "] *)
Definition append_card (lines card : list string) : list string :=
  zip_with (λ line c, line +:+ c +:+ " ") lines card.

Fixpoint ascii_cards_from (cards : list Card) (lines : list string)
  : result (list string) :=
  match cards with
  | [] => Ok lines
  | (rank, suit, value) :: rest =>
      match str_dict_get suit suit_symbols with
      | None => Raise KeyError
      | Some s => ascii_cards_from rest (append_card lines (card_lines rank s))
      end
  end.

Definition ascii_cards (cards : list Card) : result (list string) :=
  ascii_cards_from cards [""; ""; ""; ""; ""].

(** [display_table_view], "Find the corresponding result for this
    seat": the text of the outcome column. *)
Fixpoint outcome_text_from (results : list ResultEntry) (seat : nat)
    (outcome_text : string) : string :=
  match results with
  | [] => outcome_text
  | r :: rest =>
      if (res_seat_index r =? seat)%nat then
        let delta := res_money_delta r in
        if 0 <? delta then "Lost " +:+ str_of_Z delta
        else if delta <? 0 then "Won " +:+ str_of_Z (Z.abs delta)
        else "Push"
      else outcome_text_from rest seat outcome_text
  end.

Definition outcome_text (results : list ResultEntry) (seat : nat) : string :=
  outcome_text_from results seat "Push".

(** [display_table_view], "Parse results for display": the lists and
    totals of the round-results box. *)
Record Tally : Type := mkTally {
  winners : list string;
  losers : list string;
  pushes : list string;
  total_winnings : Z;
  total_losses : Z;
  total_bets : Z
}.

(** "Finding player name for this seat": the first entry of
    [seats_after] with that seat number and a player. *)
Fixpoint find_player_name (seats_after : list SeatAfter) (seat_index : nat)
  : option string :=
  match seats_after with
  | [] => None
  | seat_info :: rest =>
      match sa_player seat_info with
      | Some (name, _, _) =>
          if (sa_seat seat_info =? seat_index)%nat then Some name
          else find_player_name rest seat_index
      | None => find_player_name rest seat_index
      end
  end.

(** One pass of the loop body; [if player_name:] skips [None] and the
    empty string. *)
Definition tally_result (seats_after : list SeatAfter) (tl : Tally)
    (r : ResultEntry) : Tally :=
  match find_player_name seats_after (res_seat_index r) with
  | None => tl
  | Some player_name =>
      if String.eqb player_name "" then tl
      else
        let delta := res_money_delta r in
        if delta <? 0 then
          mkTally (winners tl ++ [player_name +:+ " (+" +:+ str_of_Z (Z.abs delta) +:+ ")"])
                  (losers tl) (pushes tl)
                  (total_winnings tl + Z.abs delta) (total_losses tl)
                  (total_bets tl + Z.abs delta)
        else if 0 <? delta then
          mkTally (winners tl)
                  (losers tl ++ [player_name +:+ " (-" +:+ str_of_Z delta +:+ ")"])
                  (pushes tl)
                  (total_winnings tl) (total_losses tl + delta)
                  (total_bets tl + delta)
        else
          mkTally (winners tl) (losers tl) (pushes tl ++ [player_name])
                  (total_winnings tl) (total_losses tl) (total_bets tl)
  end.

Definition tally_results (seats_after : list SeatAfter) (results : list ResultEntry)
  : Tally :=
  fold_left (tally_result seats_after) results (mkTally [] [] [] 0 0 0).

(** [display_casino_round_summary], "Count active players". *)
Definition active_players (c : Casino) : Z :=
  fold_left
    (λ n table,
       fold_left (λ n seat, match player seat with Some _ => n + 1 | None => n end)
                 (seats_list table) n)
    (tables c) 0.

(** "Count waiting players": [player_pool] may be [None]. *)
Definition waiting_players (player_pool : option (list ref)) : Z :=
  match player_pool with
  | Some pool => Z.of_nat (length pool)
  | None => 0
  end.

(** "Per table summary": [(table_id, seated_players, total_seats,
    profit_delta)]. *)
Definition table_summary (event : Event) : Z * Z * Z * Z :=
  (ev_table_id event,
   fold_left (λ n s, match sa_player s with Some _ => n + 1 | None => n end)
             (ev_seats_after event) 0,
   Z.of_nat (length (ev_seats_after event)),
   ev_profit_delta event).

(** [display_player_view], "Analyze player performance history": the
    counters of wins, losses and pushes. *)
Definition count_outcomes (history : list (string * Z)) : Z * Z * Z :=
  fold_left
    (λ '(wins, losses, pushes) h,
       if String.eqb (fst h) "win" then (wins + 1, losses, pushes)
       else if String.eqb (fst h) "loss" then (wins, losses + 1, pushes)
       else (wins, losses, pushes + 1))
    history (0, 0, 0).

(** [bets]: the stakes the average bet is taken over. *)
Definition bets_of_history (history : list (string * Z)) : list Z :=
  fold_left (λ bets h, if 0 <? snd h then bets ++ [Z.abs (snd h)] else bets)
            history [].

(** ** simulation.py: which rounds are shown *)

Record RunConfig : Type := mkRunConfig {
  view_mode : string;
  tracked_table : option Z;
  tracked_player : option string
}.

(** "table" mode: [event["table_id"] == run_config.tracked_table]. *)
Definition table_view_events (run_config : RunConfig) (round_events : list Event)
  : list Event :=
  filter (λ event, Some (ev_table_id event) = tracked_table run_config) round_events.

Section PlayerViewEvents.

(** [str.lower]. *)
Context (lower : string → string).

(** The inner loop over [event["results"]]: [Ok true] when a result
    carries the tracked name; [tracked_player.lower()] on [None] raises
    [AttributeError]. *)
Fixpoint tracked_in (tracked_player : option string) (results : list ResultEntry)
  : result bool :=
  match results with
  | [] => Ok false
  | r :: rest =>
      match tracked_player with
      | None => Raise AttributeError
      | Some name =>
          if String.eqb (lower (res_player_name r)) (lower name) then Ok true
          else tracked_in tracked_player rest
      end
  end.

(** "Filter events related to the tracked player only". *)
Fixpoint player_view_events (run_config : RunConfig) (round_events : list Event)
    (filtered : list Event) : result (list Event) :=
  match round_events with
  | [] => Ok filtered
  | event :: rest =>
      found ← tracked_in (tracked_player run_config) (ev_results event);
      player_view_events run_config rest
        (if found : bool then filtered ++ [event] else filtered)
  end.

(** What one tick hands to the display functions. *)
Inductive Shown : Type :=
  | ShowCasino (round_events : list Event)
  | ShowTables (events : list Event)
  | ShowPlayer (event_list : list Event)
  | ShowNothing.

Definition shown (run_config : RunConfig) (round_events : list Event)
  : result Shown :=
  if String.eqb (view_mode run_config) "casino" then Ok (ShowCasino round_events)
  else if String.eqb (view_mode run_config) "table" then
    Ok (ShowTables (table_view_events run_config round_events))
  else if String.eqb (view_mode run_config) "player" then
    filtered ← player_view_events run_config round_events [];
    match filtered with
    | [] => Ok ShowNothing
    | _ => Ok (ShowPlayer filtered)
    end
  else Ok ShowNothing.

End PlayerViewEvents.

(** ** player_factory.py *)

Section PlayerFactory.

(** The generators behind [generate_player]: [random.choices] with
    [k=1], [random.randint], and Faker's [first_name], [last_name] and
    [unique.email], over one state [G].  [unique.email] gives up with
    [UniquenessException] when it finds no unused address: [None]. *)
Context {G : Type}.
Context (choices : list string → list Z → G → string * G).
Context (randint : Z → Z → G → Z * G).
Context (fake_first_name fake_last_name : G → string * G).
Context (fake_unique_email : G → option (string * G)).

Definition generate_player (player_id : Z) (g : G) : option (Player * G) :=
  let '(player_type, g1) :=
    choices ["casual"; "regular"; "aggressive"; "high_roller"] [70; 20; 8; 2] g in
  let '(money, rounds, g3) :=
    if String.eqb player_type "casual" then
      let '(money, g2) := randint 1000 2500 g1 in
      let '(rounds, g3) := randint 5 10 g2 in (money, rounds, g3)
    else if String.eqb player_type "regular" then
      let '(money, g2) := randint 2000 4000 g1 in
      let '(rounds, g3) := randint 10 20 g2 in (money, rounds, g3)
    else if String.eqb player_type "aggressive" then
      let '(money, g2) := randint 3000 8000 g1 in
      let '(rounds, g3) := randint 8 15 g2 in (money, rounds, g3)
    else
      let '(money, g2) := randint 8000 20000 g1 in
      let '(rounds, g3) := randint 15 40 g2 in (money, rounds, g3) in
  let '(first_name, g4) := fake_first_name g3 in
  let '(last_name, g5) := fake_last_name g4 in
  '(email, g6) ← fake_unique_email g5;
  Some (mkPlayer first_name last_name email player_id player_type money rounds [],
        g6).

(** [for i in range(count): pool.append(generate_player(i))] *)
Fixpoint generate_players (ids : list nat) (pool : list Player) (g : G)
  : option (list Player * G) :=
  match ids with
  | [] => Some (pool, g)
  | i :: rest =>
      '(p, g1) ← generate_player (Z.of_nat i) g;
      generate_players rest (pool ++ [p]) g1
  end.

Definition generate_player_pool (count : Z) (g : G) : option (list Player * G) :=
  generate_players (seq 0 (Z.to_nat count)) [] g.

End PlayerFactory.

(** ** Vocabulary for the displays *)

(** The results the round-results box counts: those whose seat shows,
    after the round, a player with a non-empty name. *)
Definition counted (seats_after : list SeatAfter) (r : ResultEntry) : bool :=
  match find_player_name seats_after (res_seat_index r) with
  | Some name => negb (String.eqb name "")
  | None => false
  end.

(** Reading a displayed [HH:MM:SS] back: two decimal digits per
    field. *)
Definition digit_value (a : ascii) : Z := Z.of_nat (nat_of_ascii a) - 48.

Definition read_timestamp (s : string) : Z :=
  match s with
  | String h1 (String h2 (String _ (String m1 (String m2
      (String _ (String s1 (String s2 EmptyString))))))) =>
      3600 * (10 * digit_value h1 + digit_value h2)
      + 60 * (10 * digit_value m1 + digit_value m2)
      + (10 * digit_value s1 + digit_value s2)
  | _ => -1
  end.


(** An event one of whose results carries the tracked name, compared
    in lower case. *)
Definition mentions (lower : string → string) (name : string) (event : Event) : Prop :=
  Exists (λ r, lower (res_player_name r) = lower name) (ev_results event).

#[global] Instance mentions_dec lower name event : Decision (mentions lower name event).
Proof. unfold mentions. apply _. Defined.

(** ** More sample data *)

(** A store in which every player can play. *)
Definition flush_heap : Heap :=
  λ r, mkPlayer "Bea" "Roy" "bea@example.org" (Z.of_nat r) "regular" 2000 10 [].

(** A casino floor with the sample table, two players waiting, at
    time 0. *)
Definition sample_floor : Sim nat :=
  mkSim flush_heap (set_tables [sample_table] sample_casino) [3; 4]%nat 0%nat 0.

(** Stand-ins for [random.choices] and Faker. *)
Definition sample_choices (population : list string) (weights : list Z) (g : nat)
  : string * nat :=
  (nth (g mod length population) population "", S g).

Definition sample_name (g : nat) : string * nat := ("Ann", S g).

Definition sample_email (g : nat) : option (string * nat) :=
  Some ("ann@example.org", S g).

(** An ace and a ten. *)
Definition sample_hand : list Card :=
  [("A", "Spade", 11); ("10", "Heart", 10)].

(** A history of three rounds. *)
Definition sample_history : list (string * Z) :=
  [("win", 20); ("push", 0); ("loss", 50)].

(** The table view, following table 1. *)
Definition watch_table_1 : RunConfig := mkRunConfig "table" (Some 1) None.

(** * Properties *)

(** ** The shoe *)

Lemma fold_left_snoc {A B : Type} (f : B → list A) (l : list B) (acc : list A) :
  fold_left (λ d x, d ++ f x) l acc = acc ++ flat_map f l.
Proof.
  revert acc. induction l as [|x l IH]; intros acc; simpl.
  - symmetry. apply app_nil_r.
  - rewrite IH. symmetry. apply app_assoc.
Qed.

Lemma append_suit_app (suit : string) (deck : list Card) :
  append_suit suit deck = deck ++ append_suit suit [].
Proof.
  unfold append_suit.
  rewrite (fold_left_snoc (λ cv, [(fst cv, suit, snd cv)]) CARD_LIST deck).
  reflexivity.
Qed.

Lemma append_deck_app (deck : list Card) : append_deck deck = deck ++ one_deck.
Proof.
  unfold one_deck, append_deck.
  transitivity (fold_left (λ d suit, d ++ append_suit suit []) SUITS deck).
  - generalize SUITS. intros suits. revert deck.
    induction suits as [|s suits IH]; intros deck; simpl; [reflexivity|].
    rewrite append_suit_app. apply IH.
  - rewrite fold_left_snoc. reflexivity.
Qed.

Lemma Deck_init_nat_succ (n : nat) :
  Nat.iter (S n) append_deck [] = Nat.iter n append_deck [] ++ one_deck.
Proof. simpl. apply append_deck_app. Qed.

Lemma Deck_init_length (N : Z) :
  length (Deck_init N) = (52 * Z.to_nat N)%nat.
Proof.
  unfold Deck_init. induction (Z.to_nat N) as [|n IH].
  - reflexivity.
  - rewrite Deck_init_nat_succ, length_app, IH.
    change (length one_deck) with 52%nat. lia.
Qed.

Lemma occurrences_app (card : Card) (d1 d2 : list Card) :
  occurrences card (d1 ++ d2) = (occurrences card d1 + occurrences card d2)%nat.
Proof. unfold occurrences. rewrite filter_app, length_app. reflexivity. Qed.

Lemma one_deck_occurrences :
  Forall (λ cv, Forall (λ suit, occurrences (fst cv, suit, snd cv) one_deck = 1%nat) SUITS)
         CARD_LIST.
Proof. repeat constructor. Qed.

Lemma Deck_init_occurrences (N : Z) (rank suit : string) (value : Z) :
  (rank, value) ∈ CARD_LIST → suit ∈ SUITS →
  occurrences (rank, suit, value) (Deck_init N) = Z.to_nat N.
Proof.
  intros Hc Hs.
  assert (H1 : occurrences (rank, suit, value) one_deck = 1%nat).
  { pose proof one_deck_occurrences as H.
    rewrite Forall_forall in H. specialize (H _ Hc).
    rewrite Forall_forall in H. apply (H _ Hs). }
  unfold Deck_init. induction (Z.to_nat N) as [|n IH].
  - reflexivity.
  - rewrite Deck_init_nat_succ, occurrences_app, IH, H1. lia.
Qed.

Lemma draw_card_snoc (deck : list Card) (card : Card) :
  draw_card (deck ++ [card]) = Ok (card, deck).
Proof.
  unfold draw_card. rewrite last_snoc, removelast_last. reflexivity.
Qed.

Lemma draw_card_nil : draw_card [] = Raise IndexError_pop_from_empty_list.
Proof. reflexivity. Qed.

Lemma draw_card_Ok (deck deck' : list Card) (card : Card) :
  draw_card deck = Ok (card, deck') ↔ deck = deck' ++ [card].
Proof.
  split.
  - destruct deck as [|c d _] using rev_ind; [discriminate|].
    rewrite draw_card_snoc. congruence.
  - intros ->. apply draw_card_snoc.
Qed.


(** [n] draws from a shoe holding at least [n] cards hand out its last
    [n] cards, last one first. *)
Lemma draw_cards_app (cards deck : list Card) :
  draw_cards (length cards) (deck ++ rev cards) = Ok (cards, deck).
Proof.
  revert deck. induction cards as [|c cards IH]; intros deck; simpl.
  - rewrite app_nil_r. reflexivity.
  - rewrite app_assoc, draw_card_snoc. simpl. rewrite IH. reflexivity.
Qed.

Lemma draw_cards_Ok (n : nat) (deck cards deck' : list Card) :
  draw_cards n deck = Ok (cards, deck') →
  length cards = n ∧ deck = deck' ++ rev cards.
Proof.
  revert deck cards deck'. induction n as [|n IH]; intros deck cards deck'; simpl.
  - intros [= <- <-]. rewrite app_nil_r. done.
  - destruct (draw_card deck) as [[c d1]|e] eqn:E1; [|discriminate]. simpl.
    destruct (draw_cards n d1) as [[cs d2]|e] eqn:E2; [|discriminate]. simpl.
    intros [= <- <-]. apply IH in E2 as [Hlen ->]. apply draw_card_Ok in E1 as ->.
    simpl. rewrite <- app_assoc. auto.
Qed.

Lemma draw_cards_enough (n : nat) (deck : list Card) :
  (n ≤ length deck)%nat →
  draw_cards n deck = Ok (rev (drop (length deck - n) deck), take (length deck - n) deck).
Proof.
  intros Hn.
  rewrite <- (take_drop (length deck - n) deck) at 1.
  rewrite <- (rev_involutive (drop (length deck - n) deck)) at 1.
  replace n with (length (rev (drop (length deck - n) deck))) at 1
    by (rewrite length_rev, length_drop; lia).
  apply draw_cards_app.
Qed.

Lemma one_deck_cards :
  Forall (λ card : Card,
            (fst (fst card), snd card) ∈ CARD_LIST ∧ snd (fst card) ∈ SUITS)
         one_deck.
Proof.
  apply Forall_forall. intros card Hc.
  assert (Hb : bool_decide ((fst (fst card), snd card) ∈ CARD_LIST
                            ∧ snd (fst card) ∈ SUITS) = true).
  { revert card Hc. apply Forall_forall. vm_compute. repeat constructor. }
  apply bool_decide_eq_true in Hb. exact Hb.
Qed.

Lemma Deck_init_cards (N : Z) (card : Card) :
  card ∈ Deck_init N →
  (fst (fst card), snd card) ∈ CARD_LIST ∧ snd (fst card) ∈ SUITS.
Proof.
  unfold Deck_init. induction (Z.to_nat N) as [|n IH].
  - intros H. inversion H.
  - rewrite Deck_init_nat_succ, elem_of_app. intros [H|H]; [auto|].
    pose proof one_deck_cards as Hall. rewrite Forall_forall in Hall. auto.
Qed.

Lemma CARD_LIST_values (rank : string) (value : Z) :
  (rank, value) ∈ CARD_LIST →
  (rank ∈ ["J"; "Q"; "K"] → value = 10) ∧ (rank = "A" → value = 11)
  ∧ 2 ≤ value ≤ 11.
Proof.
  intros H. unfold CARD_LIST in H. rewrite !elem_of_cons, elem_of_nil in H.
  repeat (destruct H as [H|H];
          [ injection H as -> ->; split; [|split; [|lia]];
            [ rewrite !elem_of_cons, elem_of_nil; intros K;
              repeat (destruct K as [K|K];
                      [first [reflexivity | discriminate K]|]);
              destruct K
            | intros K; first [reflexivity | discriminate K] ]
          | ]).
  destruct H.
Qed.

(** C7. A shoe built with [num_decks = N] holds 52 × N cards: each of
    the 13 ranks in each of the 4 suits exactly N times and nothing
    else, face cards valued 10 and the ace 11.  From a one-deck shoe
    any [n ≤ 52] successive draws succeed, each taking the card at the
    end of the list; after 52 draws the shoe is empty and the next draw
    raises [IndexError] instead of returning a card. *)
Theorem shoe_composition_and_exhaustion (N : Z) :
  0 ≤ N →
  Z.of_nat (length (Deck_init N)) = 52 * N
  ∧ (length CARD_LIST = 13%nat ∧ NoDup (map fst CARD_LIST)
     ∧ length SUITS = 4%nat ∧ NoDup SUITS)
  ∧ (∀ rank suit value,
       (rank, value) ∈ CARD_LIST → suit ∈ SUITS →
       Z.of_nat (occurrences (rank, suit, value) (Deck_init N)) = N)
  ∧ (∀ card, card ∈ Deck_init N →
       (fst (fst card), snd card) ∈ CARD_LIST ∧ snd (fst card) ∈ SUITS)
  ∧ (∀ rank value, (rank, value) ∈ CARD_LIST →
       (rank ∈ ["J"; "Q"; "K"] → value = 10) ∧ (rank = "A" → value = 11))
  ∧ (∀ deck card, draw_card (deck ++ [card]) = Ok (card, deck))
  ∧ (∀ n, (n ≤ 52)%nat →
       ∃ cards deck',
         draw_cards n (Deck_init 1) = Ok (cards, deck')
         ∧ length cards = n ∧ length deck' = (52 - n)%nat
         ∧ Deck_init 1 = deck' ++ rev cards)
  ∧ (∃ cards, draw_cards 52 (Deck_init 1) = Ok (cards, [])
              ∧ draw_card [] = Raise IndexError_pop_from_empty_list)
  ∧ draw_cards 53 (Deck_init 1) = Raise IndexError_pop_from_empty_list.
Proof.
  intros HN.
  split; [rewrite Deck_init_length; lia|].
  split.
  { split; [reflexivity|]. split; [|split; [reflexivity|]].
    - apply (bool_decide_unpack _). vm_compute. exact I.
    - apply (bool_decide_unpack _). vm_compute. exact I. }
  split.
  { intros rank suit value Hc Hs. rewrite Deck_init_occurrences by assumption. lia. }
  split; [apply Deck_init_cards|].
  split.
  { intros rank value H. pose proof (CARD_LIST_values rank value H). tauto. }
  split; [apply draw_card_snoc|].
  split.
  { intros n Hn. eexists _, _. split.
    - apply draw_cards_enough. rewrite Deck_init_length. exact Hn.
    - rewrite length_rev, length_drop, length_take, Deck_init_length.
      change (Z.to_nat 1) with 1%nat.
      split; [lia|]. split; [lia|].
      rewrite rev_involutive, take_drop. reflexivity. }
  split.
  { eexists. split; [vm_compute; reflexivity | reflexivity]. }
  vm_compute. reflexivity.
Qed.

Lemma shoe_composition_and_exhaustion_witness :
  0 ≤ 2 ∧ Z.of_nat (length (Deck_init 2)) = 52 * 2.
Proof.
  split; [lia | apply (shoe_composition_and_exhaustion 2); lia].
Defined.

(** ** Hand totals and the hit loops *)

Lemma fold_total_shift (hand : list Card) (acc : Z) :
  fold_left (λ total card, total + card_value card) hand acc = acc + hand_total hand.
Proof.
  unfold hand_total. revert acc. induction hand as [|c hand IH]; intros acc; simpl.
  - lia.
  - rewrite IH, (IH (0 + card_value c)). lia.
Qed.

Lemma hand_total_nil : hand_total [] = 0.
Proof. reflexivity. Qed.

Lemma hand_total_cons (card : Card) (hand : list Card) :
  hand_total (card :: hand) = card_value card + hand_total hand.
Proof. unfold hand_total at 1. simpl. apply fold_total_shift. Qed.

Lemma hand_total_app (hand1 hand2 : list Card) :
  hand_total (hand1 ++ hand2) = hand_total hand1 + hand_total hand2.
Proof.
  induction hand1 as [|c hand1 IH]; simpl.
  - rewrite hand_total_nil. lia.
  - rewrite !hand_total_cons, IH. lia.
Qed.

Lemma hand_total_snoc (hand : list Card) (card : Card) :
  hand_total (hand ++ [card]) = hand_total hand + card_value card.
Proof. rewrite hand_total_app, hand_total_cons, hand_total_nil. lia. Qed.

Lemma hand_total_lower (hand : list Card) :
  Forall (λ c, 2 ≤ card_value c) hand → 2 * Z.of_nat (length hand) ≤ hand_total hand.
Proof.
  induction 1 as [|c hand Hc _ IH].
  - rewrite hand_total_nil. simpl. lia.
  - rewrite hand_total_cons. simpl length. lia.
Qed.

(** The player's [break] never fires before the loop test would stop
    the loop anyway: both loops draw the same cards. *)
Lemma player_hits_dealer_hits (cards hand : list Card) :
  player_hits cards hand = dealer_hits cards hand.
Proof.
  revert hand. induction cards as [|c cards IH]; intros hand; simpl.
  - reflexivity.
  - destruct (hand_total hand <? 18) eqn:E; [|reflexivity].
    destruct (21 <? hand_total (hand ++ [c])) eqn:E21; [|apply IH].
    assert (E18 : (hand_total (hand ++ [c]) <? 18) = false) by lia.
    destruct cards; simpl; rewrite E18; reflexivity.
Qed.

Lemma player_action_dealer_action (hand deck : list Card) :
  player_action hand deck = dealer_action hand deck.
Proof. unfold player_action, dealer_action. rewrite player_hits_dealer_hits. reflexivity. Qed.




(** What a completed loop has done: it appended the cards [drawn], one
    at a time from the front of [cards]; before each draw the total was
    below 18 and after the last one it is not. *)
Lemma dealer_hits_Ok (cards hand hand' cards' : list Card) :
  dealer_hits cards hand = Ok (hand', cards') →
  ∃ drawn,
    hand' = hand ++ drawn ∧ cards = drawn ++ cards'
    ∧ 18 ≤ hand_total hand'
    ∧ ∀ k, (k < length drawn)%nat → hand_total (hand ++ take k drawn) < 18.
Proof.
  revert hand. induction cards as [|c cards IH]; intros hand; simpl.
  - destruct (hand_total hand <? 18) eqn:E; [discriminate|].
    intros [= <- <-]. exists []. rewrite app_nil_r.
    repeat split; [lia | simpl; lia].
  - destruct (hand_total hand <? 18) eqn:E.
    + intros H. apply IH in H as (drawn & -> & -> & Hge & Hlt).
      exists (c :: drawn). rewrite <- app_assoc in Hge |- *.
      repeat split; [exact Hge|].
      intros [|k] Hk; simpl.
      * rewrite app_nil_r. lia.
      * specialize (Hlt k). rewrite <- app_assoc in Hlt. simpl in Hk, Hlt.
        apply Hlt. lia.
    + intros [= <- <-]. exists []. rewrite app_nil_r.
      repeat split; [lia | simpl; lia].
Qed.

Lemma dealer_action_Ok (hand deck hand' deck' : list Card) :
  dealer_action hand deck = Ok (hand', deck') →
  ∃ drawn,
    hand' = hand ++ drawn ∧ deck = deck' ++ rev drawn
    ∧ 18 ≤ hand_total hand'
    ∧ ∀ k, (k < length drawn)%nat → hand_total (hand ++ take k drawn) < 18.
Proof.
  unfold dealer_action.
  destruct (dealer_hits (upcoming deck) hand) as [[hd cs]|e] eqn:E; [|discriminate].
  simpl. intros [= <- <-].
  apply dealer_hits_Ok in E as (drawn & -> & Hc & Hge & Hlt).
  exists drawn. repeat split; try assumption.
  unfold upcoming in Hc. apply (f_equal (@rev Card)) in Hc.
  rewrite rev_involutive, rev_app_distr in Hc. exact Hc.
Qed.

(** The loop fails only by running out of cards while still below 18. *)
Lemma dealer_hits_Raise (cards hand : list Card) (e : exn) :
  dealer_hits cards hand = Raise e →
  e = IndexError_pop_from_empty_list ∧ hand_total (hand ++ cards) < 18.
Proof.
  revert hand. induction cards as [|c cards IH]; intros hand; simpl.
  - destruct (hand_total hand <? 18) eqn:E; [|discriminate].
    intros [= <-]. rewrite app_nil_r. split; [reflexivity|lia].
  - destruct (hand_total hand <? 18) eqn:E; [|discriminate].
    intros H. apply IH in H. rewrite <- app_assoc in H. exact H.
Qed.

(** With cards worth at least 2 each, a hand stops at 9 cards at the
    latest, so a shoe that can bring the hand to 9 cards is enough. *)
Lemma dealer_hits_enough (cards hand : list Card) :
  Forall (λ c, 2 ≤ card_value c) hand →
  Forall (λ c, 2 ≤ card_value c) cards →
  (9 ≤ length hand + length cards)%nat →
  ∃ drawn cards',
    dealer_hits cards hand = Ok (hand ++ drawn, cards')
    ∧ cards = drawn ++ cards'
    ∧ (length (hand ++ drawn) ≤ Nat.max 9 (length hand))%nat.
Proof.
  revert hand. induction cards as [|c cards IH]; intros hand Hh Hc Hlen; simpl.
  - pose proof (hand_total_lower hand Hh) as Hlow. simpl in Hlen.
    assert (E : (hand_total hand <? 18) = false) by lia. rewrite E.
    exists [], []. rewrite app_nil_r. repeat split. lia.
  - destruct (hand_total hand <? 18) eqn:E.
    + pose proof (hand_total_lower hand Hh) as Hlow.
      inversion Hc as [|? ? Hc1 Hc2]; subst.
      destruct (IH (hand ++ [c])) as (drawn & cards' & Heq & Hcs & Hl).
      * apply Forall_app. split; [assumption|]. constructor; [assumption|constructor].
      * assumption.
      * rewrite length_app. simpl in *. lia.
      * exists (c :: drawn), cards'. rewrite <- app_assoc in Heq, Hl. simpl in Heq, Hl.
        repeat split; [exact Heq | simpl; congruence |].
        pose proof (length_app hand [c]) as L1.
        pose proof (length_app hand (c :: drawn)) as L2.
        cbn [length] in L1, L2. lia.
    + exists [], (c :: cards). rewrite app_nil_r. repeat split. lia.
Qed.

Lemma dealer_action_enough (hand deck : list Card) :
  Forall (λ c, 2 ≤ card_value c) hand →
  Forall (λ c, 2 ≤ card_value c) deck →
  (9 ≤ length hand + length deck)%nat →
  ∃ drawn deck',
    dealer_action hand deck = Ok (hand ++ drawn, deck')
    ∧ deck = deck' ++ rev drawn
    ∧ (length (hand ++ drawn) ≤ Nat.max 9 (length hand))%nat.
Proof.
  intros Hh Hd Hlen. unfold dealer_action.
  destruct (dealer_hits_enough (upcoming deck) hand) as (drawn & cs & Heq & Hc & Hl).
  - assumption.
  - unfold upcoming. apply Forall_rev. assumption.
  - unfold upcoming. rewrite length_rev. assumption.
  - exists drawn, (rev cs). rewrite Heq. simpl. repeat split; [|assumption].
    unfold upcoming in Hc. apply (f_equal (@rev Card)) in Hc.
    rewrite rev_involutive, rev_app_distr in Hc. exact Hc.
Qed.

(** ** Settlement *)

Arguments settle_hand : simpl never.

Lemma set_money_left_same (q : Player) : set_money_left (money_left q - 0) q = q.
Proof. destruct q. unfold set_money_left. simpl. rewrite Z.sub_0_r. reflexivity. Qed.

Lemma set_casino_profit_same (c : Casino) : set_casino_profit (casino_profit c + 0) c = c.
Proof. destruct c. unfold set_casino_profit. simpl. rewrite Z.add_0_r. reflexivity. Qed.

Lemma heap_upd_eq (f : Player → Player) (p : ref) (h : Heap) : heap_upd f p h p = f (h p).
Proof. unfold heap_upd. destruct (decide (p = p)); [reflexivity|contradiction]. Qed.

Lemma heap_upd_ne (f : Player → Player) (p r : ref) (h : Heap) :
  r ≠ p → heap_upd f p h r = h r.
Proof. intros Hne. unfold heap_upd. destruct (decide (r = p)); [contradiction|reflexivity]. Qed.

Lemma first_name_record_outcome (o : string * Z) (q : Player) :
  first_name (record_outcome o q) = first_name q.
Proof. reflexivity. Qed.

Lemma first_name_settle_player (pt dt bet : Z) (q : Player) :
  first_name (settle_player pt dt bet q) = first_name q.
Proof. reflexivity. Qed.

Lemma money_left_settle_player (pt dt bet : Z) (q : Player) :
  money_left (settle_player pt dt bet q) = money_left q - house_delta pt dt bet.
Proof. reflexivity. Qed.

Lemma rounds_left_settle_player (pt dt bet : Z) (q : Player) :
  rounds_left (settle_player pt dt bet q) = rounds_left q.
Proof. reflexivity. Qed.

(** One pass of the settlement loop body, in closed form. *)
Lemma settle_hand_Ok (t : Table) (bets : dict Z) (dt : Z) (k : nat)
    (hand : list Card) (h : Heap) (c : Casino) (rs : list ResultEntry)
    (p : ref) (bet : Z) :
  seat_player t k = Some p →
  dict_get k bets = Some bet →
  ∃ h1,
    settle_hand t bets dt k hand (h, c, rs)
    = Ok (h1,
          set_casino_profit (casino_profit c + house_delta (hand_total hand) dt bet) c,
          rs ++ [mkResult k (first_name (h p)) (house_delta (hand_total hand) dt bet)])
    ∧ ∀ r, h1 r = if decide (r = p)
                  then settle_player (hand_total hand) dt bet (h r) else h r.
Proof.
  unfold seat_player. intros Hp Hb.
  destruct (seats_list t !! k) as [seat|] eqn:Hs; [|discriminate]. simpl in Hp.
  unfold settle_hand. rewrite Hs, Hb, Hp.
  unfold house_delta, settle_player, outcome_of, house_delta.
  destruct (21 <? hand_total hand);
    [|destruct (21 <? dt);
      [|destruct (dt <? hand_total hand);
        [|destruct (hand_total hand <? dt)]]];
    eexists; (split; [rewrite ?heap_upd_eq; cbn [first_name set_money_left];
                      rewrite ?Z.sub_opp_r, ?set_casino_profit_same; reflexivity|]);
    intros r; unfold heap_upd; destruct (decide (r = p)) as [->|Hne];
    rewrite ?Z.sub_opp_r, ?set_money_left_same; reflexivity.
Qed.

(** The loop body raises nothing but the three lookup errors. *)
Lemma settle_hand_inv (t : Table) (bets : dict Z) (dt : Z) (k : nat)
    (hand : list Card) (st : Heap * Casino * list ResultEntry) :
  (∃ p bet, seat_player t k = Some p ∧ dict_get k bets = Some bet)
  ∨ (∃ e, settle_hand t bets dt k hand st = Raise e
          ∧ e ≠ IndexError_pop_from_empty_list).
Proof.
  destruct st as [[h c] rs]. unfold settle_hand, seat_player.
  destruct (seats_list t !! k) as [seat|]; simpl;
    [|right; eexists; split; [reflexivity|discriminate]].
  destruct (dict_get k bets) as [bet|];
    [|right; eexists; split; [reflexivity|discriminate]].
  destruct (player seat) as [p|];
    [|right; eexists; split; [reflexivity|discriminate]].
  left. eauto.
Qed.

Lemma sumZ_app (l1 l2 : list Z) : sumZ (l1 ++ l2) = sumZ l1 + sumZ l2.
Proof. unfold sumZ. induction l1 as [|x l1 IH]; simpl; lia. Qed.

Lemma settle_item_first_name (t : Table) (bets : dict Z) (dt : Z) (r : ref)
    (items : dict (list Card)) (q : Player) :
  first_name (fold_left (settle_item t bets dt r) items q) = first_name q.
Proof.
  revert q. induction items as [|item items IH]; intros q; simpl; [reflexivity|].
  rewrite IH. unfold settle_item.
  destruct (seat_player t (fst item)); [|reflexivity].
  destruct (dict_get (fst item) bets); [|reflexivity].
  destruct (decide (r = r0)); reflexivity.
Qed.

(** The settlement loop in closed form: every item finds its seat, its
    player and its bet; each object in the store has undergone the
    settlements of the items whose seat holds it, in order; the profit
    has moved by the sum of the house's shares; one result entry per
    item has been appended. *)
Lemma settle_hands_Ok (t : Table) (bets : dict Z) (dt : Z)
    (items : dict (list Card)) (h : Heap) (c : Casino) (rs : list ResultEntry)
    (h' : Heap) (c' : Casino) (rs' : list ResultEntry) :
  settle_hands t bets dt items (h, c, rs) = Ok (h', c', rs') →
  Forall (λ item, is_Some (seat_player t (fst item))
                  ∧ is_Some (dict_get (fst item) bets)) items
  ∧ (∀ r, h' r = fold_left (settle_item t bets dt r) items (h r))
  ∧ c' = set_casino_profit (casino_profit c') c
  ∧ casino_profit c' = casino_profit c + sumZ (map (item_delta bets dt) items)
  ∧ rs' = rs ++ map (item_result t h bets dt) items.
Proof.
  revert h c rs. induction items as [|[k hand] items IH]; intros h c rs; simpl.
  - intros [= <- <- <-]. split; [constructor|]. split; [reflexivity|].
    split; [destruct c; reflexivity|]. split; [simpl; lia|].
    rewrite app_nil_r. reflexivity.
  - destruct (settle_hand_inv t bets dt k hand (h, c, rs))
      as [(p & bet & Hp & Hb)|(e & He & _)]; [|rewrite He; discriminate].
    destruct (settle_hand_Ok t bets dt k hand h c rs p bet Hp Hb) as (h1 & Heq & Hh1).
    rewrite Heq. simpl. intros H. apply IH in H as (Hall & Hh & Hc & Hprofit & Hrs).
    split; [constructor; [simpl; rewrite Hp, Hb; eauto|exact Hall]|].
    split.
    { intros r. rewrite Hh, Hh1. f_equal. unfold settle_item. simpl.
      rewrite Hp, Hb. reflexivity. }
    split; [rewrite Hc at 1; destruct c; reflexivity|].
    split.
    { rewrite Hprofit. unfold item_delta at 2. simpl. rewrite Hb. lia. }
    rewrite Hrs, <- app_assoc. simpl. f_equal. f_equal.
    + unfold item_result, item_delta. simpl. rewrite Hp, Hb. reflexivity.
    + apply map_ext_in. intros item _. unfold item_result. f_equal.
      destruct (seat_player t (fst item)) as [p'|]; [|reflexivity].
      rewrite Hh1. destruct (decide (p' = p)); reflexivity.
Qed.

(** Conversely the loop completes whenever every item finds its seat,
    player and bet. *)
Lemma settle_hands_total (t : Table) (bets : dict Z) (dt : Z)
    (items : dict (list Card)) (st : Heap * Casino * list ResultEntry) :
  Forall (λ item, is_Some (seat_player t (fst item))
                  ∧ is_Some (dict_get (fst item) bets)) items →
  is_Ok (settle_hands t bets dt items st).
Proof.
  intros Hall. revert st. induction Hall as [|[k hand] items [[p Hp] [bet Hb]] _ IH];
    intros [[h c] rs]; simpl.
  - eexists. reflexivity.
  - simpl in Hp, Hb.
    destruct (settle_hand_Ok t bets dt k hand h c rs p bet Hp Hb) as (h1 & Heq & _).
    rewrite Heq. simpl. apply IH.
Qed.

Lemma settle_hands_no_pop (t : Table) (bets : dict Z) (dt : Z)
    (items : dict (list Card)) (st : Heap * Casino * list ResultEntry) :
  settle_hands t bets dt items st ≠ Raise IndexError_pop_from_empty_list.
Proof.
  revert st. induction items as [|[k hand] items IH]; intros st; simpl; [discriminate|].
  destruct (settle_hand_inv t bets dt k hand st)
    as [(p & bet & Hp & Hb)|(e & He & Hne)].
  - destruct st as [[h c] rs].
    destruct (settle_hand_Ok t bets dt k hand h c rs p bet Hp Hb) as (h1 & Heq & _).
    rewrite Heq. simpl. apply IH.
  - rewrite He. simpl. congruence.
Qed.

(** The settlement loop leaves [rounds_left] alone. *)
Lemma settle_item_rounds_left (t : Table) (bets : dict Z) (dt : Z) (r : ref)
    (items : dict (list Card)) (q : Player) :
  rounds_left (fold_left (settle_item t bets dt r) items q) = rounds_left q.
Proof.
  revert q. induction items as [|item items IH]; intros q; simpl; [reflexivity|].
  rewrite IH. unfold settle_item.
  destruct (seat_player t (fst item)); [|reflexivity].
  destruct (dict_get (fst item) bets); [|reflexivity].
  destruct (decide (r = r0)); reflexivity.
Qed.

(** ** Dictionaries *)

Lemma dict_get_set_eq {V : Type} (k : nat) (v : V) (d : dict V) :
  dict_get k (dict_set k v d) = Some v.
Proof.
  induction d as [|[k' v'] d IH]; simpl.
  - destruct (decide (k = k)); [reflexivity|contradiction].
  - destruct (decide (k' = k)) as [->|Hne]; simpl.
    + destruct (decide (k = k)); [reflexivity|contradiction].
    + destruct (decide (k' = k)); [contradiction|exact IH].
Qed.

Lemma dict_get_set_ne {V : Type} (k k' : nat) (v : V) (d : dict V) :
  k ≠ k' → dict_get k' (dict_set k v d) = dict_get k' d.
Proof.
  intros Hne. induction d as [|[k1 v1] d IH]; simpl.
  - destruct (decide (k = k')); [contradiction|reflexivity].
  - destruct (decide (k1 = k)) as [->|Hne1]; simpl.
    + destruct (decide (k = k')); [contradiction|reflexivity].
    + destruct (decide (k1 = k')); [reflexivity|exact IH].
Qed.

Lemma dict_set_fresh {V : Type} (k : nat) (v : V) (d : dict V) :
  k ∉ dict_keys d → dict_set k v d = d ++ [(k, v)].
Proof.
  induction d as [|[k' v'] d IH]; simpl; intros Hk; [reflexivity|].
  apply not_elem_of_cons in Hk as [Hne Hk].
  destruct (decide (k' = k)); [congruence|]. rewrite IH by exact Hk. reflexivity.
Qed.

Lemma dict_set_length {V : Type} (k : nat) (v : V) (d : dict V) :
  (length (dict_set k v d) ≤ S (length d))%nat.
Proof.
  induction d as [|[k' v'] d IH]; simpl; [lia|].
  destruct (decide (k' = k)); simpl; lia.
Qed.

Lemma dict_set_Forall {V : Type} (P : nat * V → Prop) (k : nat) (v : V) (d : dict V) :
  P (k, v) → Forall P d → Forall P (dict_set k v d).
Proof.
  intros Hv. induction 1 as [|[k' v'] d Hx Hd IH]; simpl.
  - repeat constructor. exact Hv.
  - destruct (decide (k' = k)); constructor; assumption.
Qed.

Lemma dict_get_is_Some {V : Type} (k : nat) (d : dict V) :
  is_Some (dict_get k d) ↔ k ∈ dict_keys d.
Proof.
  induction d as [|[k' v'] d IH]; simpl.
  - split; [intros [? [=]]|intros H; inversion H].
  - rewrite elem_of_cons. destruct (decide (k' = k)) as [->|Hne].
    + split; eauto.
    + rewrite IH. split; [auto|]. intros [->|H]; [contradiction|exact H].
Qed.

Lemma dict_get_elem_of {V : Type} (k : nat) (v : V) (d : dict V) :
  dict_get k d = Some v → (k, v) ∈ d.
Proof.
  induction d as [|[k' v'] d IH]; simpl; [discriminate|].
  destruct (decide (k' = k)) as [->|Hne].
  - intros [= ->]. left.
  - intros H. right. auto.
Qed.

Lemma dict_get_NoDup {V : Type} (k : nat) (v : V) (d : dict V) :
  NoDup (dict_keys d) → (k, v) ∈ d → dict_get k d = Some v.
Proof.
  induction d as [|[k' v'] d IH]; simpl; intros Hnd Hin; [inversion Hin|].
  apply NoDup_cons in Hnd as [Hk' Hnd].
  apply elem_of_cons in Hin as [[= <- <-]|Hin].
  - destruct (decide (k = k)); [reflexivity|contradiction].
  - destruct (decide (k' = k)) as [->|Hne]; [|auto].
    exfalso. apply Hk'. unfold dict_keys.
    apply (list_elem_of_fmap_2 fst) in Hin. exact Hin.
Qed.

(** ** Well-formed tables *)

Lemma Table_init_wf (table_id num_seats : Z) : Table_wf (Table_init table_id num_seats).
Proof.
  intros i seat. unfold Table_init. simpl. rewrite list_lookup_fmap.
  destruct (seq 0 (Z.to_nat num_seats) !! i) as [j|] eqn:E; [|discriminate].
  simpl. intros [= <-]. simpl. apply lookup_seq in E. lia.
Qed.

Lemma occupied_indices_cons (seat : Seat) (seats : list Seat) :
  occupied_indices (seat :: seats) =
    match player seat with
    | Some _ => seat_index seat :: occupied_indices seats
    | None => occupied_indices seats
    end.
Proof.
  unfold occupied_indices. rewrite filter_cons.
  destruct (player seat); simpl.
  - destruct (decide (is_Some (Some r))) as [|Hn]; [reflexivity|].
    exfalso. apply Hn. eauto.
  - destruct (decide (is_Some (@None ref))) as [[? [=]]|]; reflexivity.
Qed.

Lemma occupied_cons (seat : Seat) (seats : list Seat) :
  occupied (seat :: seats) =
    match player seat with
    | Some _ => S (occupied seats)
    | None => occupied seats
    end.
Proof. unfold occupied, seated. simpl. destruct (player seat); reflexivity. Qed.

Arguments occupied : simpl never.

Lemma occupied_indices_length (seats : list Seat) :
  length (occupied_indices seats) = occupied seats.
Proof.
  unfold occupied, seated.
  induction seats as [|seat seats IH]; [reflexivity|].
  rewrite occupied_indices_cons. simpl in IH |- *.
  destruct (player seat); simpl; rewrite IH; reflexivity.
Qed.

(** In a well-formed table, the recorded index of an occupied seat
    leads back to that seat, and no index is recorded twice. *)
Lemma wf_occupied_indices (t : Table) :
  Table_wf t →
  NoDup (occupied_indices (seats_list t))
  ∧ ∀ k, k ∈ occupied_indices (seats_list t) ↔ is_Some (seat_player t k).
Proof.
  unfold Table_wf, seat_player. generalize (seats_list t). intros seats Hwf.
  assert (Hgen : ∀ n l,
            (∀ i seat, l !! i = Some seat → seat_index seat = (n + i)%nat) →
            NoDup (occupied_indices l)
            ∧ (∀ k, k ∈ occupied_indices l ↔
                    (n ≤ k)%nat ∧ is_Some (seat ← l !! (k - n)%nat; player seat))).
  { intros n l. revert n. induction l as [|seat l IH]; intros n Hl.
    - split; [constructor|]. intros k. unfold occupied_indices. simpl.
      split; [intros H; inversion H|]. intros [_ [? H]]. simpl in H. discriminate H.
    - destruct (IH (S n)) as [Hnd Hk].
      { intros i s Hi. rewrite (Hl (S i) s Hi). lia. }
      pose proof (Hl 0%nat seat eq_refl) as H0. rewrite Nat.add_0_r in H0.
      rewrite occupied_indices_cons. destruct (player seat) as [p|] eqn:Ep.
      + split.
        * apply NoDup_cons. split; [|exact Hnd]. rewrite Hk. lia.
        * intros k. rewrite elem_of_cons, Hk, H0.
          destruct (decide (k = n)) as [->|Hne].
          -- replace (n - n)%nat with 0%nat by lia. simpl. rewrite Ep.
             split; [intros _; split; [lia|eauto]|auto].
          -- split.
             ++ intros [?|[Hle Hs]]; [contradiction|]. split; [lia|].
                replace (k - n)%nat with (S (k - S n)) by lia. exact Hs.
             ++ intros [Hle Hs]. right. split; [lia|].
                replace (k - n)%nat with (S (k - S n)) in Hs by lia. exact Hs.
      + split; [exact Hnd|]. intros k. rewrite Hk.
        destruct (decide (k = n)) as [->|Hne].
        * replace (n - n)%nat with 0%nat by lia. simpl. rewrite Ep.
          split; [lia|]. intros [_ [? [=]]].
        * split.
          -- intros [Hle Hs]. split; [lia|].
             replace (k - n)%nat with (S (k - S n)) by lia. exact Hs.
          -- intros [Hle Hs]. split; [lia|].
             replace (k - n)%nat with (S (k - S n)) in Hs by lia. exact Hs. }
  destruct (Hgen 0%nat seats) as [Hnd Hk].
  { intros i s Hi. simpl. eauto. }
  split; [exact Hnd|]. intros k. rewrite Hk, Nat.sub_0_r.
  split; [tauto|]. intros H. split; [lia|exact H].
Qed.

(** ** Bets, dealing and the players' turns *)

Lemma deal_players_Ok (seats : list Seat) (hands hands' : dict (list Card))
    (deck deck' : list Card) :
  deal_players seats hands deck = Ok (hands', deck') →
  (∀ k, k ∈ dict_keys hands' ↔ k ∈ dict_keys hands ∨ k ∈ occupied_indices seats)
  ∧ (∃ dealt, deck = deck' ++ dealt ∧ length dealt = (2 * occupied seats)%nat)
  ∧ (∀ P : Card → Prop,
       Forall P deck →
       Forall (λ kv, length (snd kv) = 2%nat ∧ Forall P (snd kv)) hands →
       Forall (λ kv, length (snd kv) = 2%nat ∧ Forall P (snd kv)) hands')
  ∧ (length hands' ≤ length hands + occupied seats)%nat
  ∧ (NoDup (dict_keys hands ++ occupied_indices seats) →
     dict_keys hands' = dict_keys hands ++ occupied_indices seats).
Proof.
  revert hands deck. induction seats as [|seat seats IH]; intros hands deck; simpl.
  - intros [= <- <-]. unfold occupied_indices. change (occupied []) with 0%nat. simpl.
    split; [intros k; rewrite elem_of_nil; tauto|].
    split; [exists []; rewrite app_nil_r; auto|].
    split; [auto|]. split; [lia|]. rewrite app_nil_r. reflexivity.
  - rewrite occupied_indices_cons, occupied_cons.
    destruct (player seat) as [p|].
    + destruct (draw_card deck) as [[c1 d1]|e] eqn:E1; [|discriminate]. simpl.
      destruct (draw_card d1) as [[c2 d2]|e] eqn:E2; [|discriminate]. simpl.
      apply draw_card_Ok in E1 as ->. apply draw_card_Ok in E2 as ->.
      intros H. apply IH in H as (Hk & (dealt & -> & Hlen) & HP & Hl & Hnd).
      split.
      { intros k. rewrite Hk, elem_of_cons, <- !dict_get_is_Some.
        destruct (decide (seat_index seat = k)) as [->|Hne].
        - rewrite dict_get_set_eq. split; [auto|]. intros _. left. eauto.
        - rewrite dict_get_set_ne by exact Hne. split.
          + intros [?|?]; auto.
          + intros [?|[?|?]]; auto. congruence. }
      split.
      { exists (dealt ++ [c2; c1]). rewrite <- !app_assoc. simpl.
        split; [reflexivity|]. rewrite length_app. simpl. lia. }
      split.
      { intros P Hdeck Hh. rewrite !Forall_app in Hdeck.
        destruct Hdeck as [[[Hd' Hdealt] Hc2] Hc1].
        apply HP.
        - rewrite Forall_app. auto.
        - apply dict_set_Forall; [|exact Hh]. simpl. split; [reflexivity|].
          inversion Hc1; inversion Hc2; subst. repeat constructor; assumption. }
      split.
      { pose proof (dict_set_length (seat_index seat) [c1; c2] hands). simpl. lia. }
      intros Hnodup.
      assert (Hfresh : seat_index seat ∉ dict_keys hands).
      { apply NoDup_app in Hnodup as (_ & Hdisj & _). intros Hin.
        apply (Hdisj _ Hin). left. }
      rewrite dict_set_fresh in Hnd by exact Hfresh.
      unfold dict_keys in Hnd |- *. rewrite map_app in Hnd. simpl in Hnd.
      rewrite <- app_assoc in Hnd. simpl in Hnd. apply Hnd. exact Hnodup.
    + apply IH.
Qed.

Lemma deal_players_total (seats : list Seat) (hands : dict (list Card))
    (deck : list Card) :
  (2 * occupied seats ≤ length deck)%nat →
  is_Ok (deal_players seats hands deck).
Proof.
  revert hands deck. induction seats as [|seat seats IH]; intros hands deck; simpl.
  - intros _. eexists. reflexivity.
  - rewrite occupied_cons.
    destruct (player seat) as [p|]; [|apply IH].
    simpl. intros Hlen.
    destruct deck as [|c1 deck _] using rev_ind; [simpl in Hlen; lia|].
    destruct deck as [|c2 deck _] using rev_ind;
      [rewrite length_app in Hlen; simpl in Hlen; lia|].
    rewrite !draw_card_snoc. simpl. rewrite draw_card_snoc. simpl.
    apply IH. rewrite !length_app in Hlen. simpl in Hlen. lia.
Qed.

Lemma players_act_Ok (items items' : dict (list Card)) (deck deck' : list Card)
    (c c' : Casino) :
  players_act items deck c = Ok (items', deck', c') →
  dict_keys items' = dict_keys items
  ∧ c' = set_total_hands_played (total_hands_played c') c
  ∧ total_hands_played c' = total_hands_played c + Z.of_nat (length items)
  ∧ Forall2 (λ it it', fst it = fst it' ∧ grown (snd it) (snd it')) items items'
  ∧ ∃ used, deck = deck' ++ used.
Proof.
  revert items' deck c. induction items as [|[k hand] items IH];
    intros items' deck c; simpl.
  - intros [= <- <- <-]. split; [reflexivity|]. split; [destruct c; reflexivity|].
    split; [lia|]. split; [constructor|]. exists []. rewrite app_nil_r. reflexivity.
  - destruct (player_action hand deck) as [[hand' d1]|e] eqn:E1; [|discriminate].
    simpl.
    destruct (players_act items d1 _) as [[[its d2] c2]|e] eqn:E2; [|discriminate].
    simpl. intros [= <- <- <-].
    apply IH in E2 as (Hk & Hc & Hn & Hall & (used & ->)).
    rewrite player_action_dealer_action in E1.
    apply dealer_action_Ok in E1 as (drawn & -> & -> & Hge & Hlt).
    split; [simpl; f_equal; exact Hk|].
    split; [rewrite Hc at 1; destruct c; reflexivity|].
    split; [rewrite Hn; simpl total_hands_played; lia|].
    split.
    + constructor; [|exact Hall]. simpl. split; [reflexivity|].
      exists drawn. auto.
    + exists (used ++ rev drawn). rewrite app_assoc. reflexivity.
Qed.

Lemma players_act_enough (items : dict (list Card)) (deck : list Card) (c : Casino) :
  Forall (λ it, length (snd it) = 2%nat ∧ cards_ge_2 (snd it)) items →
  cards_ge_2 deck →
  (7 * length items ≤ length deck)%nat →
  ∃ items' deck' c',
    players_act items deck c = Ok (items', deck', c')
    ∧ (length deck ≤ length deck' + 7 * length items)%nat
    ∧ Forall (λ it, (length (snd it) ≤ 9)%nat) items'.
Proof.
  intros Hall. revert deck c.
  induction Hall as [|[k hand] items [Hlen Hgood] _ IH]; intros deck c Hdeck Hn; simpl.
  - eexists _, _, _. split; [reflexivity|]. split; [lia|constructor].
  - simpl in Hlen, Hgood, Hn.
    destruct (dealer_action_enough hand deck Hgood Hdeck ltac:(lia))
      as (drawn & d1 & Heq & Hd & Hl).
    rewrite player_action_dealer_action, Heq. simpl.
    assert (Hd1 : cards_ge_2 d1).
    { unfold cards_ge_2 in *. rewrite Hd in Hdeck. apply Forall_app in Hdeck. tauto. }
    assert (Hdrawn : (length drawn ≤ 7)%nat).
    { rewrite length_app in Hl. lia. }
    assert (Hlen1 : (length deck = length d1 + length drawn)%nat).
    { rewrite Hd, length_app, length_rev. reflexivity. }
    destruct (IH d1 (set_total_hands_played (total_hands_played c + 1) c) Hd1
                ltac:(lia)) as (its & d2 & c2 & Heq2 & Hl2 & Hall2).
    rewrite Heq2. simpl. eexists _, _, _. split; [reflexivity|].
    split; [lia|]. constructor; [|exact Hall2]. simpl. lia.
Qed.

Section Phases.

Context {G : Type}.
Context (randint : Z → Z → G → Z * G).
Context (shuffle : list Card → G → list Card * G).

Lemma generate_bets_keys (seats : list Seat) (bets : dict Z) (g : G) (k : nat) :
  is_Some (dict_get k (fst (generate_bets randint seats bets g)))
  ↔ is_Some (dict_get k bets) ∨ k ∈ occupied_indices seats.
Proof.
  revert bets g. induction seats as [|seat seats IH]; intros bets g; simpl.
  - unfold occupied_indices. simpl. rewrite elem_of_nil. tauto.
  - rewrite occupied_indices_cons. destruct (player seat) as [p|].
    + destruct (randint 10 100 g) as [bet g1]. rewrite IH, elem_of_cons.
      destruct (decide (seat_index seat = k)) as [->|Hne].
      * rewrite dict_get_set_eq. split; [auto|]. intros _. left. eauto.
      * rewrite dict_get_set_ne by exact Hne. split.
        -- intros [?|?]; auto.
        -- intros [?|[?|?]]; auto. congruence.
    + apply IH.
Qed.

Lemma generate_bets_range (seats : list Seat) (bets : dict Z) (g : G) :
  randint_in_range randint →
  Forall (λ kv, 10 ≤ snd kv ≤ 100) bets →
  Forall (λ kv, 10 ≤ snd kv ≤ 100) (fst (generate_bets randint seats bets g)).
Proof.
  intros Hr. revert bets g. induction seats as [|seat seats IH]; intros bets g Hb; simpl.
  - exact Hb.
  - destruct (player seat) as [p|]; [|apply IH; exact Hb].
    pose proof (Hr 10 100 g ltac:(lia)) as Hbet.
    destruct (randint 10 100 g) as [bet g1]. apply IH.
    apply dict_set_Forall; [exact Hbet|exact Hb].
Qed.

(** The stages of a completed [play_round], laid out. *)
Lemma play_round_Ok (h : Heap) (c : Casino) (t : Table) (pool : list ref) (g : G)
    (rd : Round G) :
  play_round randint shuffle h c t pool g = Ok rd →
  ∃ deck g1 bets hands0 deck1 dealer0 deck2 hands1 deck3 c1 dealer deck4 h1 c2 rs,
    shuffle_deck shuffle (Deck_init 20) g = (deck, g1)
    ∧ generate_bets randint (seats_list t) [] g1 = (bets, rd_rng rd)
    ∧ deal_players (seats_list t) [] deck = Ok (hands0, deck1)
    ∧ draw_cards 2 deck1 = Ok (dealer0, deck2)
    ∧ players_act hands0 deck2 c = Ok (hands1, deck3, c1)
    ∧ dealer_action dealer0 deck3 = Ok (dealer, deck4)
    ∧ settle_hands t bets (hand_total dealer) hands1 (h, c1, []) = Ok (h1, c2, rs)
    ∧ rd_heap rd = decrement_rounds (seats_list t) h1
    ∧ rd_casino rd = snd (remove_finished_players (rd_heap rd) t c2)
    ∧ rd_table rd =
        (let t2 := fst (fill_empty_seats
                          (fst (remove_finished_players (rd_heap rd) t c2)) pool) in
         set_current_round_number (current_round_number t2 + 1) t2)
    ∧ rd_player_pool rd =
        snd (fill_empty_seats (fst (remove_finished_players (rd_heap rd) t c2)) pool)
    ∧ rd_event rd =
        mkEvent (table_id t) (current_round_number t) bets rs
                (seats_after (rd_heap rd) (seats_list (rd_table rd)))
                (casino_profit (rd_casino rd) - casino_profit c)
                hands1 dealer.
Proof.
  unfold play_round.
  destruct (shuffle_deck shuffle (Deck_init 20) g) as [deck g1] eqn:E0.
  destruct (generate_bets randint (seats_list t) [] g1) as [bets g2] eqn:E1.
  destruct (deal_players (seats_list t) [] deck) as [[hands0 deck1]|e] eqn:E2;
    [|discriminate]. cbn [mbind result_mbind result_bind].
  destruct (draw_cards 2 deck1) as [[dealer0 deck2]|e] eqn:E3; [|discriminate].
  cbn [mbind result_mbind result_bind].
  destruct (players_act hands0 deck2 c) as [[[hands1 deck3] c1]|e] eqn:E4;
    [|discriminate]. cbn [mbind result_mbind result_bind].
  destruct (dealer_action dealer0 deck3) as [[dealer deck4]|e] eqn:E5;
    [|discriminate]. cbn [mbind result_mbind result_bind].
  destruct (settle_hands t bets (hand_total dealer) hands1 (h, c1, []))
    as [[[h1 c2] rs]|e] eqn:E6; [|discriminate].
  cbn [mbind result_mbind result_bind].
  destruct (remove_finished_players (decrement_rounds (seats_list t) h1) t c2)
    as [t1 c3] eqn:E7.
  destruct (fill_empty_seats t1 pool) as [t2 pool1] eqn:E8.
  intros [= <-]. cbn [rd_heap rd_casino rd_table rd_player_pool rd_event rd_rng].
  exists deck, g1, bets, hands0, deck1, dealer0, deck2, hands1, deck3, c1,
    dealer, deck4, h1, c2, rs.
  rewrite E7. cbn [fst snd]. rewrite E8. cbn [fst snd].
  repeat (split; [first [assumption | reflexivity]|]). reflexivity.
Qed.

End Phases.

(** ** Turnover: eviction and refill *)

Lemma seated_cons (seat : Seat) (seats : list Seat) :
  seated (seat :: seats) =
    match player seat with
    | Some p => p :: seated seats
    | None => seated seats
    end.
Proof. unfold seated. simpl. destruct (player seat); reflexivity. Qed.

Arguments seated : simpl never.
Arguments empty_seats : simpl never.

Lemma empty_seats_cons (seat : Seat) (seats : list Seat) :
  empty_seats (seat :: seats) =
    match player seat with
    | Some _ => empty_seats seats
    | None => S (empty_seats seats)
    end.
Proof.
  unfold empty_seats. rewrite filter_cons.
  destruct (player seat); simpl.
  - destruct (decide (Some r = None)); [discriminate|reflexivity].
  - destruct (decide (@None ref = None)); [reflexivity|contradiction].
Qed.

Lemma Seat_eta (seat : Seat) : mkSeat (seat_index seat) (player seat) = seat.
Proof. destruct seat. reflexivity. Qed.

(** Eviction in closed form. *)
Lemma remove_finished_seats_spec (h : Heap) (seats : list Seat) (fin : list ref) :
  remove_finished_seats h seats fin
  = (map (evict_seat h) seats,
     fin ++ filter (λ p, finished (h p) = true) (seated seats)).
Proof.
  revert fin. induction seats as [|seat seats IH]; intros fin; simpl.
  - rewrite app_nil_r. reflexivity.
  - rewrite seated_cons. unfold evict_seat at 1.
    destruct (player seat) as [p|].
    + rewrite filter_cons. destruct (finished (h p)) eqn:E.
      * rewrite IH. destruct (decide (true = true)); [|contradiction].
        rewrite <- app_assoc. reflexivity.
      * rewrite IH. destruct (decide (false = true)); [discriminate|reflexivity].
    + rewrite IH. reflexivity.
Qed.

Lemma seated_evict (h : Heap) (seats : list Seat) :
  seated (map (evict_seat h) seats)
  = filter (λ p, ¬ finished (h p) = true) (seated seats).
Proof.
  induction seats as [|seat seats IH]; [reflexivity|].
  simpl map. rewrite !seated_cons. unfold evict_seat at 1.
  destruct (player seat) as [p|] eqn:Ep.
  - rewrite filter_cons. destruct (finished (h p)) eqn:E; simpl.
    + destruct (decide (¬ true = true)) as [Hn|_]; [exfalso; auto|exact IH].
    + rewrite Ep, IH.
      destruct (decide (¬ false = true)) as [_|Hn]; [reflexivity|].
      exfalso. apply Hn. discriminate.
  - rewrite Ep. exact IH.
Qed.

(** Eviction moves players, it neither drops nor copies them. *)
Lemma remove_finished_seats_perm (h : Heap) (seats : list Seat) (fin : list ref) :
  seated (fst (remove_finished_seats h seats fin))
    ++ snd (remove_finished_seats h seats fin)
  ≡ₚ seated seats ++ fin.
Proof.
  rewrite remove_finished_seats_spec. simpl. rewrite seated_evict.
  rewrite (Permutation_app_comm fin), app_assoc.
  apply Permutation_app_tail.
  rewrite Permutation_app_comm. apply filter_app_complement.
Qed.

(** Refill in closed form. *)
Lemma fill_seats_spec (seats : list Seat) (pool : list ref) :
  length (fst (fill_seats seats pool)) = length seats
  ∧ snd (fill_seats seats pool) = drop (empty_seats seats) pool
  ∧ ∀ i seat, seats !! i = Some seat →
      fst (fill_seats seats pool) !! i = Some (refill_seat seats pool i seat).
Proof.
  revert pool. induction seats as [|seat seats IH]; intros pool; simpl.
  - split; [reflexivity|]. split; [reflexivity|]. intros i seat H. discriminate H.
  - rewrite empty_seats_cons.
    destruct (player seat) as [p|] eqn:Ep.
    + destruct (IH pool) as (Hlen & Hpool & Hseats).
      destruct (fill_seats seats pool) as [rest' pool'] eqn:E. simpl in *.
      split; [lia|]. split; [exact Hpool|].
      intros [|i] s; simpl.
      * intros [= <-]. unfold refill_seat. rewrite Ep. reflexivity.
      * intros Hs. rewrite (Hseats i s Hs). unfold refill_seat.
        cbn [take firstn]. rewrite empty_seats_cons, Ep. reflexivity.
    + destruct pool as [|p pool].
      * destruct (IH []) as (Hlen & Hpool & Hseats).
        destruct (fill_seats seats []) as [rest' pool'] eqn:E. simpl in *.
        split; [lia|]. split; [rewrite Hpool, drop_nil; reflexivity|].
        intros [|i] s; simpl.
        -- intros [= <-]. unfold refill_seat. rewrite Ep. simpl.
           rewrite <- Ep. symmetry. f_equal. apply Seat_eta.
        -- intros Hs. rewrite (Hseats i s Hs). unfold refill_seat.
           destruct (player s); [reflexivity|]. rewrite !lookup_nil. reflexivity.
      * destruct (IH pool) as (Hlen & Hpool & Hseats).
        destruct (fill_seats seats pool) as [rest' pool'] eqn:E. simpl in *.
        split; [lia|]. split; [exact Hpool|].
        intros [|i] s; simpl.
        -- intros [= <-]. unfold refill_seat. rewrite Ep. reflexivity.
        -- intros Hs. rewrite (Hseats i s Hs). unfold refill_seat.
           cbn [take firstn]. rewrite empty_seats_cons, Ep. reflexivity.
Qed.

(** Refill moves players from the pool to seats, nothing else. *)
Lemma fill_seats_perm (seats : list Seat) (pool : list ref) :
  seated (fst (fill_seats seats pool)) ++ snd (fill_seats seats pool)
  ≡ₚ seated seats ++ pool.
Proof.
  revert pool. induction seats as [|seat seats IH]; intros pool; simpl.
  - reflexivity.
  - destruct (player seat) as [p|] eqn:Ep.
    + specialize (IH pool). destruct (fill_seats seats pool) as [rest' pool'].
      simpl in *. rewrite !seated_cons, Ep. simpl. rewrite IH. reflexivity.
    + destruct pool as [|p pool].
      * specialize (IH []). destruct (fill_seats seats []) as [rest' pool'].
        simpl in *. rewrite !seated_cons, Ep. exact IH.
      * specialize (IH pool). destruct (fill_seats seats pool) as [rest' pool'].
        simpl in *. rewrite !seated_cons, Ep. simpl. rewrite IH.
        apply Permutation_middle.
Qed.

(** The seats keep their recorded indices through both steps. *)
Lemma evict_seat_index (h : Heap) (seat : Seat) :
  seat_index (evict_seat h seat) = seat_index seat.
Proof.
  unfold evict_seat. destruct (player seat); [|reflexivity].
  destruct (finished (h r)); reflexivity.
Qed.

Lemma refill_seat_index (seats : list Seat) (pool : list ref) (i : nat) (seat : Seat) :
  seat_index (refill_seat seats pool i seat) = seat_index seat.
Proof. unfold refill_seat. destruct (player seat); reflexivity. Qed.

(** "Decrease rounds left for active players": every object loses one
    round per seat that holds it, and nothing else changes. *)
Lemma decrement_rounds_spec (seats : list Seat) (h : Heap) (r : ref) :
  decrement_rounds seats h r
  = set_rounds_left (rounds_left (h r) - Z.of_nat (seats_held r seats)) (h r).
Proof.
  unfold decrement_rounds, seats_held. revert h.
  induction seats as [|seat seats IH]; intros h; simpl.
  - change (seated []) with (@nil ref). simpl. rewrite Z.sub_0_r.
    destruct (h r). reflexivity.
  - rewrite IH, seated_cons. destruct (player seat) as [p|]; [|reflexivity].
    rewrite filter_cons. unfold heap_upd.
    destruct (decide (r = p)) as [->|Hne].
    + destruct (decide (p = p)); [|contradiction].
      simpl length. unfold set_rounds_left. simpl. f_equal. lia.
    + destruct (decide (p = r)); [congruence|reflexivity].
Qed.

(** ** Sample data facts *)

Lemma counting_randint_in_range : randint_in_range counting_randint.
Proof.
  intros lo hi g Hle. unfold counting_randint. simpl.
  pose proof (Z.mod_pos_bound (Z.of_nat g) (hi - lo + 1) ltac:(lia)). lia.
Qed.

Lemma reversing_shuffle_permutes : shuffle_permutes reversing_shuffle.
Proof. intros deck g. simpl. symmetry. apply Permutation_rev. Qed.

Lemma sample_table_wf : Table_wf sample_table.
Proof.
  intros i seat. unfold sample_table. simpl.
  destruct i as [|[|[|i]]]; simpl; intros [= <-]; reflexivity.
Qed.

(** ** Turnover claims *)

Section TurnoverClaims.

Context {G : Type}.
Context (randint : Z → Z → G → Z * G).
Context (shuffle : list Card → G → list Card * G).

(** C5. Turnover of a completed round, evaluated on the store the
    round leaves behind (settled, and one round taken off per seat
    held): exactly the seated players with [money_left < 100] or
    [rounds_left <= 0] are appended to the finished players, in seat
    order, and their seats vacated; then the n-th empty seat receives
    the n-th waiting player, as far as the pool reaches, and the pool
    loses exactly those players from its front.  In particular a
    seated player whose balance is negative ends up among the finished
    players and their seat is vacated, whatever rounds remain. *)
Theorem turnover_evicts_and_refills (h : Heap) (c : Casino) (t : Table)
    (pool : list ref) (g : G) (rd : Round G) :
  play_round randint shuffle h c t pool g = Ok rd →
  let h' := rd_heap rd in
  let vacated := map (evict_seat h') (seats_list t) in
  (∀ p, rounds_left (h' p)
        = rounds_left (h p) - Z.of_nat (seats_held p (seats_list t)))
  ∧ (∀ seat, evict_seat h' seat =
       match player seat with
       | Some p =>
           if (money_left (h' p) <? 100) || (rounds_left (h' p) <=? 0)
           then mkSeat (seat_index seat) None else seat
       | None => seat
       end)
  ∧ finished_players (rd_casino rd)
    = finished_players c
      ++ filter (λ p, finished (h' p) = true) (seated (seats_list t))
  ∧ seated vacated
    = filter (λ p, ¬ finished (h' p) = true) (seated (seats_list t))
  ∧ length (seats_list (rd_table rd)) = length (seats_list t)
  ∧ (∀ i seat, vacated !! i = Some seat →
       seats_list (rd_table rd) !! i = Some (refill_seat vacated pool i seat))
  ∧ rd_player_pool rd = drop (empty_seats vacated) pool
  ∧ (∀ i seat p, seats_list t !! i = Some seat → player seat = Some p →
       money_left (h' p) < 0 →
       p ∈ finished_players (rd_casino rd)
       ∧ vacated !! i = Some (mkSeat (seat_index seat) None)).
Proof.
  intros Hrd h' vacated.
  destruct (play_round_Ok _ _ _ _ _ _ _ _ Hrd)
    as (deck & g1 & bets & hands0 & deck1 & dealer0 & deck2 & hands1 & deck3
      & c1 & dealer & deck4 & h1 & c2 & rs & _ & _ & _ & _ & Hact & _
      & Hsettle & Hheap & Hcasino & Htable & Hpool & _).
  apply settle_hands_Ok in Hsettle as (_ & Hh1 & Hc2 & _ & _).
  apply players_act_Ok in Hact as (_ & Hc1 & _ & _ & _).
  fold h' in Hcasino, Htable, Hpool.
  unfold remove_finished_players in Hcasino, Htable, Hpool.
  rewrite remove_finished_seats_spec in Hcasino, Htable, Hpool.
  cbn [fst snd] in Hcasino, Htable, Hpool. fold vacated in Htable, Hpool.
  unfold fill_empty_seats in Htable, Hpool. cbn [seats_list set_seats_list] in *.
  destruct (fill_seats_spec vacated pool) as (Hlen & Hdrop & Hfill).
  destruct (fill_seats vacated pool) as [seats' pool'] eqn:Efill.
  cbn [fst snd] in *.
  split.
  { intros p. unfold h'. rewrite Hheap, decrement_rounds_spec. simpl.
    rewrite Hh1, settle_item_rounds_left. reflexivity. }
  split; [reflexivity|].
  split.
  { rewrite Hcasino. simpl. rewrite Hc2, Hc1. reflexivity. }
  split; [apply seated_evict|].
  split.
  { rewrite Htable. simpl. rewrite Hlen. unfold vacated. apply length_map. }
  split.
  { intros i seat Hs. rewrite Htable. simpl. apply Hfill. exact Hs. }
  split; [rewrite Hpool; exact Hdrop|].
  intros i seat p Hs Hp Hneg.
  assert (Hfin : finished (h' p) = true).
  { unfold finished. apply orb_true_iff. left. lia. }
  split.
  - rewrite Hcasino. simpl. apply elem_of_app. right.
    apply list_elem_of_filter. split; [exact Hfin|].
    unfold seated. apply list_elem_of_omap. exists seat.
    split; [|exact Hp]. eapply list_elem_of_lookup_2. exact Hs.
  - unfold vacated. rewrite list_lookup_fmap, Hs. simpl.
    unfold evict_seat. rewrite Hp, Hfin. reflexivity.
Qed.

(** Eviction, refill, and a whole round move players between owners
    without dropping or copying any. *)
Lemma remove_finished_players_perm (h0 : Heap) (t0 : Table) (c0 : Casino) :
  seated (seats_list (fst (remove_finished_players h0 t0 c0)))
  ++ finished_players (snd (remove_finished_players h0 t0 c0))
  ≡ₚ seated (seats_list t0) ++ finished_players c0.
Proof.
  unfold remove_finished_players.
  pose proof (remove_finished_seats_perm h0 (seats_list t0) (finished_players c0)) as H.
  destruct (remove_finished_seats h0 (seats_list t0) (finished_players c0)).
  exact H.
Qed.

Lemma fill_empty_seats_perm (t0 : Table) (pool0 : list ref) :
  seated (seats_list (fst (fill_empty_seats t0 pool0)))
  ++ snd (fill_empty_seats t0 pool0)
  ≡ₚ seated (seats_list t0) ++ pool0.
Proof.
  unfold fill_empty_seats.
  pose proof (fill_seats_perm (seats_list t0) pool0) as H.
  destruct (fill_seats (seats_list t0) pool0). exact H.
Qed.

Lemma play_round_owners_perm (h : Heap) (c : Casino) (t : Table)
    (pool : list ref) (g : G) (rd : Round G) :
  play_round randint shuffle h c t pool g = Ok rd →
  seated (seats_list (rd_table rd)) ++ rd_player_pool rd
    ++ finished_players (rd_casino rd)
  ≡ₚ seated (seats_list t) ++ pool ++ finished_players c.
Proof.
  intros Hrd.
  destruct (play_round_Ok _ _ _ _ _ _ _ _ Hrd)
    as (deck & g1 & bets & hands0 & deck1 & dealer0 & deck2 & hands1 & deck3
      & c1 & dealer & deck4 & h1 & c2 & rs & _ & _ & _ & _ & Hact & _
      & Hsettle & _ & Hcasino & Htable & Hpool & _).
  apply settle_hands_Ok in Hsettle as (_ & _ & Hc2 & _ & _).
  apply players_act_Ok in Hact as (_ & Hc1 & _ & _ & _).
  rewrite Htable, Hpool, Hcasino. cbn [seats_list set_current_round_number].
  rewrite app_assoc, fill_empty_seats_perm.
  rewrite <- app_assoc, (Permutation_app_comm pool), app_assoc,
    remove_finished_players_perm.
  replace (finished_players c2) with (finished_players c)
    by (rewrite Hc2, Hc1; reflexivity).
  rewrite <- app_assoc. apply Permutation_app_head. apply Permutation_app_comm.
Qed.

(** A round leaves the casino's list of tables as it is. *)
Lemma play_round_tables (h : Heap) (c : Casino) (t : Table)
    (pool : list ref) (g : G) (rd : Round G) :
  play_round randint shuffle h c t pool g = Ok rd →
  tables (rd_casino rd) = tables c.
Proof.
  intros Hrd.
  destruct (play_round_Ok _ _ _ _ _ _ _ _ Hrd)
    as (deck & g1 & bets & hands0 & deck1 & dealer0 & deck2 & hands1 & deck3
      & c1 & dealer & deck4 & h1 & c2 & rs & _ & _ & _ & _ & Hact & _
      & Hsettle & _ & Hcasino & _).
  apply settle_hands_Ok in Hsettle as (_ & _ & Hc2 & _ & _).
  apply players_act_Ok in Hact as (_ & Hc1 & _ & _ & _).
  rewrite Hcasino. unfold remove_finished_players.
  destruct (remove_finished_seats _ _ _). cbn [snd]. rewrite Hc2, Hc1. reflexivity.
Qed.

(** C9. [remove_finished_players] and [fill_empty_seats] each move
    players between their owners without dropping or copying any,
    so over a completed round the seats, the waiting pool and the
    finished pool together hold the same players as before; if no
    player was held twice before the call, none is after it. *)
Theorem exclusive_ownership_preserved (h : Heap) (c : Casino) (t : Table)
    (pool : list ref) (g : G) (rd : Round G) :
  play_round randint shuffle h c t pool g = Ok rd →
  NoDup (seated (seats_list t) ++ pool ++ finished_players c) →
  NoDup (seated (seats_list (rd_table rd)) ++ rd_player_pool rd
         ++ finished_players (rd_casino rd))
  ∧ seated (seats_list (rd_table rd)) ++ rd_player_pool rd
      ++ finished_players (rd_casino rd)
    ≡ₚ seated (seats_list t) ++ pool ++ finished_players c
  ∧ (∀ h0 t0 c0,
       seated (seats_list (fst (remove_finished_players h0 t0 c0)))
         ++ finished_players (snd (remove_finished_players h0 t0 c0))
       ≡ₚ seated (seats_list t0) ++ finished_players c0)
  ∧ (∀ t0 pool0,
       seated (seats_list (fst (fill_empty_seats t0 pool0)))
         ++ snd (fill_empty_seats t0 pool0)
       ≡ₚ seated (seats_list t0) ++ pool0).
Proof.
  intros Hrd Hnd.
  pose proof (play_round_owners_perm h c t pool g rd Hrd) as Hperm.
  split; [rewrite Hperm; exact Hnd|]. split; [exact Hperm|].
  split; [apply remove_finished_players_perm|apply fill_empty_seats_perm].
Qed.

End TurnoverClaims.

(** ** The shoe is large enough *)

Section ShoeEnough.

Context {G : Type}.
Context (randint : Z → Z → G → Z * G).
Context (shuffle : list Card → G → list Card * G).

Lemma Deck_init_ge_2 (N : Z) : cards_ge_2 (Deck_init N).
Proof.
  apply Forall_forall. intros [[rank suit] value] Hin.
  apply Deck_init_cards in Hin as [Hc _]. simpl in Hc.
  apply CARD_LIST_values in Hc. unfold card_value. simpl. lia.
Qed.

Lemma shuffle_deck_permutes (deck : list Card) (g : G) :
  shuffle_permutes shuffle → fst (shuffle_deck shuffle deck g) ≡ₚ deck.
Proof.
  intros Hs. unfold shuffle_deck.
  pose proof (Hs deck g) as H1. destruct (shuffle deck g) as [d1 g1].
  pose proof (Hs d1 g1) as H2. destruct (shuffle d1 g1) as [d2 g2].
  pose proof (Hs d2 g2) as H3. simpl in *. rewrite H3, H2, H1. reflexivity.
Qed.

(** With at most 114 occupied seats every draw of the round finds a
    card: the four drawing stages complete, no hand exceeds 9 cards,
    and at least [1040 - 9 * (occupied + 1)] cards are left. *)
Lemma drawing_stages_complete (c : Casino) (t : Table) (g : G) :
  shuffle_permutes shuffle →
  (occupied (seats_list t) ≤ 114)%nat →
  ∃ hands0 deck1 dealer0 deck2 hands1 deck3 c1 dealer deck4,
    deal_players (seats_list t) [] (fst (shuffle_deck shuffle (Deck_init 20) g))
    = Ok (hands0, deck1)
    ∧ draw_cards 2 deck1 = Ok (dealer0, deck2)
    ∧ players_act hands0 deck2 c = Ok (hands1, deck3, c1)
    ∧ dealer_action dealer0 deck3 = Ok (dealer, deck4)
    ∧ Forall (λ it, (length (snd it) ≤ 9)%nat) hands1
    ∧ (length hands1 ≤ occupied (seats_list t))%nat
    ∧ (length dealer ≤ 9)%nat
    ∧ (1040 ≤ length deck4 + 9 * (occupied (seats_list t) + 1))%nat.
Proof.
  intros Hs Hocc.
  pose proof (shuffle_deck_permutes (Deck_init 20) g Hs) as Hperm.
  set (deck := fst (shuffle_deck shuffle (Deck_init 20) g)) in *.
  assert (Hlen : length deck = 1040%nat).
  { rewrite Hperm. rewrite Deck_init_length. reflexivity. }
  assert (Hgood : cards_ge_2 deck).
  { unfold cards_ge_2. rewrite Hperm. apply Deck_init_ge_2. }
  (* dealing to the seats *)
  destruct (deal_players_total (seats_list t) [] deck ltac:(lia))
    as [[hands0 deck1] Hdeal].
  pose proof (deal_players_Ok _ _ _ _ _ Hdeal)
    as (_ & (dealt & Hdeck & Hdealt) & HP & Hcount & _).
  specialize (HP _ Hgood ltac:(constructor)). simpl in Hcount.
  assert (Hgood1 : cards_ge_2 deck1).
  { unfold cards_ge_2 in *. rewrite Hdeck in Hgood. apply Forall_app in Hgood. tauto. }
  assert (Hlen1 : (length deck1 + 2 * occupied (seats_list t) = 1040)%nat).
  { rewrite <- Hlen, Hdeck, length_app. lia. }
  (* dealing to the dealer *)
  pose proof (draw_cards_enough 2 deck1 ltac:(lia)) as Hdraw.
  set (dealer0 := rev (drop (length deck1 - 2) deck1)) in *.
  set (deck2 := take (length deck1 - 2) deck1) in *.
  assert (Hsplit : deck1 = deck2 ++ rev dealer0).
  { unfold deck2, dealer0. rewrite rev_involutive, take_drop. reflexivity. }
  assert (Hdealer0 : length dealer0 = 2%nat).
  { unfold dealer0. rewrite length_rev, length_drop. lia. }
  assert (Hlen2 : (length deck2 + 2 = length deck1)%nat).
  { unfold deck2. rewrite length_take. lia. }
  assert (Hgood2 : cards_ge_2 deck2 ∧ cards_ge_2 dealer0).
  { unfold cards_ge_2 in *. rewrite Hsplit in Hgood1.
    apply Forall_app in Hgood1 as [H1 H2]. split; [exact H1|].
    apply Forall_rev in H2. rewrite rev_involutive in H2. exact H2. }
  destruct Hgood2 as [Hgood2 Hgood0].
  (* the players' turns *)
  destruct (players_act_enough hands0 deck2 c HP Hgood2 ltac:(lia))
    as (hands1 & deck3 & c1 & Hact & Hlen3 & Hnine).
  pose proof (players_act_Ok _ _ _ _ _ _ Hact) as (Hkeys & _ & _ & _ & (used & Hused)).
  assert (Hcount1 : length hands1 = length hands0).
  { unfold dict_keys in Hkeys. apply (f_equal length) in Hkeys.
    rewrite !length_map in Hkeys. exact Hkeys. }
  assert (Hgood3 : cards_ge_2 deck3).
  { unfold cards_ge_2 in *. rewrite Hused in Hgood2. apply Forall_app in Hgood2. tauto. }
  (* the dealer's turn *)
  destruct (dealer_action_enough dealer0 deck3 Hgood0 Hgood3 ltac:(lia))
    as (drawn & deck4 & Hdealer & Hdeck3 & Hl).
  exists hands0, deck1, dealer0, deck2, hands1, deck3, c1, (dealer0 ++ drawn), deck4.
  split; [exact Hdeal|]. split; [exact Hdraw|]. split; [exact Hact|].
  split; [exact Hdealer|]. split; [exact Hnine|]. split; [lia|].
  split; [lia|].
  rewrite length_app in Hl. apply (f_equal length) in Hdeck3.
  rewrite length_app, length_rev in Hdeck3. lia.
Qed.

(** Every key of the dealt hands finds its seat, player and bet in a
    well-formed table. *)
Lemma wf_items_found (t : Table) (g1 : G) (hands0 hands1 : dict (list Card))
    (deck deck1 : list Card) :
  Table_wf t →
  deal_players (seats_list t) [] deck = Ok (hands0, deck1) →
  dict_keys hands1 = dict_keys hands0 →
  Forall (λ item,
            is_Some (seat_player t (fst item))
            ∧ is_Some (dict_get (fst item)
                         (fst (generate_bets randint (seats_list t) [] g1))))
         hands1.
Proof.
  intros Hwf Hdeal Hkeys.
  apply deal_players_Ok in Hdeal as (Hk & _).
  destruct (wf_occupied_indices t Hwf) as [_ Hocc].
  apply Forall_forall. intros [k hand] Hin. simpl.
  assert (Hkin : k ∈ occupied_indices (seats_list t)).
  { apply (list_elem_of_fmap_2 fst) in Hin. simpl in Hin.
    change (fst <$> hands1) with (dict_keys hands1) in Hin.
    rewrite Hkeys in Hin. apply Hk in Hin as [Hin|Hin]; [inversion Hin|exact Hin]. }
  split; [apply Hocc; exact Hkin|].
  apply generate_bets_keys. right. exact Hkin.
Qed.

(** With at most 114 occupied seats the round reaches settlement, and
    from there on only a failed lookup of the settlement loop can
    stop it. *)
Lemma play_round_after_drawing (h : Heap) (c : Casino) (t : Table)
    (pool : list ref) (g : G) :
  shuffle_permutes shuffle →
  (occupied (seats_list t) ≤ 114)%nat →
  ∃ bets hands1 dealer c1,
    Forall (λ it, (length (snd it) ≤ 9)%nat) hands1
    ∧ (length hands1 ≤ occupied (seats_list t))%nat
    ∧ (length dealer ≤ 9)%nat
    ∧ (Table_wf t →
       Forall (λ item, is_Some (seat_player t (fst item))
                       ∧ is_Some (dict_get (fst item) bets)) hands1)
    ∧ (∀ e, settle_hands t bets (hand_total dealer) hands1 (h, c1, []) = Raise e →
            play_round randint shuffle h c t pool g = Raise e)
    ∧ (∀ st, settle_hands t bets (hand_total dealer) hands1 (h, c1, []) = Ok st →
             ∃ rd, play_round randint shuffle h c t pool g = Ok rd
                   ∧ ev_hands (rd_event rd) = hands1
                   ∧ ev_dealer_hand (rd_event rd) = dealer).
Proof.
  intros Hs Hocc.
  destruct (drawing_stages_complete c t g Hs Hocc)
    as (hands0 & deck1 & dealer0 & deck2 & hands1 & deck3 & c1 & dealer & deck4
      & Hdeal & Hdraw & Hact & Hdealer & Hnine & Hcount & Hdl & Hleft).
  exists (fst (generate_bets randint (seats_list t) []
        (snd (shuffle_deck shuffle (Deck_init 20) g)))),
    hands1, dealer, c1.
  split; [exact Hnine|]. split; [exact Hcount|]. split; [exact Hdl|].
  split.
  { intros Hwf. pose proof (players_act_Ok _ _ _ _ _ _ Hact) as (Hkeys & _).
    exact (wf_items_found t _ hands0 hands1 _ _ Hwf Hdeal Hkeys). }
  unfold play_round.
  destruct (shuffle_deck shuffle (Deck_init 20) g) as [deck g1]. cbn [fst snd] in *.
  destruct (generate_bets randint (seats_list t) [] g1) as [bets g2]. cbn [fst snd].
  rewrite Hdeal. cbn [mbind result_mbind result_bind].
  rewrite Hdraw. cbn [mbind result_mbind result_bind].
  rewrite Hact. cbn [mbind result_mbind result_bind].
  rewrite Hdealer. cbn [mbind result_mbind result_bind].
  split.
  - intros e ->. reflexivity.
  - intros [[h1 c2] rs] ->. cbn [mbind result_mbind result_bind].
    destruct (remove_finished_players (decrement_rounds (seats_list t) h1) t c2)
      as [t1 c3].
    destruct (fill_empty_seats t1 pool) as [t2 pool1].
    eexists. split; [reflexivity|]. split; reflexivity.
Qed.

(** A round at a well-formed table with at most 114 occupied seats
    completes. *)
Lemma play_round_completes (h : Heap) (c : Casino) (t : Table)
    (pool : list ref) (g : G) :
  shuffle_permutes shuffle →
  (occupied (seats_list t) ≤ 114)%nat →
  Table_wf t →
  is_Ok (play_round randint shuffle h c t pool g).
Proof.
  intros Hs Hocc Hwf.
  destruct (play_round_after_drawing h c t pool g Hs Hocc)
    as (bets & hands1 & dealer & c1 & _ & _ & _ & Hfound & _ & Hok).
  destruct (settle_hands_total t bets (hand_total dealer) hands1 (h, c1, [])
      (Hfound Hwf)) as [st E].
  destruct (Hok st E) as (rd & Hrd & _). exists rd. exact Hrd.
Qed.

End ShoeEnough.

(** ** Claims about the hit loops and the shoe *)

Section HandClaims.

Context {G : Type}.
Context (randint : Z → Z → G → Z * G).
Context (shuffle : list Card → G → list Card * G).


(** C10. The fresh shoe holds 1040 cards worth at least 2 each.  At a
    table with at most 114 occupied seats no draw of the round finds
    the shoe empty; a well-formed table completes the round; and in a
    completed round no hand, the dealer's included, has more than 9
    cards, so at most 9 × (occupied + 1) ≤ 1040 cards are in play. *)
Theorem shoe_never_exhausted (h : Heap) (c : Casino) (t : Table)
    (pool : list ref) (g : G) :
  shuffle_permutes shuffle →
  (occupied (seats_list t) ≤ 114)%nat →
  (length (Deck_init 20) = 1040%nat
   ∧ ∀ card, card ∈ Deck_init 20 → 2 ≤ card_value card)
  ∧ play_round randint shuffle h c t pool g ≠ Raise IndexError_pop_from_empty_list
  ∧ (Table_wf t → is_Ok (play_round randint shuffle h c t pool g))
  ∧ (∀ rd, play_round randint shuffle h c t pool g = Ok rd →
       Forall (λ it, (length (snd it) ≤ 9)%nat) (ev_hands (rd_event rd))
       ∧ (length (ev_dealer_hand (rd_event rd)) ≤ 9)%nat
       ∧ (sum_list (map (λ it, length (snd it)) (ev_hands (rd_event rd)))
          + length (ev_dealer_hand (rd_event rd))
          ≤ 9 * (occupied (seats_list t) + 1))%nat
       ∧ (9 * (occupied (seats_list t) + 1) ≤ 1040)%nat).
Proof.
  intros Hs Hocc.
  split.
  { split; [rewrite Deck_init_length; reflexivity|].
    intros card Hin. pose proof (Deck_init_ge_2 20) as H.
    unfold cards_ge_2 in H. rewrite Forall_forall in H. auto. }
  destruct (play_round_after_drawing randint shuffle h c t pool g Hs Hocc)
    as (bets & hands1 & dealer & c1 & Hnine & Hcount & Hdl & _ & Hraise & Hok).
  split.
  { intros H.
    destruct (settle_hands t bets (hand_total dealer) hands1 (h, c1, []))
      as [st|e] eqn:E.
    - destruct (Hok st eq_refl) as (rd & Hrd & _). congruence.
    - rewrite (Hraise e eq_refl) in H. injection H as ->.
      eapply settle_hands_no_pop. exact E. }
  split; [apply play_round_completes; assumption|].
  intros rd Hrd.
  destruct (settle_hands t bets (hand_total dealer) hands1 (h, c1, []))
    as [st|e] eqn:E.
  - destruct (Hok st eq_refl) as (rd' & Hrd' & Hh & Hd).
    assert (rd' = rd) as -> by congruence. rewrite Hh, Hd.
    split; [exact Hnine|]. split; [exact Hdl|]. split; [|lia].
    assert (Hsum : (sum_list (map (λ it : nat * list Card, length (snd it)) hands1)
          ≤ 9 * length hands1)%nat).
    { clear - Hnine. induction Hnine as [|it l Hit _ IH]; simpl; lia. }
    nia.
  - rewrite (Hraise e eq_refl) in Hrd. discriminate Hrd.
Qed.

End HandClaims.

(** ** The sample round *)

Lemma sample_table_occupied : (occupied (seats_list sample_table) ≤ 114)%nat.
Proof. vm_compute. lia. Qed.

Lemma sample_round_Ok :
  is_Ok (play_round counting_randint reversing_shuffle sample_heap sample_casino
                    sample_table [3; 4]%nat 0%nat).
Proof.
  apply play_round_completes.
  - exact reversing_shuffle_permutes.
  - exact sample_table_occupied.
  - exact sample_table_wf.
Qed.

Lemma sample_ownership :
  NoDup (seated (seats_list sample_table) ++ [3; 4]%nat
         ++ finished_players sample_casino).
Proof. apply (bool_decide_unpack _). vm_compute. exact I. Qed.

Lemma exclusive_ownership_preserved_witness :
  ∃ rd,
    play_round counting_randint reversing_shuffle sample_heap sample_casino
               sample_table [3; 4]%nat 0%nat = Ok rd
    ∧ NoDup (seated (seats_list sample_table) ++ [3; 4]%nat
             ++ finished_players sample_casino)
    ∧ NoDup (seated (seats_list (rd_table rd)) ++ rd_player_pool rd
             ++ finished_players (rd_casino rd)).
Proof.
  destruct sample_round_Ok as [rd E]. exists rd.
  split; [exact E|]. split; [exact sample_ownership|].
  apply (exclusive_ownership_preserved _ _ _ _ _ _ _ _ E sample_ownership).
Defined.

Lemma turnover_evicts_and_refills_witness :
  ∃ rd,
    play_round counting_randint reversing_shuffle sample_heap sample_casino
               sample_table [3; 4]%nat 0%nat = Ok rd
    ∧ rd_player_pool rd
      = drop (empty_seats (map (evict_seat (rd_heap rd)) (seats_list sample_table)))
             [3; 4]%nat.
Proof.
  destruct sample_round_Ok as [rd E]. exists rd. split; [exact E|].
  apply (turnover_evicts_and_refills _ _ _ _ _ _ _ _ E).
Defined.


Lemma shoe_never_exhausted_witness :
  shuffle_permutes reversing_shuffle
  ∧ (occupied (seats_list sample_table) ≤ 114)%nat
  ∧ play_round counting_randint reversing_shuffle sample_heap sample_casino
               sample_table [3; 4]%nat 0%nat
    ≠ Raise IndexError_pop_from_empty_list.
Proof.
  split; [exact reversing_shuffle_permutes|].
  split; [exact sample_table_occupied|].
  apply (shoe_never_exhausted counting_randint reversing_shuffle sample_heap
           sample_casino sample_table [3; 4]%nat 0%nat
           reversing_shuffle_permutes sample_table_occupied).
Defined.

(** ** Settlement, seat by seat *)

Lemma seat_player_seated (t : Table) (k : nat) (p : ref) :
  seat_player t k = Some p → p ∈ seated (seats_list t).
Proof.
  unfold seat_player, seated.
  destruct (seats_list t !! k) as [seat|] eqn:E; simpl; [|discriminate].
  intros Hp. apply list_elem_of_omap. exists seat.
  split; [eapply list_elem_of_lookup_2; exact E|exact Hp].
Qed.

(** When no player sits twice, a player identifies the seat. *)
Lemma seated_lookup_inj (seats : list Seat) (i k : nat) (a b : Seat) (p : ref) :
  NoDup (seated seats) →
  seats !! i = Some a → seats !! k = Some b →
  player a = Some p → player b = Some p → i = k.
Proof.
  revert i k. induction seats as [|s seats IH]; intros i k Hnd Hi Hk Ha Hb;
    [discriminate|].
  rewrite seated_cons in Hnd.
  assert (Hin : ∀ j x, seats !! j = Some x → player x = Some p → p ∈ seated seats).
  { intros j x Hj Hx. unfold seated. apply list_elem_of_omap. exists x.
    split; [eapply list_elem_of_lookup_2; exact Hj|exact Hx]. }
  destruct i as [|i], k as [|k]; simpl in Hi, Hk.
  - reflexivity.
  - injection Hi as ->. rewrite Ha in Hnd. apply NoDup_cons in Hnd as [Hn _].
    exfalso. apply Hn. eapply Hin; eassumption.
  - injection Hk as ->. rewrite Hb in Hnd. apply NoDup_cons in Hnd as [Hn _].
    exfalso. apply Hn. eapply Hin; eassumption.
  - f_equal. apply IH; try assumption.
    destruct (player s); [apply NoDup_cons in Hnd; tauto|exact Hnd].
Qed.

Lemma seat_player_inj (t : Table) (i k : nat) (p : ref) :
  NoDup (seated (seats_list t)) →
  seat_player t i = Some p → seat_player t k = Some p → i = k.
Proof.
  unfold seat_player. intros Hnd Hi Hk.
  destruct (seats_list t !! i) as [a|] eqn:Ea; [|discriminate].
  destruct (seats_list t !! k) as [b|] eqn:Eb; [|discriminate].
  simpl in Hi, Hk. eapply seated_lookup_inj; eassumption.
Qed.

Lemma seats_held_one (p : ref) (seats : list Seat) :
  NoDup (seated seats) → p ∈ seated seats → seats_held p seats = 1%nat.
Proof.
  unfold seats_held. generalize (seated seats). intros l.
  induction l as [|q l IH]; intros Hnd Hin; [inversion Hin|].
  apply NoDup_cons in Hnd as [Hq Hnd]. rewrite filter_cons.
  destruct (decide (q = p)) as [->|Hne].
  - simpl. f_equal.
    assert (Hnone : ∀ l', p ∉ l' → filter (λ q, q = p) l' = []).
    { intros l'. induction l' as [|x l' IH']; intros Hx; [reflexivity|].
      apply not_elem_of_cons in Hx as [Hxp Hx]. rewrite filter_cons.
      destruct (decide (x = p)); [congruence|auto]. }
    rewrite (Hnone l Hq). reflexivity.
  - apply elem_of_cons in Hin as [->|Hin]; [contradiction|auto].
Qed.

Lemma seats_held_none (p : ref) (seats : list Seat) :
  p ∉ seated seats → seats_held p seats = 0%nat.
Proof.
  unfold seats_held. generalize (seated seats). intros l.
  induction l as [|q l IH]; intros Hin; [reflexivity|].
  apply not_elem_of_cons in Hin as [Hne Hin]. rewrite filter_cons.
  destruct (decide (q = p)); [congruence|auto].
Qed.

(** Settling the items of other seats leaves the object alone. *)
Lemma fold_settle_item_other (t : Table) (bets : dict Z) (dt : Z) (p : ref)
    (items : dict (list Card)) (q : Player) :
  (∀ k, k ∈ dict_keys items → seat_player t k ≠ Some p) →
  fold_left (settle_item t bets dt p) items q = q.
Proof.
  revert q. induction items as [|[k hand] items IH]; intros q Hk; simpl; [reflexivity|].
  rewrite IH.
  - unfold settle_item. simpl.
    destruct (seat_player t k) as [p'|] eqn:E; [|reflexivity].
    destruct (dict_get k bets); [|reflexivity].
    destruct (decide (p = p')) as [->|]; [|reflexivity].
    exfalso. apply (Hk k); [left|exact E].
  - intros k' Hin. apply Hk. right. exact Hin.
Qed.

(** A player seated once is settled once, by the item of their seat. *)
Lemma fold_settle_item_single (t : Table) (bets : dict Z) (dt : Z) (p : ref)
    (items : dict (list Card)) (i : nat) (hand : list Card) (bet : Z) (q : Player) :
  NoDup (dict_keys items) →
  (i, hand) ∈ items →
  seat_player t i = Some p →
  dict_get i bets = Some bet →
  (∀ k, k ∈ dict_keys items → seat_player t k = Some p → k = i) →
  fold_left (settle_item t bets dt p) items q
  = settle_player (hand_total hand) dt bet q.
Proof.
  intros Hnd Hin Hp Hb Honly. revert q Hnd Hin Honly.
  induction items as [|[k hd] items IH]; intros q Hnd Hin Honly; [inversion Hin|].
  simpl in Hnd. apply NoDup_cons in Hnd as [Hk Hnd]. simpl.
  apply elem_of_cons in Hin as [[= <- <-]|Hin].
  - rewrite fold_settle_item_other.
    + unfold settle_item. simpl. rewrite Hp, Hb.
      destruct (decide (p = p)); [reflexivity|contradiction].
    + intros k' Hk' Hp'. apply Hk.
      assert (k' = i) as <- by (apply Honly; [right; exact Hk'|exact Hp']).
      exact Hk'.
  - assert (Hne : k ≠ i).
    { intros ->. apply Hk. apply (list_elem_of_fmap_2 fst) in Hin. exact Hin. }
    rewrite IH; [|exact Hnd|exact Hin|intros k' Hk'; apply Honly; right; exact Hk'].
    f_equal. unfold settle_item. simpl.
    destruct (seat_player t k) as [p'|] eqn:E; [|reflexivity].
    destruct (dict_get k bets); [|reflexivity].
    destruct (decide (p = p')) as [->|]; [|reflexivity].
    exfalso. apply Hne. apply Honly; [left|exact E].
Qed.

Section SeatSettlement.

Context {G : Type}.
Context (randint : Z → Z → G → Z * G).
Context (shuffle : list Card → G → list Card * G).

(** What a completed round has done to the player of one seat, when
    the table is well formed and nobody sits twice: the event holds the
    seat's bet and final hand; the player object has undergone exactly
    one settlement and lost one round; the seat has its result entry. *)
Lemma seat_settlement (h : Heap) (c : Casino) (t : Table) (pool : list ref)
    (g : G) (rd : Round G) (i : nat) (seat : Seat) (p : ref) :
  Table_wf t →
  NoDup (seated (seats_list t)) →
  play_round randint shuffle h c t pool g = Ok rd →
  seats_list t !! i = Some seat →
  player seat = Some p →
  ∃ bet hand,
    dict_get i (ev_initial_bets (rd_event rd)) = Some bet
    ∧ dict_get i (ev_hands (rd_event rd)) = Some hand
    ∧ rd_heap rd p
      = set_rounds_left
          (rounds_left (h p) - 1)
          (settle_player (hand_total hand)
             (hand_total (ev_dealer_hand (rd_event rd))) bet (h p))
    ∧ mkResult i (first_name (h p))
               (house_delta (hand_total hand)
                  (hand_total (ev_dealer_hand (rd_event rd))) bet)
      ∈ ev_results (rd_event rd).
Proof.
  intros Hwf Hnd Hrd Hseat Hp.
  destruct (play_round_Ok _ _ _ _ _ _ _ _ Hrd)
    as (deck & g1 & bets & hands0 & deck1 & dealer0 & deck2 & hands1 & deck3
      & c1 & dealer & deck4 & h1 & c2 & rs & _ & Hbets & Hdeal & _ & Hact
      & _ & Hsettle & Hheap & _ & _ & _ & Hev).
  rewrite Hev. cbn [ev_initial_bets ev_hands ev_dealer_hand ev_results].
  assert (Hsp : seat_player t i = Some p).
  { unfold seat_player. rewrite Hseat. exact Hp. }
  destruct (wf_occupied_indices t Hwf) as [Hndk Hocc].
  assert (Hi : i ∈ occupied_indices (seats_list t)) by (apply Hocc; eauto).
  pose proof (deal_players_Ok _ _ _ _ _ Hdeal) as (_ & _ & _ & _ & Hkeys0).
  specialize (Hkeys0 Hndk). simpl in Hkeys0.
  pose proof (players_act_Ok _ _ _ _ _ _ Hact) as (Hkeys & _).
  rewrite Hkeys0 in Hkeys.
  assert (Hbet : is_Some (dict_get i bets)).
  { pose proof (generate_bets_keys randint (seats_list t) [] g1 i) as H.
    rewrite Hbets in H. apply H. right. exact Hi. }
  destruct Hbet as [bet Hbet].
  assert (Hhand : is_Some (dict_get i hands1)).
  { apply dict_get_is_Some. rewrite Hkeys. exact Hi. }
  destruct Hhand as [hand Hhand].
  exists bet, hand. split; [exact Hbet|]. split; [exact Hhand|].
  apply settle_hands_Ok in Hsettle as (_ & Hh1 & _ & _ & Hrs).
  assert (Hone : fold_left (settle_item t bets (hand_total dealer) p) hands1 (h p)
      = settle_player (hand_total hand) (hand_total dealer) bet (h p)).
  { apply (fold_settle_item_single t bets (hand_total dealer) p hands1 i hand bet).
    - rewrite Hkeys. exact Hndk.
    - apply dict_get_elem_of. exact Hhand.
    - exact Hsp.
    - exact Hbet.
    - intros k _ Hk. eapply seat_player_inj; eassumption. }
  split.
  - rewrite Hheap, decrement_rounds_spec, Hh1, Hone.
    rewrite (seats_held_one p (seats_list t) Hnd (seat_player_seated t i p Hsp)).
    reflexivity.
  - rewrite Hrs. simpl. apply (list_elem_of_fmap_2' _ _ (i, hand)).
    + apply dict_get_elem_of. exact Hhand.
    + unfold item_result, item_delta. simpl. rewrite Hsp, Hbet. reflexivity.
Qed.

End SeatSettlement.

(** ** Claims about settlement *)

(** The three cases of the settlement rule. *)
Lemma settlement_cases (pt dt bet : Z) :
  (21 < pt ∨ (pt ≤ 21 ∧ dt ≤ 21 ∧ pt < dt) →
   house_delta pt dt bet = bet ∧ outcome_of pt dt bet = ("loss", bet))
  ∧ (pt ≤ 21 ∧ (21 < dt ∨ dt < pt) →
     house_delta pt dt bet = - bet ∧ outcome_of pt dt bet = ("win", bet))
  ∧ (pt ≤ 21 ∧ dt ≤ 21 ∧ pt = dt →
     house_delta pt dt bet = 0 ∧ outcome_of pt dt bet = ("push", 0)).
Proof.
  unfold house_delta, outcome_of.
  destruct (Z.ltb_spec 21 pt); [|destruct (Z.ltb_spec 21 dt);
    [|destruct (Z.ltb_spec dt pt); [|destruct (Z.ltb_spec pt dt)]]];
    (split; [|split]); intros Hc; first [split; reflexivity | exfalso; lia].
Qed.

(** [record_outcome] keeps the five most recent entries, the new one
    last. *)
Lemma history_record_outcome (o : string * Z) (q : Player) :
  history (record_outcome o q)
  = drop (length (history q ++ [o]) - 5) (history q ++ [o]).
Proof.
  unfold record_outcome. simpl.
  destruct (Z.ltb_spec 5 (Z.of_nat (length (history q ++ [o])))) as [Hlt|Hge].
  - reflexivity.
  - replace (length (history q ++ [o]) - 5)%nat with 0%nat by lia. reflexivity.
Qed.

Lemma last_five_last {A : Type} (l : list A) (x : A) :
  last (drop (length (l ++ [x]) - 5) (l ++ [x])) = Some x.
Proof.
  rewrite length_app. simpl.
  rewrite drop_app_le by lia. apply last_snoc.
Qed.

Lemma last_five_length {A : Type} (l : list A) :
  (length (drop (length l - 5) l) ≤ 5)%nat.
Proof. rewrite length_drop. lia. Qed.

Lemma history_settle_player (pt dt bet : Z) (q : Player) :
  history (settle_player pt dt bet q)
  = drop (length (history q ++ [outcome_of pt dt bet]) - 5)
         (history q ++ [outcome_of pt dt bet]).
Proof. unfold settle_player. rewrite history_record_outcome. reflexivity. Qed.

Lemma settle_item_history_bound (t : Table) (bets : dict Z) (dt : Z) (r : ref)
    (items : dict (list Card)) (q : Player) :
  (length (history q) ≤ 5)%nat →
  (length (history (fold_left (settle_item t bets dt r) items q)) ≤ 5)%nat.
Proof.
  revert q. induction items as [|item items IH]; intros q Hq; simpl; [exact Hq|].
  apply IH. unfold settle_item.
  destruct (seat_player t (fst item)); [|exact Hq].
  destruct (dict_get (fst item) bets); [|exact Hq].
  destruct (decide (r = r0)); [|exact Hq].
  rewrite history_settle_player. apply last_five_length.
Qed.

(** Sums of balances over a duplicate-free list of players. *)
Lemma sum_money_same (L : list ref) (f : ref → Player) (F : Player → Player) (p : ref) :
  p ∉ L →
  sumZ (map (λ r, money_left (if decide (r = p) then F (f r) else f r)) L)
  = sumZ (map (λ r, money_left (f r)) L).
Proof.
  induction L as [|x L IH]; intros Hp; [reflexivity|].
  apply not_elem_of_cons in Hp as [Hne Hp]. simpl.
  destruct (decide (x = p)); [congruence|]. rewrite IH by exact Hp. reflexivity.
Qed.

Lemma sum_money_step (L : list ref) (f : ref → Player) (F : Player → Player) (p : ref) :
  NoDup L → p ∈ L →
  sumZ (map (λ r, money_left (if decide (r = p) then F (f r) else f r)) L)
  = sumZ (map (λ r, money_left (f r)) L) + (money_left (F (f p)) - money_left (f p)).
Proof.
  induction L as [|x L IH]; intros Hnd Hp; [inversion Hp|].
  apply NoDup_cons in Hnd as [Hx Hnd]. simpl.
  destruct (decide (x = p)) as [->|Hne].
  - rewrite sum_money_same by exact Hx. lia.
  - apply elem_of_cons in Hp as [->|Hp]; [contradiction|].
    rewrite IH by assumption. lia.
Qed.

Lemma sum_money_fold (t : Table) (bets : dict Z) (dt : Z) (L : list ref)
    (items : dict (list Card)) (f : ref → Player) :
  NoDup L →
  (∀ p, p ∈ seated (seats_list t) → p ∈ L) →
  Forall (λ item, is_Some (seat_player t (fst item))
                  ∧ is_Some (dict_get (fst item) bets)) items →
  sumZ (map (λ r, money_left (fold_left (settle_item t bets dt r) items (f r))) L)
  = sumZ (map (λ r, money_left (f r)) L) - sumZ (map (item_delta bets dt) items).
Proof.
  intros Hnd Hcover Hall. revert f.
  induction Hall as [|item items [[p Hp] [bet Hb]] _ IH]; intros f; simpl.
  - lia.
  - rewrite (IH (λ r, settle_item t bets dt r (f r) item)).
    assert (Hstep : sumZ (map (λ r, money_left (settle_item t bets dt r (f r) item)) L)
                    = sumZ (map (λ r, money_left (f r)) L) - item_delta bets dt item).
    { unfold settle_item, item_delta. rewrite Hp, Hb.
      rewrite (sum_money_step L f (settle_player (hand_total (snd item)) dt bet) p Hnd).
      - rewrite money_left_settle_player. lia.
      - apply Hcover. eapply seat_player_seated. exact Hp. }
    rewrite Hstep. lia.
Qed.

Lemma sum_result_deltas (t : Table) (h : Heap) (bets : dict Z) (dt : Z)
    (items : dict (list Card)) :
  sumZ (map res_money_delta (map (item_result t h bets dt) items))
  = sumZ (map (item_delta bets dt) items).
Proof. rewrite map_map. reflexivity. Qed.

Section SettlementClaims.

Context {G : Type}.
Context (randint : Z → Z → G → Z * G).
Context (shuffle : list Card → G → list Card * G).

(** The money side of a completed round. *)
Lemma round_money (h : Heap) (c : Casino) (t : Table) (pool : list ref)
    (g : G) (rd : Round G) :
  play_round randint shuffle h c t pool g = Ok rd →
  ∃ bets dt items,
    Forall (λ item, is_Some (seat_player t (fst item))
                    ∧ is_Some (dict_get (fst item) bets)) items
    ∧ (∀ r, rd_heap rd r
            = set_rounds_left
                (rounds_left (h r) - Z.of_nat (seats_held r (seats_list t)))
                (fold_left (settle_item t bets dt r) items (h r)))
    ∧ casino_profit (rd_casino rd)
      = casino_profit c + sumZ (map (item_delta bets dt) items)
    ∧ ev_profit_delta (rd_event rd) = casino_profit (rd_casino rd) - casino_profit c
    ∧ sumZ (map res_money_delta (ev_results (rd_event rd)))
      = sumZ (map (item_delta bets dt) items).
Proof.
  intros Hrd.
  destruct (play_round_Ok _ _ _ _ _ _ _ _ Hrd)
    as (deck & g1 & bets & hands0 & deck1 & dealer0 & deck2 & hands1 & deck3
      & c1 & dealer & deck4 & h1 & c2 & rs & _ & _ & _ & _ & Hact
      & _ & Hsettle & Hheap & Hcasino & _ & _ & Hev).
  apply settle_hands_Ok in Hsettle as (Hall & Hh1 & Hc2 & Hprofit & Hrs).
  apply players_act_Ok in Hact as (_ & Hc1 & _ & _ & _).
  exists bets, (hand_total dealer), hands1.
  assert (Hp : casino_profit (rd_casino rd)
      = casino_profit c
      + sumZ (map (item_delta bets (hand_total dealer)) hands1)).
  { rewrite Hcasino. unfold remove_finished_players.
    destruct (remove_finished_seats _ _ _) as [seats' fin']. cbn [snd].
    cbn [casino_profit set_finished_players]. rewrite Hprofit, Hc1. reflexivity. }
  split; [exact Hall|]. split.
  { intros r. rewrite Hheap, decrement_rounds_spec, Hh1.
    rewrite settle_item_rounds_left. reflexivity. }
  split; [exact Hp|]. split; [rewrite Hev; reflexivity|].
  rewrite Hev. cbn [ev_results]. rewrite Hrs. simpl. apply sum_result_deltas.
Qed.

(** C3. Over a completed round the balance changes of the players
    seated at its start, each player counted once, add up to the
    negation of the change in casino profit, which is the event's
    [profit_delta]; the balance of everyone else is untouched. *)
Theorem round_is_zero_sum (h : Heap) (c : Casino) (t : Table) (pool : list ref)
    (g : G) (rd : Round G) :
  play_round randint shuffle h c t pool g = Ok rd →
  sumZ (map (λ p, money_left (rd_heap rd p) - money_left (h p))
            (remove_dups (seated (seats_list t))))
  = - (casino_profit (rd_casino rd) - casino_profit c)
  ∧ ev_profit_delta (rd_event rd) = casino_profit (rd_casino rd) - casino_profit c
  ∧ (∀ p, p ∉ seated (seats_list t) → money_left (rd_heap rd p) = money_left (h p)).
Proof.
  intros Hrd.
  destruct (round_money h c t pool g rd Hrd)
    as (bets & dt & items & Hall & Hheap & Hprofit & Hdelta & _).
  split; [|split; [exact Hdelta|]].
  - pose proof (sum_money_fold t bets dt (remove_dups (seated (seats_list t)))
        items h (NoDup_remove_dups _)
        ltac:(intros p Hp; apply elem_of_remove_dups; exact Hp) Hall) as Hsum.
    rewrite Hprofit.
    assert (Hsplit : ∀ (L : list ref) (a b : ref → Z),
        sumZ (map (λ p, a p - b p) L) = sumZ (map a L) - sumZ (map b L)).
    { intros L a b. induction L as [|x L IH]; simpl; lia. }
    rewrite Hsplit.
    rewrite (map_ext (λ p, money_left (rd_heap rd p))
        (λ r, money_left (fold_left (settle_item t bets dt r) items (h r)))).
    + rewrite Hsum. lia.
    + intros r. rewrite Hheap. reflexivity.
  - intros p Hp. rewrite Hheap. simpl.
    rewrite fold_settle_item_other; [reflexivity|].
    intros k _ Hk. apply Hp. eapply seat_player_seated. exact Hk.
Qed.

(** C1. In a completed round at a well-formed table where nobody sits
    twice, take an occupied seat, its bet [bet] recorded at round start
    and its final hand.  If the hand is over 21, or under the total of
    a dealer who did not bust, the player's balance has dropped by
    [bet], the outcome recorded is "loss", the seat's result entry
    carries [+bet], and the settlement pass for the seat adds [bet] to
    the casino profit.  If the hand is not over 21 and the dealer is, or
    the hand beats the dealer, the balance has grown by [bet], the
    outcome is "win", the entry carries [-bet] and the pass takes [bet]
    off the profit.  If neither is over 21 and the totals are equal,
    balance and profit are unchanged and the entry carries 0.  The
    round's profit change is the sum of the entries' deltas. *)
Theorem settlement_by_totals (h : Heap) (c : Casino) (t : Table) (pool : list ref)
    (g : G) (rd : Round G) (i : nat) (seat : Seat) (p : ref) :
  Table_wf t →
  NoDup (seated (seats_list t)) →
  play_round randint shuffle h c t pool g = Ok rd →
  seats_list t !! i = Some seat →
  player seat = Some p →
  ∃ bet hand,
    dict_get i (ev_initial_bets (rd_event rd)) = Some bet
    ∧ dict_get i (ev_hands (rd_event rd)) = Some hand
    ∧ (let pt := hand_total hand in
       let dt := hand_total (ev_dealer_hand (rd_event rd)) in
       let settle h0 c0 rs0 :=
         settle_hand t (ev_initial_bets (rd_event rd)) dt i hand (h0, c0, rs0) in
       (21 < pt ∨ (pt ≤ 21 ∧ dt ≤ 21 ∧ pt < dt) →
        money_left (rd_heap rd p) = money_left (h p) - bet
        ∧ last (history (rd_heap rd p)) = Some ("loss", bet)
        ∧ mkResult i (first_name (h p)) bet ∈ ev_results (rd_event rd)
        ∧ ∀ h0 c0 rs0, ∃ h1,
            settle h0 c0 rs0
            = Ok (h1, set_casino_profit (casino_profit c0 + bet) c0,
                  rs0 ++ [mkResult i (first_name (h0 p)) bet]))
       ∧ (pt ≤ 21 ∧ (21 < dt ∨ dt < pt) →
          money_left (rd_heap rd p) = money_left (h p) + bet
          ∧ last (history (rd_heap rd p)) = Some ("win", bet)
          ∧ mkResult i (first_name (h p)) (- bet) ∈ ev_results (rd_event rd)
          ∧ ∀ h0 c0 rs0, ∃ h1,
              settle h0 c0 rs0
              = Ok (h1, set_casino_profit (casino_profit c0 - bet) c0,
                    rs0 ++ [mkResult i (first_name (h0 p)) (- bet)]))
       ∧ (pt ≤ 21 ∧ dt ≤ 21 ∧ pt = dt →
          money_left (rd_heap rd p) = money_left (h p)
          ∧ mkResult i (first_name (h p)) 0 ∈ ev_results (rd_event rd)
          ∧ ∀ h0 c0 rs0, ∃ h1,
              settle h0 c0 rs0
              = Ok (h1, c0, rs0 ++ [mkResult i (first_name (h0 p)) 0])))
    ∧ casino_profit (rd_casino rd) - casino_profit c
      = sumZ (map res_money_delta (ev_results (rd_event rd)))
    ∧ ev_profit_delta (rd_event rd)
      = sumZ (map res_money_delta (ev_results (rd_event rd))).
Proof.
  intros Hwf Hnd Hrd Hseat Hp.
  destruct (seat_settlement randint shuffle h c t pool g rd i seat p
      Hwf Hnd Hrd Hseat Hp) as (bet & hand & Hbet & Hhand & Hobj & Hres).
  destruct (round_money h c t pool g rd Hrd)
    as (bets & dt' & items & _ & _ & Hprofit & Hdelta & Hsum).
  exists bet, hand. split; [exact Hbet|]. split; [exact Hhand|].
  split; [|split; [rewrite Hsum, Hprofit; lia|rewrite Hdelta, Hsum, Hprofit; lia]].
  intros pt dt settle.
  assert (Hsp : seat_player t i = Some p).
  { unfold seat_player. rewrite Hseat. exact Hp. }
  destruct (settlement_cases pt dt bet) as (Hloss & Hwin & Hpush).
  fold pt dt in Hobj, Hres.
  assert (Hstep : ∀ h0 c0 rs0, ∃ h1,
      settle h0 c0 rs0
      = Ok (h1, set_casino_profit (casino_profit c0 + house_delta pt dt bet) c0,
        rs0 ++ [mkResult i (first_name (h0 p)) (house_delta pt dt bet)])).
  { intros h0 c0 rs0. unfold settle.
    destruct (settle_hand_Ok t (ev_initial_bets (rd_event rd)) dt i hand h0 c0 rs0
        p bet Hsp Hbet) as (h1 & Heq & _).
    exists h1. exact Heq. }
  rewrite Hobj. cbn [money_left history set_rounds_left].
  rewrite money_left_settle_player, history_settle_player, last_five_last.
  split; [|split].
  - intros Hc. destruct (Hloss Hc) as [Hd Ho]. rewrite Hd, Ho in *.
    split; [reflexivity|]. split; [reflexivity|]. split; [exact Hres|exact Hstep].
  - intros Hc. destruct (Hwin Hc) as [Hd Ho]. rewrite Hd, Ho in *.
    split; [lia|]. split; [reflexivity|]. split; [exact Hres|].
    intros h0 c0 rs0. destruct (Hstep h0 c0 rs0) as [h1 Heq]. exists h1.
    rewrite Heq. reflexivity.
  - intros Hc. destruct (Hpush Hc) as [Hd Ho]. rewrite Hd in *.
    split; [lia|]. split; [exact Hres|].
    intros h0 c0 rs0. destruct (Hstep h0 c0 rs0) as [h1 Heq]. exists h1.
    rewrite Heq, set_casino_profit_same. reflexivity.
Qed.

(** C2. In a completed round at a well-formed table where nobody sits
    twice, an occupied seat whose final hand is over 21 has lost: the
    balance has dropped by the bet, the outcome recorded is "loss" and
    the result entry carries [+bet].  The settlement pass for such a
    hand gives this result for every dealer total, a dealer over 21
    included: the player's bust is tested first, and the casino the
    pass returns has its profit up by the bet.  The round's profit
    change is the sum of the entries' deltas, the [+bet] of this seat
    among them. *)
Theorem player_bust_always_loses (h : Heap) (c : Casino) (t : Table)
    (pool : list ref) (g : G) (rd : Round G) (i : nat) (seat : Seat) (p : ref) :
  Table_wf t →
  NoDup (seated (seats_list t)) →
  play_round randint shuffle h c t pool g = Ok rd →
  seats_list t !! i = Some seat →
  player seat = Some p →
  ∃ bet hand,
    dict_get i (ev_initial_bets (rd_event rd)) = Some bet
    ∧ dict_get i (ev_hands (rd_event rd)) = Some hand
    ∧ (21 < hand_total hand →
       money_left (rd_heap rd p) = money_left (h p) - bet
       ∧ last (history (rd_heap rd p)) = Some ("loss", bet)
       ∧ mkResult i (first_name (h p)) bet ∈ ev_results (rd_event rd)
       ∧ ∀ dealer_total h0 c0 rs0, ∃ h1 c1,
           settle_hand t (ev_initial_bets (rd_event rd)) dealer_total i hand
                       (h0, c0, rs0)
           = Ok (h1, c1, rs0 ++ [mkResult i (first_name (h0 p)) bet])
           ∧ c1 = set_casino_profit (casino_profit c0 + bet) c0
           ∧ casino_profit c1 = casino_profit c0 + bet
           ∧ money_left (h1 p) = money_left (h0 p) - bet
           ∧ last (history (h1 p)) = Some ("loss", bet))
    ∧ casino_profit (rd_casino rd) - casino_profit c
      = sumZ (map res_money_delta (ev_results (rd_event rd)))
    ∧ ev_profit_delta (rd_event rd)
      = sumZ (map res_money_delta (ev_results (rd_event rd))).
Proof.
  intros Hwf Hnd Hrd Hseat Hp.
  destruct (seat_settlement randint shuffle h c t pool g rd i seat p
      Hwf Hnd Hrd Hseat Hp) as (bet & hand & Hbet & Hhand & Hobj & Hres).
  destruct (round_money h c t pool g rd Hrd)
    as (bets & dt' & items & _ & _ & Hprofit & Hdelta & Hsum).
  exists bet, hand. split; [exact Hbet|]. split; [exact Hhand|].
  split; [|split; [rewrite Hsum, Hprofit; lia|rewrite Hdelta, Hsum, Hprofit; lia]].
  intros Hbust.
  assert (Hsp : seat_player t i = Some p).
  { unfold seat_player. rewrite Hseat. exact Hp. }
  assert (Hany : ∀ dt, house_delta (hand_total hand) dt bet = bet
      ∧ outcome_of (hand_total hand) dt bet = ("loss", bet)).
  { intros dt. apply settlement_cases. left. exact Hbust. }
  destruct (Hany (hand_total (ev_dealer_hand (rd_event rd)))) as [Hd Ho].
  rewrite Hobj. cbn [money_left history set_rounds_left].
  rewrite money_left_settle_player, history_settle_player, last_five_last.
  rewrite Hd, Ho in *.
  split; [reflexivity|]. split; [reflexivity|]. split; [exact Hres|].
  intros dt h0 c0 rs0.
  destruct (settle_hand_Ok t (ev_initial_bets (rd_event rd)) dt i hand h0 c0 rs0
      p bet Hsp Hbet) as (h1 & Heq & Hh1).
  destruct (Hany dt) as [Hd' Ho']. rewrite Hd' in Heq.
  exists h1, (set_casino_profit (casino_profit c0 + bet) c0).
  split; [exact Heq|]. split; [reflexivity|].
  split; [destruct c0; reflexivity|]. rewrite Hh1.
  destruct (decide (p = p)); [|contradiction].
  rewrite money_left_settle_player, history_settle_player, last_five_last.
  rewrite Hd', Ho'. split; reflexivity.
Qed.

(** C6, as the code has it.  In a completed round every player whose
    history had at most 5 entries still has at most 5.  At a well-formed
    table where nobody sits twice, the player of an occupied seat gets
    one entry appended: (outcome, bet) with the seat's bet when the
    outcome is "win" or "loss", and ("push", 0) on a push; the history
    then keeps its 5 most recent entries in order, the new one last. *)
Theorem history_appended_and_bounded (h : Heap) (c : Casino) (t : Table)
    (pool : list ref) (g : G) (rd : Round G) :
  play_round randint shuffle h c t pool g = Ok rd →
  (∀ r, (length (history (h r)) ≤ 5)%nat →
        (length (history (rd_heap rd r)) ≤ 5)%nat)
  ∧ (Table_wf t →
     NoDup (seated (seats_list t)) →
     ∀ i seat p,
       seats_list t !! i = Some seat →
       player seat = Some p →
       ∃ bet hand entry,
         dict_get i (ev_initial_bets (rd_event rd)) = Some bet
         ∧ dict_get i (ev_hands (rd_event rd)) = Some hand
         ∧ history (rd_heap rd p)
           = drop (length (history (h p) ++ [entry]) - 5) (history (h p) ++ [entry])
         ∧ last (history (rd_heap rd p)) = Some entry
         ∧ (length (history (rd_heap rd p)) ≤ 5)%nat
         ∧ (let pt := hand_total hand in
            let dt := hand_total (ev_dealer_hand (rd_event rd)) in
            (21 < pt ∨ (pt ≤ 21 ∧ dt ≤ 21 ∧ pt < dt) → entry = ("loss", bet))
            ∧ (pt ≤ 21 ∧ (21 < dt ∨ dt < pt) → entry = ("win", bet))
            ∧ (pt ≤ 21 ∧ dt ≤ 21 ∧ pt = dt → entry = ("push", 0)))).
Proof.
  intros Hrd. split.
  - intros r Hr.
    destruct (round_money h c t pool g rd Hrd)
      as (bets & dt & items & _ & Hheap & _).
    rewrite Hheap. cbn [history set_rounds_left].
    apply settle_item_history_bound. exact Hr.
  - intros Hwf Hnd i seat p Hseat Hp.
    destruct (seat_settlement randint shuffle h c t pool g rd i seat p
        Hwf Hnd Hrd Hseat Hp) as (bet & hand & Hbet & Hhand & Hobj & _).
    exists bet, hand,
      (outcome_of (hand_total hand) (hand_total (ev_dealer_hand (rd_event rd))) bet).
    split; [exact Hbet|]. split; [exact Hhand|].
    rewrite Hobj. cbn [history set_rounds_left]. rewrite history_settle_player.
    split; [reflexivity|]. split; [apply last_five_last|].
    split; [apply last_five_length|].
    cbv zeta.
    destruct (settlement_cases (hand_total hand)
        (hand_total (ev_dealer_hand (rd_event rd))) bet)
      as (Hloss & Hwin & Hpush).
    split; [|split]; intros Hc.
    + apply Hloss. exact Hc.
    + apply Hwin. exact Hc.
    + apply Hpush. exact Hc.
Qed.

End SettlementClaims.

(** ** The sample round, settlement *)

Lemma sample_seated_NoDup : NoDup (seated (seats_list sample_table)).
Proof. apply (bool_decide_unpack _). vm_compute. exact I. Qed.

Lemma round_is_zero_sum_witness :
  ∃ rd,
    play_round counting_randint reversing_shuffle sample_heap sample_casino
               sample_table [3; 4]%nat 0%nat = Ok rd
    ∧ sumZ (map (λ p, money_left (rd_heap rd p) - money_left (sample_heap p))
                (remove_dups (seated (seats_list sample_table))))
      = - (casino_profit (rd_casino rd) - casino_profit sample_casino).
Proof.
  destruct sample_round_Ok as [rd E]. exists rd. split; [exact E|].
  apply (round_is_zero_sum _ _ _ _ _ _ _ _ E).
Defined.

Lemma sample_round_event (rd : Round nat) :
  play_round counting_randint reversing_shuffle sample_heap sample_casino
             sample_table [3; 4]%nat 0%nat = Ok rd →
  ev_initial_bets (rd_event rd) = [(0%nat, 13); (1%nat, 14); (2%nat, 15)]
  ∧ map (λ it, (fst it, hand_total (snd it))) (ev_hands (rd_event rd))
    = [(0%nat, 22); (1%nat, 27); (2%nat, 21)]
  ∧ hand_total (ev_dealer_hand (rd_event rd)) = 25.
Proof.
  intros E.
  assert (H : match play_round counting_randint reversing_shuffle sample_heap
                               sample_casino sample_table [3; 4]%nat 0%nat with
              | Ok rd => Some (ev_initial_bets (rd_event rd),
                               map (λ it, (fst it, hand_total (snd it)))
                                   (ev_hands (rd_event rd)),
                               hand_total (ev_dealer_hand (rd_event rd)))
              | Raise _ => None
              end
              = Some ([(0%nat, 13); (1%nat, 14); (2%nat, 15)],
                      [(0%nat, 22); (1%nat, 27); (2%nat, 21)], 25)).
  { vm_compute. reflexivity. }
  rewrite E in H. injection H as H1 H2 H3. auto.
Qed.

Lemma dict_get_total (k : nat) (hand : list Card) (hands : dict (list Card)) :
  dict_get k hands = Some hand →
  dict_get k (map (λ it, (fst it, hand_total (snd it))) hands) = Some (hand_total hand).
Proof.
  induction hands as [|[k' hd] hands IH]; simpl; [discriminate|].
  destruct (decide (k' = k)); [intros [= ->]; reflexivity|exact IH].
Qed.

(** Seat 2 of the sample round: 21 against a dealer at 25, bet 15. *)
Lemma settlement_by_totals_witness :
  ∃ rd,
    Table_wf sample_table
    ∧ NoDup (seated (seats_list sample_table))
    ∧ play_round counting_randint reversing_shuffle sample_heap sample_casino
                 sample_table [3; 4]%nat 0%nat = Ok rd
    ∧ seats_list sample_table !! 2%nat = Some (mkSeat 2 (Some 2%nat))
    ∧ player (mkSeat 2 (Some 2%nat)) = Some 2%nat
    ∧ money_left (rd_heap rd 2%nat) = money_left (sample_heap 2%nat) + 15
    ∧ last (history (rd_heap rd 2%nat)) = Some ("win", 15).
Proof.
  destruct sample_round_Ok as [rd E]. exists rd.
  split; [exact sample_table_wf|]. split; [exact sample_seated_NoDup|].
  split; [exact E|]. split; [reflexivity|]. split; [reflexivity|].
  destruct (settlement_by_totals _ _ _ _ _ _ _ _ 2%nat (mkSeat 2 (Some 2%nat)) 2%nat
              sample_table_wf sample_seated_NoDup E eq_refl eq_refl)
    as (bet & hand & Hb & Hh & (_ & Hwin & _) & _).
  destruct (sample_round_event rd E) as (Hbets & Hhands & Hdealer).
  rewrite Hbets in Hb. injection Hb as <-.
  apply dict_get_total in Hh. rewrite Hhands in Hh. injection Hh as Hh.
  rewrite <- Hh, Hdealer in Hwin.
  destruct Hwin as (Hm & Hl & _); [lia|]. split; assumption.
Defined.

(** Seat 0 of the sample round: 22, bet 13; the dealer is over 21 too. *)
Lemma player_bust_always_loses_witness :
  ∃ rd,
    Table_wf sample_table
    ∧ NoDup (seated (seats_list sample_table))
    ∧ play_round counting_randint reversing_shuffle sample_heap sample_casino
                 sample_table [3; 4]%nat 0%nat = Ok rd
    ∧ seats_list sample_table !! 0%nat = Some (mkSeat 0 (Some 0%nat))
    ∧ player (mkSeat 0 (Some 0%nat)) = Some 0%nat
    ∧ 21 < hand_total (ev_dealer_hand (rd_event rd))
    ∧ money_left (rd_heap rd 0%nat) = money_left (sample_heap 0%nat) - 13
    ∧ last (history (rd_heap rd 0%nat)) = Some ("loss", 13)
    ∧ mkResult 0 "Ann" 13 ∈ ev_results (rd_event rd)
    ∧ casino_profit (rd_casino rd) - casino_profit sample_casino
      = sumZ (map res_money_delta (ev_results (rd_event rd))).
Proof.
  destruct sample_round_Ok as [rd E]. exists rd.
  split; [exact sample_table_wf|]. split; [exact sample_seated_NoDup|].
  split; [exact E|]. split; [reflexivity|]. split; [reflexivity|].
  destruct (player_bust_always_loses _ _ _ _ _ _ _ _ 0%nat (mkSeat 0 (Some 0%nat)) 0%nat
              sample_table_wf sample_seated_NoDup E eq_refl eq_refl)
    as (bet & hand & Hb & Hh & Hbust & Hprofit & _).
  destruct (sample_round_event rd E) as (Hbets & Hhands & Hdealer).
  rewrite Hbets in Hb. injection Hb as <-.
  apply dict_get_total in Hh. rewrite Hhands in Hh. injection Hh as Hh.
  rewrite <- Hh in Hbust.
  destruct Hbust as (Hm & Hl & Hres & _); [lia|].
  split; [lia|]. split; [exact Hm|]. split; [exact Hl|].
  split; [exact Hres|exact Hprofit].
Defined.

Lemma history_appended_and_bounded_witness :
  ∃ rd,
    play_round counting_randint reversing_shuffle sample_heap sample_casino
               sample_table [3; 4]%nat 0%nat = Ok rd
    ∧ ∀ r, (length (history (sample_heap r)) ≤ 5)%nat →
           (length (history (rd_heap rd r)) ≤ 5)%nat.
Proof.
  destruct sample_round_Ok as [rd E]. exists rd. split; [exact E|].
  apply (history_appended_and_bounded _ _ _ _ _ _ _ _ E).
Defined.

(** On a push the entry appended is [("push", 0)], not the seat's bet:
    one seat, a shuffle that keeps the order, K and Q against J and 10,
    bet 13. *)
Lemma push_entry_has_no_stake :
  ∃ rd,
    play_round counting_randint keeping_shuffle sample_heap sample_casino
               solo_table [] 0%nat = Ok rd
    ∧ dict_get 0%nat (ev_initial_bets (rd_event rd)) = Some 13
    ∧ history (sample_heap 0%nat) = []
    ∧ history (rd_heap rd 0%nat) = [("push", 0)]
    ∧ ∀ outcome, last (history (rd_heap rd 0%nat)) ≠ Some (outcome, 13).
Proof.
  assert (E : match play_round counting_randint keeping_shuffle sample_heap
                               sample_casino solo_table [] 0%nat with
              | Ok rd => Some (dict_get 0%nat (ev_initial_bets (rd_event rd)),
                               history (rd_heap rd 0%nat))
              | Raise _ => None
              end = Some (Some 13, [("push", 0)])).
  { vm_compute. reflexivity. }
  destruct (play_round counting_randint keeping_shuffle sample_heap sample_casino
                       solo_table [] 0%nat) as [rd|e]; [|discriminate E].
  injection E as Hb Hh. exists rd. split; [reflexivity|].
  split; [exact Hb|]. split; [reflexivity|]. split; [exact Hh|].
  intros outcome. rewrite Hh. simpl. intros [= _ H].
Qed.

(** ** Revival of finished players *)

Lemma times_in_cons (p q : ref) (l : list ref) :
  times_in p (q :: l) = if decide (q = p) then S (times_in p l) else times_in p l.
Proof. unfold times_in. rewrite filter_cons. destruct (decide (q = p)); reflexivity. Qed.

Lemma times_in_NoDup (p : ref) (l : list ref) :
  NoDup l → times_in p l = if decide (p ∈ l) then 1%nat else 0%nat.
Proof.
  induction l as [|q l IH]; intros Hnd.
  - destruct (decide (p ∈ [])) as [H|_]; [inversion H|reflexivity].
  - apply NoDup_cons in Hnd as [Hq Hnd]. rewrite times_in_cons, IH by exact Hnd.
    destruct (decide (q = p)) as [->|Hne].
    + destruct (decide (p ∈ l)); [contradiction|].
      destruct (decide (p ∈ p :: l)) as [_|Hn]; [reflexivity|].
      exfalso. apply Hn. left.
    + destruct (decide (p ∈ l)) as [Hin|Hnin].
      * destruct (decide (p ∈ q :: l)) as [_|Hn]; [reflexivity|].
        exfalso. apply Hn. right. exact Hin.
      * destruct (decide (p ∈ q :: l)) as [Hin|_]; [|reflexivity].
        apply elem_of_cons in Hin as [->|Hin]; contradiction.
Qed.

Lemma Player_set_same (q : Player) :
  set_rounds_left (rounds_left q + 0) (set_money_left (money_left q + 0) q) = q.
Proof.
  destruct q. unfold set_rounds_left, set_money_left. simpl.
  rewrite !Z.add_0_r. reflexivity.
Qed.

(** [list.remove] finds the first item at the head when it is there. *)
Lemma list_remove_head (h : Heap) (x : ref) (l : list ref) :
  list_remove h x (x :: l) = Ok l.
Proof. simpl. rewrite bool_decide_eq_true_2 by reflexivity. reflexivity. Qed.

(** Moving back the players just collected from the finished list
    empties it and appends them to the waiting pool, in order. *)
Lemma move_revived_all (h : Heap) (fin pool : list ref) :
  move_revived h fin fin pool = Ok ([], pool ++ fin).
Proof.
  revert pool. induction fin as [|p fin IH]; intros pool.
  - simpl. rewrite app_nil_r. reflexivity.
  - cbn [move_revived]. rewrite list_remove_head.
    cbn [mbind result_mbind result_bind]. rewrite IH, <- app_assoc. reflexivity.
Qed.

Section Revival.

Context {G : Type}.
Context (randint : Z → Z → G → Z * G).
Context (shuffle : list Card → G → list Card * G).

(** The first loop of the revival: every entry of the finished list
    adds one draw of [randint(500, 1000)] to the player's money and one
    draw of [randint(3, 10)] to the rounds, and nothing else changes. *)
Lemma revive_players_spec (fin : list ref) (h : Heap) (revived : list ref) (g : G) :
  randint_in_range randint →
  snd (fst (revive_players randint fin h revived g)) = revived ++ fin
  ∧ ∀ r, ∃ money rounds,
      fst (fst (revive_players randint fin h revived g)) r
      = set_rounds_left (rounds_left (h r) + rounds)
                        (set_money_left (money_left (h r) + money) (h r))
      ∧ 500 * Z.of_nat (times_in r fin) ≤ money ≤ 1000 * Z.of_nat (times_in r fin)
      ∧ 3 * Z.of_nat (times_in r fin) ≤ rounds ≤ 10 * Z.of_nat (times_in r fin).
Proof.
  intros Hr. revert h revived g.
  induction fin as [|p fin IH]; intros h revived g.
  - simpl. split; [rewrite app_nil_r; reflexivity|].
    intros r. exists 0, 0. rewrite Player_set_same.
    change (times_in r []) with 0%nat. split; [reflexivity|]. lia.
  - cbn [revive_players].
    pose proof (Hr 500 1000 g ltac:(lia)) as Hm.
    destruct (randint 500 1000 g) as [money g1]. cbn [fst] in Hm.
    pose proof (Hr 3 10 g1 ltac:(lia)) as Hk.
    destruct (randint 3 10 g1) as [rounds g2]. cbn [fst] in Hk.
    destruct (IH (heap_upd (λ q, set_rounds_left (rounds_left q + rounds) q) p
          (heap_upd (λ q, set_money_left (money_left q + money) q) p h))
        (revived ++ [p]) g2) as [Hrev Hheap].
    split; [rewrite Hrev, <- app_assoc; reflexivity|].
    intros r. destruct (Hheap r) as (m' & k' & Heq & Hm' & Hk').
    rewrite times_in_cons.
    destruct (decide (r = p)) as [->|Hne].
    + destruct (decide (p = p)); [|contradiction].
      exists (money + m'), (rounds + k'). split.
      * rewrite Heq, !heap_upd_eq. destruct (h p).
        unfold set_rounds_left, set_money_left. simpl. f_equal; lia.
      * lia.
    + destruct (decide (p = r)); [congruence|].
      exists m', k'. split; [|lia].
      rewrite Heq, !heap_upd_ne by exact Hne. reflexivity.
Qed.

(** The body of the half-hour test, in closed form. *)
Lemma revive_Ok (st : Sim G) :
  revive randint st
  = Ok (mkSim (fst (fst (revive_players randint (finished_players (sim_casino st))
                           (sim_heap st) [] (sim_rng st))))
              (set_finished_players [] (sim_casino st))
              (sim_player_pool st ++ finished_players (sim_casino st))
              (snd (revive_players randint (finished_players (sim_casino st))
                      (sim_heap st) [] (sim_rng st)))
              (sim_time st)).
Proof.
  unfold revive.
  assert (Hrev : ∀ fin h revived g,
      snd (fst (revive_players randint fin h revived g)) = revived ++ fin).
  { induction fin as [|p fin IH]; intros h revived g; cbn [revive_players].
    - simpl. rewrite app_nil_r. reflexivity.
    - destruct (randint 500 1000 g) as [money g1].
      destruct (randint 3 10 g1) as [rounds g2].
      rewrite IH, <- app_assoc. reflexivity. }
  specialize (Hrev (finished_players (sim_casino st)) (sim_heap st) [] (sim_rng st)).
  destruct (revive_players randint (finished_players (sim_casino st))
      (sim_heap st) [] (sim_rng st)) as [[h1 revived] g1].
  cbn [fst snd] in *. subst revived. rewrite move_revived_all.
  reflexivity.
Qed.

(** The seats are refilled from the front of the pool. *)
Lemma fill_tables_pool (ts : list Table) (pool : list ref) :
  ∃ k, snd (fill_tables ts pool) = drop k pool.
Proof.
  revert pool. induction ts as [|t ts IH]; intros pool; simpl.
  - exists 0%nat. reflexivity.
  - unfold fill_empty_seats.
    destruct (fill_seats_spec (seats_list t) pool) as (_ & Hpool & _).
    destruct (fill_seats (seats_list t) pool) as [seats' pool1]. cbn [snd] in Hpool.
    destruct (IH pool1) as [k Hk].
    destruct (fill_tables ts pool1) as [ts' pool2]. cbn [snd] in *.
    exists (empty_seats (seats_list t) + k)%nat.
    rewrite Hk, Hpool, drop_drop. reflexivity.
Qed.

(** One tick, laid out: the rounds, the clock, the revival test, the
    refill. *)
Lemma tick_Ok (st : Sim G) (events : list Event) (st2 : Sim G) :
  tick randint shuffle st = Ok (events, st2) →
  ∃ ts h c pool g st1',
    play_tables randint shuffle (tables (sim_casino st)) (sim_heap st)
                (sim_casino st) (sim_player_pool st) (sim_rng st)
    = Ok (events, ts, h, c, pool, g)
    ∧ revival_step randint (mkSim h (set_tables ts c) pool g (sim_time st + 10))
      = Ok st1'
    ∧ sim_heap st2 = sim_heap st1'
    ∧ finished_players (sim_casino st2) = finished_players (sim_casino st1')
    ∧ tables (sim_casino st2)
      = fst (fill_tables (tables (sim_casino st1')) (sim_player_pool st1'))
    ∧ sim_player_pool st2
      = snd (fill_tables (tables (sim_casino st1')) (sim_player_pool st1'))
    ∧ sim_time st2 = sim_time st1'.
Proof.
  unfold tick.
  destruct (play_tables randint shuffle (tables (sim_casino st)) (sim_heap st)
      (sim_casino st) (sim_player_pool st) (sim_rng st))
    as [[[[[[evs ts] h] c] pool] g]|e] eqn:E1; [|discriminate].
  cbn [mbind result_mbind result_bind].
  destruct (revival_step randint (mkSim h (set_tables ts c) pool g (sim_time st + 10)))
    as [st1'|e] eqn:E2; [|discriminate].
  cbn [mbind result_mbind result_bind].
  destruct (fill_tables (tables (sim_casino st1')) (sim_player_pool st1'))
    as [ts' pool'] eqn:Efill.
  intros [= <- <-]. exists ts, h, c, pool, g, st1'.
  rewrite Efill. split; [reflexivity|]. split; [exact E2|]. repeat split; reflexivity.
Qed.

End Revival.

(** ** Ownership across the tables of the casino *)

Lemma fill_tables_owners (ts : list Table) (pool : list ref) :
  flat_map (λ t, seated (seats_list t)) (fst (fill_tables ts pool))
    ++ snd (fill_tables ts pool)
  ≡ₚ flat_map (λ t, seated (seats_list t)) ts ++ pool.
Proof.
  revert pool. induction ts as [|t ts IH]; intros pool; simpl; [reflexivity|].
  pose proof (fill_empty_seats_perm t pool) as Ht.
  destruct (fill_empty_seats t pool) as [t' pool1]. cbn [fst snd] in Ht.
  specialize (IH pool1). destruct (fill_tables ts pool1) as [ts' pool2].
  cbn [fst snd] in *. simpl. rewrite <- !app_assoc, IH.
  rewrite (Permutation_app_swap_app (seated (seats_list t'))), Ht.
  rewrite (Permutation_app_swap_app _ (seated (seats_list t))). reflexivity.
Qed.

Section RevivalClaims.

Context {G : Type}.
Context (randint : Z → Z → G → Z * G).
Context (shuffle : list Card → G → list Card * G).

Lemma play_tables_owners (ts ts' : list Table) (h h' : Heap) (c c' : Casino)
    (pool pool' : list ref) (g g' : G) (events : list Event) :
  play_tables randint shuffle ts h c pool g = Ok (events, ts', h', c', pool', g') →
  flat_map (λ t, seated (seats_list t)) ts' ++ pool' ++ finished_players c'
  ≡ₚ flat_map (λ t, seated (seats_list t)) ts ++ pool ++ finished_players c.
Proof.
  revert ts' h h' c c' pool pool' g g' events.
  induction ts as [|t ts IH]; intros ts' h h' c c' pool pool' g g' events; simpl.
  - intros [= <- <- <- <- <- <-]. reflexivity.
  - destruct (play_round randint shuffle h c t pool g) as [rd|e] eqn:Erd; [|discriminate].
    cbn [mbind result_mbind result_bind].
    destruct (play_tables randint shuffle ts (rd_heap rd) (rd_casino rd)
        (rd_player_pool rd) (rd_rng rd))
      as [[[[[[evs rest'] h2] c2] pool2] g2]|e] eqn:Erest; [|discriminate].
    cbn [mbind result_mbind result_bind]. intros [= <- <- <- <- <- <-].
    apply IH in Erest. apply play_round_owners_perm in Erd.
    simpl. rewrite <- !app_assoc, Erest.
    rewrite (Permutation_app_swap_app (seated (seats_list (rd_table rd)))), Erd.
    rewrite (Permutation_app_swap_app _ (seated (seats_list t))). reflexivity.
Qed.

(** One tick, started with every player held once: what the half-hour
    test finds and leaves, and that every player is still held once
    when the tick ends. *)
Lemma tick_revival (st : Sim G) (events : list Event) (st2 : Sim G) :
  randint_in_range randint →
  NoDup (collect_all_players (sim_casino st) (sim_player_pool st)) →
  tick randint shuffle st = Ok (events, st2) →
  ∃ before after : Sim G,
    (∃ ts h c pool g,
       play_tables randint shuffle (tables (sim_casino st)) (sim_heap st)
                   (sim_casino st) (sim_player_pool st) (sim_rng st)
       = Ok (events, ts, h, c, pool, g)
       ∧ before = mkSim h (set_tables ts c) pool g (sim_time st + 10))
    ∧ revival_step randint before = Ok after
    ∧ NoDup (finished_players (sim_casino before))
    ∧ (sim_time before mod 1800 ≠ 0 → after = before)
    ∧ (sim_time before mod 1800 = 0 →
       finished_players (sim_casino after) = []
       ∧ sim_player_pool after
         = sim_player_pool before ++ finished_players (sim_casino before)
       ∧ tables (sim_casino after) = tables (sim_casino before)
       ∧ (∀ p, p ∈ finished_players (sim_casino before) →
            500 ≤ money_left (sim_heap after p) - money_left (sim_heap before p) ≤ 1000
            ∧ 3 ≤ rounds_left (sim_heap after p) - rounds_left (sim_heap before p) ≤ 10
            ∧ money_left (sim_heap before p) < money_left (sim_heap after p)
            ∧ rounds_left (sim_heap before p) < rounds_left (sim_heap after p))
       ∧ (∀ p, p ∉ finished_players (sim_casino before) →
            sim_heap after p = sim_heap before p))
    ∧ sim_heap st2 = sim_heap after
    ∧ finished_players (sim_casino st2) = finished_players (sim_casino after)
    ∧ (∃ k, sim_player_pool st2 = drop k (sim_player_pool after))
    ∧ sim_time st2 = sim_time st + 10
    ∧ NoDup (collect_all_players (sim_casino st2) (sim_player_pool st2)).
Proof.
  intros Hr Hnd Htick.
  destruct (tick_Ok randint shuffle st events st2 Htick)
    as (ts & h & c & pool & g & after & Hplay & Hstep & Hheap2 & Hfin2 & Hts2
      & Hpool2 & Htime2).
  set (before := mkSim h (set_tables ts c) pool g (sim_time st + 10)) in *.
  exists before, after.
  assert (Hown : collect_all_players (sim_casino before) (sim_player_pool before)
      ≡ₚ collect_all_players (sim_casino st) (sim_player_pool st)).
  { unfold collect_all_players, before. cbn [sim_casino sim_player_pool].
    cbn [tables finished_players set_tables].
    apply (play_tables_owners _ _ _ _ _ _ _ _ _ _ _ Hplay). }
  assert (Hndb : NoDup (collect_all_players (sim_casino before) (sim_player_pool before))).
  { rewrite Hown. exact Hnd. }
  assert (Hndf : NoDup (finished_players (sim_casino before))).
  { unfold collect_all_players in Hndb.
    apply NoDup_app in Hndb as (_ & _ & Hndb).
    apply NoDup_app in Hndb as (_ & _ & Hndb). exact Hndb. }
  assert (Hcases :
      (sim_time before mod 1800 ≠ 0 → after = before)
      ∧ (sim_time before mod 1800 = 0 →
        after = mkSim (fst (fst (revive_players randint
              (finished_players (sim_casino before))
              (sim_heap before) [] (sim_rng before))))
        (set_finished_players [] (sim_casino before))
        (sim_player_pool before ++ finished_players (sim_casino before))
        (snd (revive_players randint
            (finished_players (sim_casino before))
            (sim_heap before) [] (sim_rng before)))
        (sim_time before))).
  { unfold revival_step in Hstep. split; intros Hmod.
    - destruct (Z.eqb_spec (sim_time before mod 1800) 0) as [H0|_]; [contradiction|].
      congruence.
    - destruct (Z.eqb_spec (sim_time before mod 1800) 0) as [_|Hn]; [|contradiction].
      rewrite revive_Ok in Hstep. congruence. }
  destruct Hcases as [Hskip Hfire].
  assert (Hown' : collect_all_players (sim_casino after) (sim_player_pool after)
      ≡ₚ collect_all_players (sim_casino before) (sim_player_pool before)).
  { destruct (Z.eq_dec (sim_time before mod 1800) 0) as [H0|Hn].
    - rewrite (Hfire H0). unfold collect_all_players.
      cbn [sim_casino sim_player_pool tables finished_players set_finished_players].
      rewrite app_nil_r. reflexivity.
    - rewrite (Hskip Hn). reflexivity. }
  split; [exists ts, h, c, pool, g; split; [exact Hplay|reflexivity]|].
  split; [exact Hstep|]. split; [exact Hndf|]. split; [exact Hskip|].
  split.
  { intros H0. specialize (Hfire H0).
    destruct (revive_players_spec randint (finished_players (sim_casino before))
        (sim_heap before) [] (sim_rng before) Hr) as [_ Hspec].
    rewrite Hfire. cbn [sim_casino sim_player_pool sim_heap].
    split; [reflexivity|]. split; [reflexivity|]. split; [reflexivity|].
    split.
    - intros p Hp. destruct (Hspec p) as (money & rounds & Heq & Hm & Hk).
      rewrite (times_in_NoDup p _ Hndf) in Hm, Hk.
      destruct (decide (p ∈ finished_players (sim_casino before))); [|contradiction].
      rewrite Heq. cbn [money_left rounds_left set_rounds_left set_money_left]. lia.
    - intros p Hp. destruct (Hspec p) as (money & rounds & Heq & Hm & Hk).
      rewrite (times_in_NoDup p _ Hndf) in Hm, Hk.
      destruct (decide (p ∈ finished_players (sim_casino before))); [contradiction|].
      rewrite Heq. replace money with 0 by lia. replace rounds with 0 by lia.
      apply Player_set_same. }
  split; [exact Hheap2|]. split; [exact Hfin2|].
  split; [rewrite Hpool2; apply fill_tables_pool|].
  split.
  { rewrite Htime2. destruct (Z.eq_dec (sim_time before mod 1800) 0) as [H0|Hn].
    - rewrite (Hfire H0). reflexivity.
    - rewrite (Hskip Hn). reflexivity. }
  unfold collect_all_players. rewrite Hts2, Hpool2, Hfin2, app_assoc.
  rewrite fill_tables_owners, <- app_assoc.
  fold (collect_all_players (sim_casino after) (sim_player_pool after)).
  rewrite Hown'. exact Hndb.
Qed.

(** The ownership invariant survives any number of ticks. *)
Lemma ticks_owners (n : nat) (st0 st : Sim G) :
  randint_in_range randint →
  NoDup (collect_all_players (sim_casino st0) (sim_player_pool st0)) →
  ticks randint shuffle n st0 = Ok st →
  NoDup (collect_all_players (sim_casino st) (sim_player_pool st))
  ∧ sim_time st = sim_time st0 + 10 * Z.of_nat n.
Proof.
  intros Hr. revert st0. induction n as [|n IH]; intros st0 Hnd; cbn [ticks].
  - intros [= <-]. split; [exact Hnd|lia].
  - destruct (tick randint shuffle st0) as [[events st1]|e] eqn:E; [|discriminate].
    cbn [mbind result_mbind result_bind]. intros Hn.
    destruct (tick_revival st0 events st1 Hr Hnd E)
      as (before & after & _ & _ & _ & _ & _ & _ & _ & _ & Htime & Hnd1).
    destruct (IH st1 Hnd1 Hn) as [Hnd' Ht]. split; [exact Hnd'|lia].
Qed.

(** C8. Take the simulation loop entered with every player held once
    (seated, waiting or finished), and any of its ticks.  Let [before]
    be the state when the tick reaches its half-hour test, the rounds
    played and the clock advanced by 10, and [after] the state behind
    it.  When the clock is not a multiple of 1800 nothing is revived.
    When it is, every player of the finished pool, and nobody else, has
    gained between 500 and 1000 in money and between 3 and 10 rounds,
    the finished pool is empty and its players stand at the tail of the
    waiting pool in their old order.  The refill that ends the tick
    takes players from the front of that pool, and every player is
    still held once. *)
Theorem revival_every_half_hour (st0 : Sim G) (n : nat) (st : Sim G)
    (events : list Event) (st2 : Sim G) :
  randint_in_range randint →
  NoDup (collect_all_players (sim_casino st0) (sim_player_pool st0)) →
  ticks randint shuffle n st0 = Ok st →
  tick randint shuffle st = Ok (events, st2) →
  sim_time st = sim_time st0 + 10 * Z.of_nat n
  ∧ ∃ before after : Sim G,
    (∃ ts h c pool g,
       play_tables randint shuffle (tables (sim_casino st)) (sim_heap st)
                   (sim_casino st) (sim_player_pool st) (sim_rng st)
       = Ok (events, ts, h, c, pool, g)
       ∧ before = mkSim h (set_tables ts c) pool g (sim_time st + 10))
    ∧ revival_step randint before = Ok after
    ∧ NoDup (finished_players (sim_casino before))
    ∧ (sim_time before mod 1800 ≠ 0 → after = before)
    ∧ (sim_time before mod 1800 = 0 →
       finished_players (sim_casino after) = []
       ∧ sim_player_pool after
         = sim_player_pool before ++ finished_players (sim_casino before)
       ∧ tables (sim_casino after) = tables (sim_casino before)
       ∧ (∀ p, p ∈ finished_players (sim_casino before) →
            500 ≤ money_left (sim_heap after p) - money_left (sim_heap before p) ≤ 1000
            ∧ 3 ≤ rounds_left (sim_heap after p) - rounds_left (sim_heap before p) ≤ 10
            ∧ money_left (sim_heap before p) < money_left (sim_heap after p)
            ∧ rounds_left (sim_heap before p) < rounds_left (sim_heap after p))
       ∧ (∀ p, p ∉ finished_players (sim_casino before) →
            sim_heap after p = sim_heap before p))
    ∧ sim_heap st2 = sim_heap after
    ∧ finished_players (sim_casino st2) = finished_players (sim_casino after)
    ∧ (∃ k, sim_player_pool st2 = drop k (sim_player_pool after))
    ∧ sim_time st2 = sim_time st + 10
    ∧ NoDup (collect_all_players (sim_casino st2) (sim_player_pool st2)).
Proof.
  intros Hr Hnd0 Hn Htick.
  destruct (ticks_owners n st0 st Hr Hnd0 Hn) as [Hnd Htime].
  split; [exact Htime|]. exact (tick_revival st events st2 Hr Hnd Htick).
Qed.

End RevivalClaims.

(** ** A tick at the half hour *)

Lemma sample_sim_owners :
  NoDup (collect_all_players (sim_casino sample_sim) (sim_player_pool sample_sim)).
Proof. apply (bool_decide_unpack _). vm_compute. exact I. Qed.

Lemma revival_every_half_hour_witness :
  ∃ events st2,
    randint_in_range counting_randint
    ∧ NoDup (collect_all_players (sim_casino sample_sim) (sim_player_pool sample_sim))
    ∧ ticks counting_randint reversing_shuffle 0 sample_sim = Ok sample_sim
    ∧ tick counting_randint reversing_shuffle sample_sim = Ok (events, st2)
    ∧ sim_time st2 = 1800
    ∧ finished_players (sim_casino st2) = [].
Proof.
  destruct (tick counting_randint reversing_shuffle sample_sim)
    as [[events st2]|e] eqn:E; [|discriminate E].
  exists events, st2.
  split; [exact counting_randint_in_range|].
  split; [exact sample_sim_owners|]. split; [reflexivity|]. split; [reflexivity|].
  destruct (revival_every_half_hour counting_randint reversing_shuffle sample_sim
              0 sample_sim events st2 counting_randint_in_range sample_sim_owners
              eq_refl E)
    as (_ & before & after & (ts & h & c & pool & g & _ & Hbefore) & _ & _ & _ & Hfire
        & _ & Hfin & _ & Htime & _).
  split; [exact Htime|].
  rewrite Hfin. apply Hfire. rewrite Hbefore. reflexivity.
Defined.

(** ** Seat positions *)

(** A table is well formed exactly when its seats carry the indices
    [0, 1, ...] in order. *)
Lemma Table_wf_indices (t : Table) :
  Table_wf t ↔ map seat_index (seats_list t) = seq 0 (length (seats_list t)).
Proof.
  unfold Table_wf. split.
  - intros H. apply list_eq. intros i.
    rewrite list_lookup_fmap.
    destruct (seats_list t !! i) as [seat|] eqn:E; simpl.
    + rewrite (H i seat E). symmetry. apply lookup_seq.
      split; [reflexivity|]. eapply lookup_lt_Some; eauto.
    + symmetry. apply lookup_seq_ge. apply lookup_ge_None. exact E.
  - intros H i seat E.
    assert (map seat_index (seats_list t) !! i = Some (seat_index seat)) as E1.
    { rewrite list_lookup_fmap, E. reflexivity. }
    rewrite H in E1. apply lookup_seq in E1. lia.
Qed.

Lemma map_evict_seat_index (h : Heap) (seats : list Seat) :
  map seat_index (map (evict_seat h) seats) = map seat_index seats.
Proof.
  rewrite map_map. apply map_ext. intros seat. apply evict_seat_index.
Qed.

Lemma fill_seats_index (seats : list Seat) (pool : list ref) :
  map seat_index (fst (fill_seats seats pool)) = map seat_index seats.
Proof.
  destruct (fill_seats_spec seats pool) as (Hlen & _ & Hseats).
  apply list_eq. intros i. rewrite !list_lookup_fmap.
  destruct (seats !! i) as [seat|] eqn:E.
  - rewrite (Hseats i seat E). simpl. rewrite refill_seat_index. reflexivity.
  - apply lookup_ge_None in E.
    rewrite (proj2 (lookup_ge_None _ _)); [reflexivity|lia].
Qed.

Lemma empty_seats_occupied (seats : list Seat) :
  (empty_seats seats + occupied seats = length seats)%nat.
Proof.
  induction seats as [|seat seats IH]; [reflexivity|].
  rewrite empty_seats_cons, occupied_cons. simpl length.
  destruct (player seat); lia.
Qed.

Lemma empty_seats_0 (seats : list Seat) :
  empty_seats seats = 0%nat ↔ Forall (λ seat, is_Some (player seat)) seats.
Proof.
  induction seats as [|seat seats IH].
  - split; [constructor|reflexivity].
  - rewrite empty_seats_cons, Forall_cons. destruct (player seat) as [p|].
    + rewrite IH. split; [intros H; split; [eauto|exact H]|intros [_ H]; exact H].
    + split; [discriminate|]. intros [[x Hx] _]. discriminate.
Qed.

(** Refill, seen through the counts. *)
Lemma fill_seats_empty (seats : list Seat) (pool : list ref) :
  empty_seats (fst (fill_seats seats pool)) = (empty_seats seats - length pool)%nat.
Proof.
  revert pool. induction seats as [|seat seats IH]; intros pool; simpl.
  - reflexivity.
  - rewrite (empty_seats_cons seat).
    destruct (player seat) as [p|] eqn:Ep.
    + specialize (IH pool). destruct (fill_seats seats pool) as [rest' pool'].
      simpl in *. rewrite empty_seats_cons, Ep. exact IH.
    + destruct pool as [|p pool].
      * specialize (IH []). destruct (fill_seats seats []) as [rest' pool'].
        simpl in *. rewrite empty_seats_cons, Ep. lia.
      * specialize (IH pool). destruct (fill_seats seats pool) as [rest' pool'].
        simpl in *. rewrite empty_seats_cons. simpl. exact IH.
Qed.

Lemma fill_seats_fixed (seats : list Seat) (pool : list ref) :
  empty_seats seats = 0%nat ∨ pool = [] →
  fill_seats seats pool = (seats, pool).
Proof.
  revert pool. induction seats as [|seat seats IH]; intros pool H; simpl.
  - reflexivity.
  - rewrite empty_seats_cons in H.
    destruct (player seat) as [p|] eqn:Ep.
    + rewrite (IH pool H). reflexivity.
    + destruct H as [H| ->]; [discriminate|].
      rewrite (IH [] (or_intror eq_refl)). reflexivity.
Qed.

Lemma fill_seats_keeps (seats : list Seat) (pool : list ref) (i : nat) (seat : Seat) :
  seats !! i = Some seat → is_Some (player seat) →
  fst (fill_seats seats pool) !! i = Some seat.
Proof.
  intros E [p Hp].
  destruct (fill_seats_spec seats pool) as (_ & _ & Hseats).
  rewrite (Hseats i seat E). unfold refill_seat. rewrite Hp. reflexivity.
Qed.

Lemma set_seats_list_same (t : Table) : set_seats_list (seats_list t) t = t.
Proof. destruct t. reflexivity. Qed.

(** X2. [fill_empty_seats] stops only when the table is full or the
    pool is empty.  It takes as many players from the front of the pool
    as there are empty seats (the whole pool when it is smaller), keeps
    every seated player in their seat and every seat's index, and a
    second call on its result changes nothing. *)
Theorem fill_empty_seats_saturates (t : Table) (player_pool : list ref) :
  let t' := fst (fill_empty_seats t player_pool) in
  let pool' := snd (fill_empty_seats t player_pool) in
  (empty_seats (seats_list t') = 0%nat ∨ pool' = [])
  ∧ empty_seats (seats_list t')
    = (empty_seats (seats_list t) - length player_pool)%nat
  ∧ pool' = drop (empty_seats (seats_list t)) player_pool
  ∧ seated (seats_list t')
    ≡ₚ seated (seats_list t) ++ take (empty_seats (seats_list t)) player_pool
  ∧ (∀ i seat, seats_list t !! i = Some seat → is_Some (player seat) →
       seats_list t' !! i = Some seat)
  ∧ map seat_index (seats_list t') = map seat_index (seats_list t)
  ∧ fill_empty_seats t' pool' = (t', pool').
Proof.
  intros t' pool'. subst t' pool'. unfold fill_empty_seats.
  pose proof (fill_seats_spec (seats_list t) player_pool) as (Hlen & Hpool & Hseats).
  pose proof (fill_seats_empty (seats_list t) player_pool) as Hempty.
  pose proof (fill_seats_perm (seats_list t) player_pool) as Hperm.
  pose proof (fill_seats_index (seats_list t) player_pool) as Hidx.
  pose proof (fill_seats_keeps (seats_list t) player_pool) as Hkeep.
  destruct (fill_seats (seats_list t) player_pool) as [seats pool'] eqn:E.
  cbn [fst snd seats_list set_seats_list] in *.
  assert (empty_seats seats = 0%nat ∨ pool' = []) as Hsat.
  { rewrite Hempty, Hpool.
    destruct (decide (empty_seats (seats_list t) ≤ length player_pool)%nat).
    - left. lia.
    - right. apply drop_ge. lia. }
  split; [exact Hsat|]. split; [exact Hempty|]. split; [exact Hpool|].
  split.
  { apply (Permutation_app_inv_r pool'). rewrite Hperm, Hpool.
    rewrite <- app_assoc, take_drop. reflexivity. }
  split; [exact Hkeep|]. split; [exact Hidx|].
  rewrite (fill_seats_fixed seats pool' Hsat). cbn [set_seats_list seats_list].
  destruct t; reflexivity.
Qed.

Lemma Table_init_lookup (tid n : Z) (i : nat) :
  (i < Z.to_nat n)%nat →
  seats_list (Table_init tid n) !! i = Some (mkSeat i None).
Proof.
  intros Hi. unfold Table_init. cbn [seats_list].
  rewrite list_lookup_fmap, (proj2 (lookup_seq 0 _ i i)); [reflexivity|]. lia.
Qed.

Lemma empty_seats_all_empty (seats : list Seat) :
  Forall (λ seat, player seat = None) seats → empty_seats seats = length seats.
Proof.
  induction 1 as [|seat seats H _ IH]; [reflexivity|].
  rewrite empty_seats_cons, H. simpl. lia.
Qed.

Lemma Table_init_empty (tid n : Z) :
  Forall (λ seat, player seat = None) (seats_list (Table_init tid n)).
Proof.
  unfold Table_init. cbn [seats_list]. apply Forall_forall. intros seat H.
  apply list_elem_of_fmap in H as (i & -> & _). reflexivity.
Qed.

Lemma Table_init_length (tid n : Z) :
  length (seats_list (Table_init tid n)) = Z.to_nat n.
Proof. unfold Table_init. cbn [seats_list]. rewrite length_map, length_seq. reflexivity. Qed.

Lemma seated_nil_empty (seats : list Seat) :
  seated seats = [] ↔ Forall (λ seat, player seat = None) seats.
Proof.
  induction seats as [|seat seats IH].
  - split; [constructor|reflexivity].
  - rewrite seated_cons, Forall_cons. destruct (player seat) as [p|].
    + split; [discriminate|]. intros [H _]. discriminate.
    + rewrite IH. tauto.
Qed.

Lemma fill_seats_all_empty (seats : list Seat) (pool : list ref) :
  Forall (λ seat, player seat = None) seats →
  seated (fst (fill_seats seats pool)) = take (length seats) pool
  ∧ snd (fill_seats seats pool) = drop (length seats) pool.
Proof.
  intros H. revert pool. induction H as [|seat seats Hp _ IH]; intros pool.
  - rewrite take_0, drop_0. auto.
  - cbn [fill_seats length]. rewrite Hp. destruct pool as [|p pool].
    + destruct (IH []) as [I1 I2].
      destruct (fill_seats seats []) as [rest' pool']. cbn [fst snd] in *.
      rewrite seated_cons, Hp, I1, I2, take_nil, !drop_nil. auto.
    + destruct (IH pool) as [I1 I2].
      destruct (fill_seats seats pool) as [rest' pool']. cbn [fst snd] in *.
      rewrite seated_cons. cbn [player take drop]. rewrite I1, I2. auto.
Qed.

Lemma evict_all_empty (h : Heap) (seats : list Seat) :
  Forall (λ seat, player seat = None) seats → map (evict_seat h) seats = seats.
Proof.
  induction 1 as [|seat seats Hp _ IH]; [reflexivity|].
  simpl. rewrite IH. unfold evict_seat. rewrite Hp. reflexivity.
Qed.

(** X1. [Table.__init__] and the first [fill_empty_seats].  A new table
    has the given id and seat count, is at round 1 and has one empty
    seat for each index below [num_seats] (none when [num_seats] is 0
    or less).  Filling it seats the first [num_seats] waiting players
    in the order of the pool, seat [i] getting the [i]-th of them (a
    seat past the end of the pool stays empty), and leaves the others
    waiting. *)
Theorem new_table_seats_pool_in_order (tid n : Z) (player_pool : list ref) :
  let t := Table_init tid n in
  let t' := fst (fill_empty_seats t player_pool) in
  (table_id t = tid ∧ num_seats t = n ∧ current_round_number t = 1)
  ∧ length (seats_list t) = Z.to_nat n
  ∧ (n ≤ 0 → seats_list t = [])
  ∧ Table_wf t
  ∧ seated (seats_list t) = []
  ∧ length (seats_list t') = Z.to_nat n
  ∧ (∀ i, (i < Z.to_nat n)%nat →
       seats_list t' !! i = Some (mkSeat i (player_pool !! i)))
  ∧ seated (seats_list t') = take (Z.to_nat n) player_pool
  ∧ snd (fill_empty_seats t player_pool) = drop (Z.to_nat n) player_pool.
Proof.
  intros t t'. subst t t'.
  pose proof (Table_init_length tid n) as Hlen.
  pose proof (Table_init_empty tid n) as Hemp.
  pose proof (empty_seats_all_empty _ Hemp) as Hcount. rewrite Hlen in Hcount.
  assert (∀ i, (i ≤ Z.to_nat n)%nat →
            empty_seats (take i (seats_list (Table_init tid n))) = i) as Htake.
  { intros i Hi. rewrite empty_seats_all_empty.
    - rewrite length_take. lia.
    - apply Forall_take. exact Hemp. }
  assert (∀ i, (i < Z.to_nat n)%nat →
       seats_list (fst (fill_empty_seats (Table_init tid n) player_pool)) !! i
       = Some (mkSeat i (player_pool !! i))) as Hseat.
  { intros i Hi. unfold fill_empty_seats.
    destruct (fill_seats_spec (seats_list (Table_init tid n)) player_pool)
      as (_ & _ & Hseats).
    destruct (fill_seats _ player_pool) as [seats pool']. cbn [fst snd seats_list set_seats_list] in *.
    rewrite (Hseats i _ (Table_init_lookup tid n i Hi)).
    unfold refill_seat. cbn [player seat_index]. rewrite Htake by lia. reflexivity. }
  assert (length (seats_list (fst (fill_empty_seats (Table_init tid n) player_pool)))
          = Z.to_nat n) as Hlen'.
  { unfold fill_empty_seats.
    destruct (fill_seats_spec (seats_list (Table_init tid n)) player_pool) as (Hl & _).
    destruct (fill_seats _ player_pool) as [seats pool']. cbn [fst snd seats_list set_seats_list] in *.
    lia. }
  split; [split; [reflexivity|split; reflexivity]|].
  split; [exact Hlen|].
  split. { intros Hn. apply length_zero_iff_nil. rewrite Hlen. lia. }
  split; [apply Table_init_wf|].
  split.
  { apply seated_nil_empty. exact Hemp. }
  split; [exact Hlen'|]. split; [exact Hseat|].
  split.
  { unfold fill_empty_seats.
    destruct (fill_seats_all_empty _ player_pool Hemp) as [H _].
    destruct (fill_seats _ player_pool) as [seats pool']. cbn [fst seats_list set_seats_list] in *.
    rewrite H, Hlen. reflexivity. }
  unfold fill_empty_seats.
  destruct (fill_seats_spec (seats_list (Table_init tid n)) player_pool) as (_ & Hp & _).
  destruct (fill_seats _ player_pool) as [seats pool']. cbn [fst snd] in *.
  rewrite Hp, Hcount. reflexivity.
Qed.

(** ** Eviction *)


Lemma filter_none {A} (P : A → Prop) `{∀ x, Decision (P x)} (l : list A) :
  Forall (λ x, ¬ P x) l → filter P l = [].
Proof.
  induction 1 as [|x l Hx _ IH]; [reflexivity|].
  rewrite filter_cons. destruct (decide (P x)); [contradiction|exact IH].
Qed.

Lemma filter_all {A} (P : A → Prop) `{∀ x, Decision (P x)} (l : list A) :
  Forall P l → filter P l = l.
Proof.
  induction 1 as [|x l Hx _ IH]; [reflexivity|].
  rewrite filter_cons. destruct (decide (P x)); [rewrite IH; reflexivity|contradiction].
Qed.


(** ** The table through a round *)

Lemma remove_finished_players_shape (h : Heap) (t : Table) (c : Casino) :
  let t' := fst (remove_finished_players h t c) in
  table_id t' = table_id t ∧ num_seats t' = num_seats t
  ∧ current_round_number t' = current_round_number t
  ∧ map seat_index (seats_list t') = map seat_index (seats_list t).
Proof.
  unfold remove_finished_players. rewrite remove_finished_seats_spec.
  cbn [fst seats_list set_seats_list table_id num_seats current_round_number].
  rewrite map_evict_seat_index. auto.
Qed.

Lemma fill_empty_seats_shape (t : Table) (pool : list ref) :
  let t' := fst (fill_empty_seats t pool) in
  table_id t' = table_id t ∧ num_seats t' = num_seats t
  ∧ current_round_number t' = current_round_number t
  ∧ map seat_index (seats_list t') = map seat_index (seats_list t).
Proof.
  unfold fill_empty_seats.
  pose proof (fill_seats_index (seats_list t) pool) as H.
  destruct (fill_seats (seats_list t) pool) as [seats pool'].
  cbn [fst seats_list set_seats_list table_id num_seats current_round_number] in *.
  auto.
Qed.

Lemma Table_wf_same_indices (t t' : Table) :
  map seat_index (seats_list t') = map seat_index (seats_list t) →
  Table_wf t → Table_wf t'.
Proof.
  intros H. rewrite !Table_wf_indices, H.
  intros ->. f_equal.
  rewrite <- (length_map seat_index (seats_list t')), H, length_map. reflexivity.
Qed.

Section RoundShape.

Context {G : Type}.
Context (randint : Z → Z → G → Z * G).
Context (shuffle : list Card → G → list Card * G).

Lemma play_round_shape (h : Heap) (c : Casino) (t : Table) (pool : list ref)
    (g : G) (rd : Round G) :
  play_round randint shuffle h c t pool g = Ok rd →
  table_id (rd_table rd) = table_id t
  ∧ num_seats (rd_table rd) = num_seats t
  ∧ current_round_number (rd_table rd) = current_round_number t + 1
  ∧ map seat_index (seats_list (rd_table rd)) = map seat_index (seats_list t).
Proof.
  intros E. apply play_round_Ok in E
    as (deck & g1 & bets & hands0 & deck1 & dealer0 & deck2 & hands1 & deck3 & c1
        & dealer & deck4 & h1 & c2 & rs & _ & _ & _ & _ & _ & _ & _ & _ & _ & Ht & _).
  rewrite Ht. cbv zeta.
  cbn [table_id num_seats current_round_number seats_list set_current_round_number].
  destruct (remove_finished_players_shape (rd_heap rd) t c2) as (A1 & A2 & A3 & A4).
  destruct (fill_empty_seats_shape (fst (remove_finished_players (rd_heap rd) t c2)) pool)
    as (B1 & B2 & B3 & B4).
  cbv zeta in *. rewrite B1, B2, B3, B4, A1, A2, A3, A4. auto.
Qed.

(** X4. A completed [play_round] keeps the table's id, its seat count,
    the number of its seats and their indices (so a table whose seats
    carry their own positions stays so), and moves its round number up
    by one.  The event carries the table's id, the round number the
    round was played under and one [seats_after] entry per seat, in seat
    order.  The casino's name is not touched.  (The table after the
    round is [rd_table]; [tick] installs it in the casino's list.) *)
Theorem play_round_keeps_table_shape (h : Heap) (c : Casino) (t : Table)
    (pool : list ref) (g : G) (rd : Round G) :
  play_round randint shuffle h c t pool g = Ok rd →
  (table_id (rd_table rd) = table_id t ∧ num_seats (rd_table rd) = num_seats t)
  ∧ length (seats_list (rd_table rd)) = length (seats_list t)
  ∧ map seat_index (seats_list (rd_table rd)) = map seat_index (seats_list t)
  ∧ (Table_wf t → Table_wf (rd_table rd))
  ∧ current_round_number (rd_table rd) = current_round_number t + 1
  ∧ ev_table_id (rd_event rd) = table_id t
  ∧ ev_round_num (rd_event rd) = current_round_number t
  ∧ map sa_seat (ev_seats_after (rd_event rd)) = map seat_index (seats_list t)
  ∧ casino_name (rd_casino rd) = casino_name c.
Proof.
  intros E. pose proof (play_round_shape h c t pool g rd E) as (S1 & S2 & S3 & S4).
  apply play_round_Ok in E
    as (deck & g1 & bets & hands0 & deck1 & dealer0 & deck2 & hands1 & deck3 & c1
        & dealer & deck4 & h1 & c2 & rs & _ & _ & _ & _ & E4 & _ & E6 & _ & Hc & _ & _ & Hev).
  split; [auto|].
  split. { rewrite <- (length_map seat_index), S4, length_map. reflexivity. }
  split; [exact S4|].
  split; [apply Table_wf_same_indices; exact S4|].
  split; [exact S3|].
  rewrite Hev. cbn [ev_table_id ev_round_num ev_seats_after].
  split; [reflexivity|]. split; [reflexivity|].
  split.
  { rewrite <- S4. unfold seats_after. rewrite map_map. apply map_ext.
    intros seat. destruct (player seat); reflexivity. }
  rewrite Hc. unfold remove_finished_players.
  destruct (remove_finished_seats _ _ _) as [seats fin]. cbn [snd casino_name set_finished_players].
  apply settle_hands_Ok in E6 as (_ & _ & -> & _).
  apply players_act_Ok in E4 as (_ & -> & _). reflexivity.
Qed.

End RoundShape.

(** ** The event of a round *)

Lemma house_delta_cases (pt dt bet : Z) :
  house_delta pt dt bet = bet ∨ house_delta pt dt bet = - bet
  ∨ house_delta pt dt bet = 0.
Proof.
  unfold house_delta.
  destruct (21 <? pt); [auto|]. destruct (21 <? dt); [auto|].
  destruct (dt <? pt); [auto|]. destruct (pt <? dt); auto.
Qed.

Lemma outcome_of_ok (pt dt bet : Z) :
  10 ≤ bet ≤ 100 → history_entry_ok (outcome_of pt dt bet).
Proof.
  intros Hb. unfold outcome_of, history_entry_ok.
  destruct (21 <? pt); [left; auto|]. destruct (21 <? dt); [left; auto|].
  destruct (dt <? pt); [left; auto|]. destruct (pt <? dt); [left; auto|].
  right. reflexivity.
Qed.

Lemma sumZ_bound (b : Z) (l : list Z) :
  Forall (λ x, - b ≤ x ≤ b) l →
  - b * Z.of_nat (length l) ≤ sumZ l ≤ b * Z.of_nat (length l).
Proof.
  induction 1 as [|x l Hx _ IH]; [simpl; lia|].
  cbn [sumZ foldr length] in *. fold (sumZ l). lia.
Qed.

Lemma item_delta_bound (bets : dict Z) (dt : Z) (item : nat * list Card) :
  Forall (λ kv, 10 ≤ snd kv ≤ 100) bets →
  - 100 ≤ item_delta bets dt item ≤ 100.
Proof.
  intros Hb. unfold item_delta.
  destruct (dict_get (fst item) bets) as [bet|] eqn:E; [|lia].
  apply dict_get_elem_of in E.
  pose proof (proj1 (Forall_forall _ _) Hb _ E) as Hbet. simpl in Hbet.
  destruct (house_delta_cases (hand_total (snd item)) dt bet) as [->|[->| ->]]; lia.
Qed.

Lemma identity_settle_item (t : Table) (bets : dict Z) (dt : Z) (r : ref)
    (items : dict (list Card)) (q : Player) :
  identity (fold_left (settle_item t bets dt r) items q) = identity q.
Proof.
  revert q. induction items as [|item items IH]; intros q; simpl; [reflexivity|].
  rewrite IH. unfold settle_item.
  destruct (seat_player t (fst item)); [|reflexivity].
  destruct (dict_get (fst item) bets); [|reflexivity].
  destruct (decide (r = r0)); reflexivity.
Qed.

Lemma history_settle_item_ok (t : Table) (bets : dict Z) (dt : Z) (r : ref)
    (items : dict (list Card)) (q : Player) :
  Forall (λ kv, 10 ≤ snd kv ≤ 100) bets →
  Forall history_entry_ok (history q) →
  Forall history_entry_ok (history (fold_left (settle_item t bets dt r) items q)).
Proof.
  intros Hb. revert q. induction items as [|item items IH]; intros q Hq; simpl;
    [exact Hq|].
  apply IH. unfold settle_item.
  destruct (seat_player t (fst item)) as [p|]; [|exact Hq].
  destruct (dict_get (fst item) bets) as [bet|] eqn:E; [|exact Hq].
  destruct (decide (r = p)); [|exact Hq].
  rewrite history_settle_player. apply Forall_drop, Forall_app. split; [exact Hq|].
  constructor; [|constructor]. apply outcome_of_ok.
  apply dict_get_elem_of in E.
  exact (proj1 (Forall_forall _ _) Hb _ E).
Qed.

Lemma set_rounds_left_same (q : Player) :
  set_rounds_left (rounds_left q - 0) q = q.
Proof. destruct q. unfold set_rounds_left. simpl. rewrite Z.sub_0_r. reflexivity. Qed.

Lemma seated_lookup (seats : list Seat) (p : ref) :
  p ∈ seated seats ↔ ∃ i seat, seats !! i = Some seat ∧ player seat = Some p.
Proof.
  unfold seated. rewrite list_elem_of_omap. split.
  - intros (seat & Hin & Hp). apply list_elem_of_lookup in Hin as [i Hi]. eauto.
  - intros (i & seat & Hi & Hp). exists seat. split; [|exact Hp].
    eapply list_elem_of_lookup_2. exact Hi.
Qed.

Section RoundEvent.

Context {G : Type}.
Context (randint : Z → Z → G → Z * G).
Context (shuffle : list Card → G → list Card * G).

Lemma generate_bets_key_list (seats : list Seat) (bets : dict Z) (g : G) :
  NoDup (dict_keys bets ++ occupied_indices seats) →
  dict_keys (fst (generate_bets randint seats bets g))
  = dict_keys bets ++ occupied_indices seats.
Proof.
  revert bets g. induction seats as [|seat seats IH]; intros bets g Hnd; simpl.
  - unfold occupied_indices. simpl. rewrite app_nil_r. reflexivity.
  - rewrite occupied_indices_cons in Hnd |- *.
    destruct (player seat) as [p|]; [|apply IH; exact Hnd].
    destruct (randint 10 100 g) as [bet g1].
    assert (Hfresh : seat_index seat ∉ dict_keys bets).
    { apply NoDup_app in Hnd as (_ & Hdisj & _). intros Hin.
      apply (Hdisj _ Hin). left. }
    rewrite IH; rewrite dict_set_fresh by exact Hfresh; unfold dict_keys;
      rewrite map_app; simpl; rewrite <- app_assoc; [reflexivity|exact Hnd].
Qed.

(** The bets, the hands and the results of a round at a well-formed
    table, and the store and the profit it leaves. *)
Lemma play_round_settled (h : Heap) (c : Casino) (t : Table) (pool : list ref)
    (g : G) (rd : Round G) :
  play_round randint shuffle h c t pool g = Ok rd →
  let bets := ev_initial_bets (rd_event rd) in
  let dt := hand_total (ev_dealer_hand (rd_event rd)) in
  let items := ev_hands (rd_event rd) in
  bets = fst (generate_bets randint (seats_list t) []
                (snd (shuffle_deck shuffle (Deck_init 20) g)))
  ∧ Forall (λ item, is_Some (seat_player t (fst item))
                    ∧ is_Some (dict_get (fst item) bets)) items
  ∧ (length items ≤ occupied (seats_list t))%nat
  ∧ (Table_wf t → dict_keys items = occupied_indices (seats_list t))
  ∧ ev_results (rd_event rd) = map (item_result t h bets dt) items
  ∧ (∀ r, rd_heap rd r
          = set_rounds_left
              (rounds_left (h r) - Z.of_nat (seats_held r (seats_list t)))
              (fold_left (settle_item t bets dt r) items (h r)))
  ∧ casino_profit (rd_casino rd)
    = casino_profit c + sumZ (map (item_delta bets dt) items)
  ∧ ev_profit_delta (rd_event rd) = sumZ (map (item_delta bets dt) items)
  ∧ total_hands_played (rd_casino rd)
    = total_hands_played c + Z.of_nat (length items).
Proof.
  intros E. apply play_round_Ok in E
    as (deck & g1 & bets & hands0 & deck1 & dealer0 & deck2 & hands1 & deck3 & c1
        & dealer & deck4 & h1 & c2 & rs & E0 & E1 & E2 & E3 & E4 & E5 & E6
        & Hh & Hc & Ht & Hp & Hev).
  rewrite Hev. cbn [ev_initial_bets ev_dealer_hand ev_hands ev_results ev_profit_delta].
  cbv zeta.
  apply settle_hands_Ok in E6 as (Hfound & Hheap & Hc2 & Hprofit & Hrs).
  apply players_act_Ok in E4 as (Hkeys & Hc1 & Hn & Hgrown & _).
  apply deal_players_Ok in E2 as (_ & _ & _ & Hl0 & Hk0).
  assert (length hands1 = length hands0) as Hlen.
  { rewrite <- (length_map fst hands1), <- (length_map fst hands0).
    unfold dict_keys in Hkeys. rewrite Hkeys. reflexivity. }
  assert (casino_profit (rd_casino rd)
          = casino_profit c + sumZ (map (item_delta bets (hand_total dealer)) hands1))
    as Hprof.
  { rewrite Hc. unfold remove_finished_players.
    destruct (remove_finished_seats _ _ _) as [seats fin].
    cbn [snd casino_profit set_finished_players]. rewrite Hprofit, Hc1. reflexivity. }
  split. { rewrite E0. cbn [snd]. rewrite E1. reflexivity. }
  split; [exact Hfound|].
  split. { simpl in Hl0. lia. }
  split.
  { intros Hwf. rewrite Hkeys. apply Hk0. simpl.
    apply (wf_occupied_indices t Hwf). }
  split; [exact Hrs|].
  split. { intros r. rewrite Hh, decrement_rounds_spec, Hheap, settle_item_rounds_left. reflexivity. }
  split; [exact Hprof|].
  split; [lia|].
  rewrite Hc. unfold remove_finished_players.
  destruct (remove_finished_seats _ _ _) as [seats fin].
  cbn [snd total_hands_played set_finished_players].
  rewrite Hc2. cbn [total_hands_played set_casino_profit]. rewrite Hn, Hlen.
  reflexivity.
Qed.

(** X5. In the event of a round at a table whose seats carry their own
    positions, the bets, the hands and the results each have one entry
    per occupied seat, in seat order.  Every bet is between 10 and 100;
    every result carries the first name of the player of its seat, and
    its money delta is the seat's bet, its negation or 0; the profit of
    the house in the round is at most 100 per occupied seat, either
    way. *)
Theorem round_event_layout (h : Heap) (c : Casino) (t : Table)
    (pool : list ref) (g : G) (rd : Round G) :
  randint_in_range randint →
  Table_wf t →
  play_round randint shuffle h c t pool g = Ok rd →
  let ev := rd_event rd in
  dict_keys (ev_initial_bets ev) = occupied_indices (seats_list t)
  ∧ dict_keys (ev_hands ev) = occupied_indices (seats_list t)
  ∧ map res_seat_index (ev_results ev) = occupied_indices (seats_list t)
  ∧ length (ev_results ev) = occupied (seats_list t)
  ∧ Forall (λ kv, 10 ≤ snd kv ≤ 100) (ev_initial_bets ev)
  ∧ Forall (λ res,
              ∃ p bet,
                seat_player t (res_seat_index res) = Some p
                ∧ dict_get (res_seat_index res) (ev_initial_bets ev) = Some bet
                ∧ res_player_name res = first_name (h p)
                ∧ (res_money_delta res = bet ∨ res_money_delta res = - bet
                   ∨ res_money_delta res = 0))
           (ev_results ev)
  ∧ - 100 * Z.of_nat (occupied (seats_list t)) ≤ ev_profit_delta ev
    ≤ 100 * Z.of_nat (occupied (seats_list t)).
Proof.
  intros Hr Hwf E. cbv zeta.
  pose proof (play_round_settled h c t pool g rd E)
    as (Hbets & Hfound & Hlen & Hkeys & Hrs & _ & _ & Hdelta & _).
  cbv zeta in *. specialize (Hkeys Hwf).
  set (bets := ev_initial_bets (rd_event rd)) in *.
  set (items := ev_hands (rd_event rd)) in *.
  set (dt := hand_total (ev_dealer_hand (rd_event rd))) in *.
  assert (Forall (λ kv, 10 ≤ snd kv ≤ 100) bets) as Hrange.
  { rewrite Hbets. apply generate_bets_range; [exact Hr|constructor]. }
  assert (length items = occupied (seats_list t)) as Hcount.
  { rewrite <- occupied_indices_length, <- Hkeys. unfold dict_keys.
    rewrite length_map. reflexivity. }
  split.
  { rewrite Hbets. rewrite generate_bets_key_list; [reflexivity|].
    simpl. apply (wf_occupied_indices t Hwf). }
  split; [exact Hkeys|].
  split. { rewrite Hrs, map_map. exact Hkeys. }
  split. { rewrite Hrs, length_map. exact Hcount. }
  split; [exact Hrange|].
  split.
  { rewrite Hrs. apply Forall_fmap. eapply Forall_impl; [exact Hfound|].
    intros item [[p Hp] [bet Hbet]]. exists p, bet.
    unfold item_result, item_delta. cbn [res_seat_index res_player_name res_money_delta].
    rewrite Hp, Hbet. split; [reflexivity|]. split; [reflexivity|].
    split; [reflexivity|]. apply house_delta_cases. }
  rewrite Hdelta, <- Hcount, <- (length_map (item_delta bets dt) items).
  pose proof (sumZ_bound 100 (map (item_delta bets dt) items)) as Hsum.
  cbv beta in Hsum. apply Hsum. clear Hsum.
  apply Forall_fmap, Forall_forall. intros item _.
  apply item_delta_bound. exact Hrange.
Qed.

Lemma play_round_unseated (h : Heap) (c : Casino) (t : Table) (pool : list ref)
    (g : G) (rd : Round G) (r : ref) :
  play_round randint shuffle h c t pool g = Ok rd →
  r ∉ seated (seats_list t) → rd_heap rd r = h r.
Proof.
  intros E Hnot.
  pose proof (play_round_settled h c t pool g rd E) as (_ & _ & _ & _ & _ & Hheap & _).
  cbv zeta in Hheap. rewrite Hheap, seats_held_none by exact Hnot.
  rewrite fold_settle_item_other; [apply set_rounds_left_same|].
  intros k _ Hk. apply Hnot. eapply seat_player_seated. exact Hk.
Qed.

Lemma play_round_seated (h : Heap) (c : Casino) (t : Table) (pool : list ref)
    (g : G) (rd : Round G) (r : ref) :
  randint_in_range randint →
  Table_wf t → NoDup (seated (seats_list t)) →
  play_round randint shuffle h c t pool g = Ok rd →
  r ∈ seated (seats_list t) →
  rounds_left (rd_heap rd r) = rounds_left (h r) - 1
  ∧ (money_left (rd_heap rd r) = money_left (h r)
     ∨ 10 ≤ Z.abs (money_left (rd_heap rd r) - money_left (h r)) ≤ 100).
Proof.
  intros Hr Hwf Hnd E Hin.
  pose proof (play_round_settled h c t pool g rd E) as (Hbets & _).
  cbv zeta in Hbets.
  assert (Forall (λ kv, 10 ≤ snd kv ≤ 100) (ev_initial_bets (rd_event rd))) as Hrange.
  { rewrite Hbets. apply generate_bets_range; [exact Hr|constructor]. }
  apply seated_lookup in Hin as (i & seat & Hi & Hp).
  destruct (seat_settlement randint shuffle h c t pool g rd i seat r Hwf Hnd E Hi Hp)
    as (bet & hand & Hbet & Hhand & Hrd & _).
  apply dict_get_elem_of in Hbet.
  pose proof (proj1 (Forall_forall _ _) Hrange _ Hbet) as Hb. simpl in Hb.
  rewrite Hrd. cbn [rounds_left money_left set_rounds_left].
  rewrite money_left_settle_player.
  split; [reflexivity|].
  destruct (house_delta_cases (hand_total hand)
              (hand_total (ev_dealer_hand (rd_event rd))) bet) as [Hd|[Hd|Hd]];
    rewrite Hd; lia.
Qed.

(** X6. A round changes no player who is not seated at the table, and
    of no player the name, email, id or type.  At a table whose seats
    carry their own positions and where nobody sits twice, every seated
    player has one round less, their money is unchanged or moved by
    between 10 and 100, and a player who began with at least 100 does
    not end below 0. *)
Theorem round_changes_only_seated_players (h : Heap) (c : Casino) (t : Table)
    (pool : list ref) (g : G) (rd : Round G) :
  randint_in_range randint →
  play_round randint shuffle h c t pool g = Ok rd →
  (∀ r, r ∉ seated (seats_list t) → rd_heap rd r = h r)
  ∧ (∀ r, identity (rd_heap rd r) = identity (h r))
  ∧ (Table_wf t → NoDup (seated (seats_list t)) →
     ∀ r, r ∈ seated (seats_list t) →
       rounds_left (rd_heap rd r) = rounds_left (h r) - 1
       ∧ (money_left (rd_heap rd r) = money_left (h r)
          ∨ 10 ≤ Z.abs (money_left (rd_heap rd r) - money_left (h r)) ≤ 100)
       ∧ (100 ≤ money_left (h r) → 0 ≤ money_left (rd_heap rd r))).
Proof.
  intros Hr E.
  split; [intros r; apply (play_round_unseated h c t pool g rd r E)|].
  split.
  { intros r.
    pose proof (play_round_settled h c t pool g rd E) as (_ & _ & _ & _ & _ & Hheap & _).
    cbv zeta in Hheap. rewrite Hheap.
    etransitivity; [|apply identity_settle_item]. reflexivity. }
  intros Hwf Hnd r Hin.
  destruct (play_round_seated h c t pool g rd r Hr Hwf Hnd E Hin) as [H1 H2].
  split; [exact H1|]. split; [exact H2|]. lia.
Qed.

(** X7. A round keeps a player's history well formed: if every entry
    was a win or a loss with a stake between 10 and 100, or a push with
    stake 0, then the same holds after the round; so the stake of an
    entry is positive exactly when the entry is not a push. *)
Theorem history_entries_stay_well_formed (h : Heap) (c : Casino) (t : Table)
    (pool : list ref) (g : G) (rd : Round G) :
  randint_in_range randint →
  play_round randint shuffle h c t pool g = Ok rd →
  ∀ r, Forall history_entry_ok (history (h r)) →
       Forall history_entry_ok (history (rd_heap rd r))
       ∧ Forall (λ entry, 0 < snd entry ↔ fst entry ≠ "push")
                (history (rd_heap rd r)).
Proof.
  intros Hr E r Hok.
  pose proof (play_round_settled h c t pool g rd E) as (Hbets & _ & _ & _ & _ & Hheap & _).
  cbv zeta in *.
  assert (Forall history_entry_ok (history (rd_heap rd r))) as H.
  { rewrite Hheap.
    change (history (set_rounds_left ?x ?q)) with (history q).
    apply history_settle_item_ok; [|exact Hok].
    rewrite Hbets. apply generate_bets_range; [exact Hr|constructor]. }
  split; [exact H|].
  eapply Forall_impl; [exact H|]. intros [o amt] [[[Ho|Ho] Hamt]|[= -> ->]]; simpl in *.
  - rewrite Ho. split; [discriminate|lia].
  - rewrite Ho. split; [discriminate|lia].
  - split; [lia|]. intros Hn. contradiction.
Qed.

End RoundEvent.

(** ** The cards of a round *)

Lemma Deck_init_shoe_cards (N : Z) : Forall shoe_card (Deck_init N).
Proof.
  apply Forall_forall. intros card Hin. apply Deck_init_cards in Hin. exact Hin.
Qed.

Lemma shoe_card_value (card : Card) : shoe_card card → 2 ≤ card_value card ≤ 11.
Proof.
  destruct card as [[rank suit] value]. intros [Hcl _]. simpl in Hcl.
  apply CARD_LIST_values in Hcl as (_ & _ & Hv). exact Hv.
Qed.

Lemma hand_total_upper (hand : list Card) :
  Forall (λ c, card_value c ≤ 11) hand → hand_total hand ≤ 11 * Z.of_nat (length hand).
Proof.
  induction 1 as [|c hand Hc _ IH].
  - rewrite hand_total_nil. simpl. lia.
  - rewrite hand_total_cons. simpl length. lia.
Qed.

(** A hand of two cards grown by the hit loop ends between 18 and 28. *)
Lemma grown_total (hand hand' : list Card) :
  grown hand hand' →
  length hand = 2%nat →
  Forall (λ c, card_value c ≤ 11) hand' →
  18 ≤ hand_total hand' ≤ 28 ∧ (2 ≤ length hand')%nat.
Proof.
  intros (drawn & -> & Hge & Hlt) Hlen Hcards.
  split; [|rewrite length_app; lia]. split; [exact Hge|].
  destruct drawn as [|x drawn _] using rev_ind.
  - rewrite app_nil_r in *. pose proof (hand_total_upper hand Hcards). lia.
  - specialize (Hlt (length drawn)). rewrite length_app in Hlt. simpl in Hlt.
    rewrite take_app_length in Hlt.
    rewrite app_assoc, hand_total_snoc.
    rewrite app_assoc, Forall_app in Hcards. destruct Hcards as [_ Hx].
    inversion Hx; subst. specialize (Hlt ltac:(lia)). lia.
Qed.

Lemma players_act_cards (P : Card → Prop) (items items' : dict (list Card))
    (deck deck' : list Card) (c c' : Casino) :
  players_act items deck c = Ok (items', deck', c') →
  Forall P deck →
  Forall (λ it, Forall P (snd it)) items →
  Forall (λ it, Forall P (snd it)) items' ∧ Forall P deck'.
Proof.
  revert items' deck c. induction items as [|[k hand] items IH];
    intros items' deck c; simpl.
  - intros [= <- <- <-]. auto.
  - destruct (player_action hand deck) as [[hand' d1]|e] eqn:E1; [|discriminate].
    simpl.
    destruct (players_act items d1 _) as [[[its d2] c2]|e] eqn:E2; [|discriminate].
    simpl. intros [= <- <- <-] Hdeck Hitems.
    rewrite player_action_dealer_action in E1.
    apply dealer_action_Ok in E1 as (drawn & -> & -> & _).
    apply Forall_app in Hdeck as [Hd1 Hdrawn].
    apply Forall_cons in Hitems as [Hhand Hitems]. simpl in Hhand.
    destruct (IH _ _ _ E2 Hd1 Hitems) as [Hits Hd2].
    split; [|exact Hd2]. constructor; [|exact Hits]. simpl.
    apply Forall_app. split; [exact Hhand|].
    apply Forall_rev in Hdrawn. rewrite rev_involutive in Hdrawn. exact Hdrawn.
Qed.

Section RoundCards.

Context {G : Type}.
Context (randint : Z → Z → G → Z * G).
Context (shuffle : list Card → G → list Card * G).

(** The hands of a completed round. *)
Lemma play_round_cards (h : Heap) (c : Casino) (t : Table)
    (pool : list ref) (g : G) (rd : Round G) :
  shuffle_permutes shuffle →
  play_round randint shuffle h c t pool g = Ok rd →
  Forall (λ it, 18 ≤ hand_total (snd it) ≤ 28 ∧ (2 ≤ length (snd it))%nat
                ∧ Forall shoe_card (snd it))
         (ev_hands (rd_event rd))
  ∧ 18 ≤ hand_total (ev_dealer_hand (rd_event rd)) ≤ 28
  ∧ (2 ≤ length (ev_dealer_hand (rd_event rd)))%nat
  ∧ Forall shoe_card (ev_dealer_hand (rd_event rd)).
Proof.
  intros Hs E. apply play_round_Ok in E
    as (deck & g1 & bets & hands0 & deck1 & dealer0 & deck2 & hands1 & deck3 & c1
        & dealer & deck4 & h1 & c2 & rs & E0 & _ & E2 & E3 & E4 & E5 & _
        & _ & _ & _ & _ & Hev).
  rewrite Hev. cbn [ev_hands ev_dealer_hand].
  assert (Forall shoe_card deck) as Hdeck.
  { pose proof (shuffle_deck_permutes shuffle (Deck_init 20) g Hs) as Hperm.
    rewrite E0 in Hperm. simpl in Hperm. rewrite Hperm. apply Deck_init_shoe_cards. }
  pose proof (deal_players_Ok _ _ _ _ _ E2) as (_ & (dealt & Hd & _) & HP & _).
  specialize (HP shoe_card Hdeck ltac:(constructor)).
  rewrite Hd in Hdeck. apply Forall_app in Hdeck as [Hdeck1 _].
  pose proof (draw_cards_Ok _ _ _ _ E3) as [Hlen0 Hd1].
  rewrite Hd1 in Hdeck1. apply Forall_app in Hdeck1 as [Hdeck2 Hdealer0].
  apply Forall_rev in Hdealer0. rewrite rev_involutive in Hdealer0.
  pose proof (players_act_cards shoe_card _ _ _ _ _ _ E4 Hdeck2) as [Hh1 Hdeck3].
  { eapply Forall_impl; [exact HP|]. intros it [_ H]. exact H. }
  pose proof (players_act_Ok _ _ _ _ _ _ E4) as (_ & _ & _ & Hgrown & _).
  pose proof (dealer_action_Ok _ _ _ _ E5) as (drawn & Hdealer & Hd3 & Hge & Hlt).
  assert (Forall shoe_card dealer) as Hdl.
  { rewrite Hdealer. apply Forall_app. split; [exact Hdealer0|].
    rewrite Hd3 in Hdeck3. apply Forall_app in Hdeck3 as [_ H].
    apply Forall_rev in H. rewrite rev_involutive in H. exact H. }
  assert (∀ hand, Forall shoe_card hand → Forall (λ c, card_value c ≤ 11) hand) as Hle.
  { intros hand H. eapply Forall_impl; [exact H|]. intros x Hx.
    apply shoe_card_value in Hx. lia. }
  split.
  { clear - Hgrown HP Hh1 Hle. revert Hh1.
    induction Hgrown as [|it0 it its0 its [_ Hg] _ IH]; intros Hh1; [constructor|].
    apply Forall_cons in HP as [[Hl0 _] HP].
    apply Forall_cons in Hh1 as [Hc Hh1].
    constructor; [|apply IH; assumption].
    destruct (grown_total _ _ Hg Hl0 (Hle _ Hc)) as [Ht Hl]. auto. }
  destruct (grown_total dealer0 dealer) as [Ht Hl].
  - exists drawn. auto.
  - exact Hlen0.
  - apply Hle. exact Hdl.
  - auto.
Qed.

(** X8. At the end of a round every player's hand and the dealer's
    hand hold at least two cards, each of a value from 2 to 11, and
    total between 18 and 28. *)
Theorem final_totals_between_18_and_28 (h : Heap) (c : Casino) (t : Table)
    (pool : list ref) (g : G) (rd : Round G) :
  shuffle_permutes shuffle →
  play_round randint shuffle h c t pool g = Ok rd →
  Forall (λ it, 18 ≤ hand_total (snd it) ≤ 28 ∧ (2 ≤ length (snd it))%nat
                ∧ Forall (λ card, 2 ≤ card_value card ≤ 11) (snd it))
         (ev_hands (rd_event rd))
  ∧ 18 ≤ hand_total (ev_dealer_hand (rd_event rd)) ≤ 28
  ∧ (2 ≤ length (ev_dealer_hand (rd_event rd)))%nat
  ∧ Forall (λ card, 2 ≤ card_value card ≤ 11) (ev_dealer_hand (rd_event rd)).
Proof.
  intros Hs E. destruct (play_round_cards h c t pool g rd Hs E) as (H1 & H2 & H3 & H4).
  split.
  { eapply Forall_impl; [exact H1|]. intros it (A & B & C).
    split; [exact A|]. split; [exact B|].
    eapply Forall_impl; [exact C|]. apply shoe_card_value. }
  split; [exact H2|]. split; [exact H3|].
  eapply Forall_impl; [exact H4|]. apply shoe_card_value.
Qed.

(** X9. A round at a table with nobody seated completes: it takes no
    bet, deals no player hand and gives no result, and the profit delta
    is 0; the dealer still plays a hand to 18 or more; no player, and
    neither the profit, the hands-played counter nor the finished list
    changes; the generator is used by the shuffle only; the round number
    goes up by one, and afterwards the first waiting players are seated
    in the order of the pool, one per seat. *)
Theorem round_at_an_empty_table (h : Heap) (c : Casino) (t : Table)
    (pool : list ref) (g : G) :
  shuffle_permutes shuffle →
  seated (seats_list t) = [] →
  ∃ rd,
    play_round randint shuffle h c t pool g = Ok rd
    ∧ (ev_initial_bets (rd_event rd) = [] ∧ ev_hands (rd_event rd) = []
       ∧ ev_results (rd_event rd) = [] ∧ ev_profit_delta (rd_event rd) = 0)
    ∧ 18 ≤ hand_total (ev_dealer_hand (rd_event rd))
    ∧ (∀ r, rd_heap rd r = h r)
    ∧ (casino_profit (rd_casino rd) = casino_profit c
       ∧ total_hands_played (rd_casino rd) = total_hands_played c
       ∧ finished_players (rd_casino rd) = finished_players c)
    ∧ rd_rng rd = snd (shuffle_deck shuffle (Deck_init 20) g)
    ∧ current_round_number (rd_table rd) = current_round_number t + 1
    ∧ seated (seats_list (rd_table rd)) = take (length (seats_list t)) pool
    ∧ rd_player_pool rd = drop (length (seats_list t)) pool.
Proof.
  intros Hs Hnone.
  assert (occupied (seats_list t) = 0%nat) as Hocc.
  { unfold occupied. rewrite Hnone. reflexivity. }
  pose proof (proj1 (seated_nil_empty _) Hnone) as Hempty.
  destruct (play_round_after_drawing randint shuffle h c t pool g Hs ltac:(lia))
    as (bets0 & hands1 & dealer & c1 & _ & Hlen & _ & _ & _ & Hok).
  assert (hands1 = []) as ->. { apply length_zero_iff_nil. lia. }
  destruct (Hok _ eq_refl) as (rd & E & _ & _). exists rd. split; [exact E|].
  pose proof (play_round_settled randint shuffle h c t pool g rd E)
    as (Hbets & _ & Hl & _ & Hrs & Hheap & Hprofit & Hdelta & Hhands).
  cbv zeta in *.
  assert (ev_hands (rd_event rd) = []) as Hitems.
  { apply length_zero_iff_nil. lia. }
  rewrite Hitems in *. cbn [map sumZ foldr fold_left length] in *.
  assert (∀ bets g', generate_bets randint (seats_list t) bets g' = (bets, g')) as Hgen.
  { clear - Hempty. induction Hempty as [|seat seats Hp _ IH]; intros bets g';
      [reflexivity|]. cbn [generate_bets]. rewrite Hp. apply IH. }
  apply play_round_Ok in E
    as (deck & g1 & bets & hands0 & deck1 & dealer0 & deck2 & hands1 & deck3 & c1'
        & dealer' & deck4 & h1 & c2 & rs & E0 & E1 & _ & _ & E4 & E5 & E6
        & _ & Hc & Ht & Hp & Hev).
  split.
  { split; [rewrite Hbets, Hgen; reflexivity|]. split; [reflexivity|].
    split; [exact Hrs|exact Hdelta]. }
  split.
  { rewrite Hev. cbn [ev_dealer_hand].
    apply dealer_action_Ok in E5 as (drawn & _ & _ & Hge & _). exact Hge. }
  split.
  { intros r. rewrite Hheap, seats_held_none.
    - apply set_rounds_left_same.
    - rewrite Hnone. apply not_elem_of_nil. }
  assert ((remove_finished_players (rd_heap rd) t c2).1 = t
          ∧ finished_players (remove_finished_players (rd_heap rd) t c2).2
            = finished_players c2) as [Hrem Hfin].
  { unfold remove_finished_players. rewrite remove_finished_seats_spec.
    cbn [fst snd finished_players set_finished_players].
    rewrite Hnone, evict_all_empty by exact Hempty. simpl. rewrite app_nil_r.
    split; [apply set_seats_list_same|reflexivity]. }
  split.
  { split; [lia|]. split; [lia|]. rewrite Hc, Hfin.
    apply settle_hands_Ok in E6 as (_ & _ & -> & _).
    apply players_act_Ok in E4 as (_ & -> & _). reflexivity. }
  split. { rewrite Hgen in E1. injection E1 as _ <-. rewrite E0. reflexivity. }
  rewrite Ht, Hp, Hrem. cbv zeta.
  cbn [current_round_number seats_list set_current_round_number].
  destruct (fill_empty_seats_shape t pool) as (_ & _ & Hround & _). cbv zeta in Hround.
  split; [rewrite Hround; reflexivity|].
  unfold fill_empty_seats.
  destruct (fill_seats_all_empty (seats_list t) pool Hempty) as [F1 F2].
  destruct (fill_seats (seats_list t) pool) as [seats pool']. cbn [fst snd seats_list set_seats_list] in *.
  auto.
Qed.

End RoundCards.

(** ** The tables through the simulation *)

Lemma playable_shape (t t' : Table) :
  table_shape t' = table_shape t → playable t → playable t'.
Proof.
  unfold table_shape, playable. intros [= _ _ H] [Hwf Hlen]. split.
  - eapply Table_wf_same_indices; eauto.
  - rewrite <- (length_map seat_index), H, length_map. exact Hlen.
Qed.

Lemma playable_shapes (ts ts' : list Table) :
  map table_shape ts' = map table_shape ts → Forall playable ts → Forall playable ts'.
Proof.
  revert ts'. induction ts as [|t ts IH]; intros [|t' ts'] H Hall; simpl in H; try discriminate.
  - constructor.
  - apply Forall_cons in Hall as [Ht Hall].
    assert (table_shape t' = table_shape t) as H1 by congruence.
    assert (map table_shape ts' = map table_shape ts) as H2 by congruence.
    constructor; [exact (playable_shape t t' H1 Ht)|exact (IH ts' H2 Hall)].
Qed.

Lemma fill_tables_shape (ts : list Table) (pool : list ref) :
  map table_shape (fst (fill_tables ts pool)) = map table_shape ts
  ∧ map current_round_number (fst (fill_tables ts pool))
    = map current_round_number ts.
Proof.
  revert pool. induction ts as [|t ts IH]; intros pool; simpl; [auto|].
  destruct (fill_empty_seats_shape t pool) as (A1 & A2 & A3 & A4). cbv zeta in *.
  destruct (fill_empty_seats t pool) as [t' pool1]. cbn [fst] in *.
  destruct (IH pool1) as [I1 I2].
  destruct (fill_tables ts pool1) as [ts' pool2]. cbn [fst map] in *.
  unfold table_shape at 1 3. rewrite A1, A2, A3, A4, I1, I2. auto.
Qed.

Section TablesThroughTicks.

Context {G : Type}.
Context (randint : Z → Z → G → Z * G).
Context (shuffle : list Card → G → list Card * G).

Lemma play_tables_shape (ts ts' : list Table) (h h' : Heap) (c c' : Casino)
    (pool pool' : list ref) (g g' : G) (events : list Event) :
  play_tables randint shuffle ts h c pool g = Ok (events, ts', h', c', pool', g') →
  map table_shape ts' = map table_shape ts
  ∧ map current_round_number ts' = map (λ t, current_round_number t + 1) ts
  ∧ map ev_table_id events = map table_id ts
  ∧ map ev_round_num events = map current_round_number ts
  ∧ tables c' = tables c.
Proof.
  revert ts' h h' c c' pool pool' g g' events.
  induction ts as [|t ts IH]; intros ts' h h' c c' pool pool' g g' events; simpl.
  - intros [= <- <- <- <- <- <-]. auto.
  - destruct (play_round randint shuffle h c t pool g) as [rd|e] eqn:Erd; [|discriminate].
    cbn [mbind result_mbind result_bind].
    destruct (play_tables randint shuffle ts (rd_heap rd) (rd_casino rd)
        (rd_player_pool rd) (rd_rng rd))
      as [[[[[[evs rest'] h2] c2] pool2] g2]|e] eqn:Erest; [|discriminate].
    cbn [mbind result_mbind result_bind]. intros [= <- <- <- <- <- <-].
    apply IH in Erest as (I1 & I2 & I3 & I4 & I5).
    pose proof (play_round_shape randint shuffle h c t pool g rd Erd) as (S1 & S2 & S3 & S4).
    pose proof (play_round_tables randint shuffle h c t pool g rd Erd) as Htab.
    pose proof (play_round_Ok randint shuffle h c t pool g rd Erd)
      as (deck & g1 & bets & hands0 & deck1 & dealer0 & deck2 & hands1 & deck3 & c1
          & dealer & deck4 & h1 & c2' & rs & _ & _ & _ & _ & _ & _ & _ & _ & _ & _ & _ & Hev).
    cbn [map]. unfold table_shape at 1 3.
    rewrite S1, S2, S3, S4, I1, I2, I3, I4, I5, Htab, Hev.
    cbn [ev_table_id ev_round_num]. auto.
Qed.

Lemma play_tables_completes (ts : list Table) (h : Heap) (c : Casino)
    (pool : list ref) (g : G) :
  shuffle_permutes shuffle →
  Forall playable ts →
  is_Ok (play_tables randint shuffle ts h c pool g).
Proof.
  intros Hs Hall. revert h c pool g.
  induction Hall as [|t ts [Hwf Hlen] _ IH]; intros h c pool g; simpl.
  - eexists. reflexivity.
  - destruct (play_round_completes randint shuffle h c t pool g Hs) as [rd Erd].
    + pose proof (empty_seats_occupied (seats_list t)). lia.
    + exact Hwf.
    + rewrite Erd. cbn [mbind result_mbind result_bind].
      destruct (IH (rd_heap rd) (rd_casino rd) (rd_player_pool rd) (rd_rng rd))
        as [[[[[[evs rest'] h2] c2] pool2] g2] Erest].
      rewrite Erest. cbn [mbind result_mbind result_bind]. eexists. reflexivity.
Qed.

Lemma revival_step_Ok (st : Sim G) :
  ∃ st', revival_step randint st = Ok st'
         ∧ tables (sim_casino st') = tables (sim_casino st)
         ∧ sim_time st' = sim_time st.
Proof.
  unfold revival_step. destruct (sim_time st mod 1800 =? 0).
  - rewrite revive_Ok. eexists. split; [reflexivity|]. auto.
  - exists st. auto.
Qed.

(** A tick at playable tables completes, and leaves the tables
    playable. *)
Lemma tick_completes (st : Sim G) :
  shuffle_permutes shuffle →
  Forall playable (tables (sim_casino st)) →
  ∃ events st2, tick randint shuffle st = Ok (events, st2).
Proof.
  intros Hs Hall. unfold tick.
  destruct (play_tables_completes (tables (sim_casino st)) (sim_heap st)
              (sim_casino st) (sim_player_pool st) (sim_rng st) Hs Hall)
    as [[[[[[evs ts] h] c] pool] g] E].
  rewrite E. cbn [mbind result_mbind result_bind].
  destruct (revival_step_Ok (mkSim h (set_tables ts c) pool g (sim_time st + 10)))
    as (st1 & E1 & _). rewrite E1. cbn [mbind result_mbind result_bind].
  destruct (fill_tables _ _) as [ts' pool']. eauto.
Qed.

Lemma tick_shape (st : Sim G) (events : list Event) (st2 : Sim G) :
  tick randint shuffle st = Ok (events, st2) →
  map table_shape (tables (sim_casino st2)) = map table_shape (tables (sim_casino st))
  ∧ map current_round_number (tables (sim_casino st2))
    = map (λ t, current_round_number t + 1) (tables (sim_casino st))
  ∧ map ev_table_id events = map table_id (tables (sim_casino st))
  ∧ map ev_round_num events = map current_round_number (tables (sim_casino st))
  ∧ sim_time st2 = sim_time st + 10.
Proof.
  intros E. apply tick_Ok in E
    as (ts & h & c & pool & g & st1 & Hplay & Hstep & _ & _ & Hts & _ & Htime).
  apply play_tables_shape in Hplay as (P1 & P2 & P3 & P4 & _).
  destruct (revival_step_Ok (mkSim h (set_tables ts c) pool g (sim_time st + 10)))
    as (st1' & E1 & Htab & Ht). rewrite Hstep in E1. injection E1 as <-.
  cbn [sim_casino sim_time tables set_tables] in Htab, Ht.
  rewrite Hts, Htab, Htime, Ht.
  destruct (fill_tables_shape ts (sim_player_pool st1)) as [F1 F2].
  rewrite F1, F2. auto.
Qed.

Lemma ticks_complete (n : nat) (st : Sim G) :
  shuffle_permutes shuffle →
  Forall playable (tables (sim_casino st)) →
  ∃ st', ticks randint shuffle n st = Ok st'.
Proof.
  intros Hs. revert st. induction n as [|n IH]; intros st Hall; cbn [ticks].
  - eauto.
  - destruct (tick_completes st Hs Hall) as (events & st1 & E). rewrite E.
    cbn [mbind result_mbind result_bind]. apply IH.
    apply tick_shape in E as (Hshape & _).
    eapply playable_shapes; eauto.
Qed.

Lemma ticks_shape (n : nat) (st st' : Sim G) :
  ticks randint shuffle n st = Ok st' →
  map table_shape (tables (sim_casino st')) = map table_shape (tables (sim_casino st))
  ∧ map current_round_number (tables (sim_casino st'))
    = map (λ t, current_round_number t + Z.of_nat n) (tables (sim_casino st))
  ∧ sim_time st' = sim_time st + 10 * Z.of_nat n.
Proof.
  revert st. induction n as [|n IH]; intros st; cbn [ticks].
  - intros [= <-]. split; [reflexivity|]. split; [|lia].
    rewrite <- (map_id (tables (sim_casino st))) at 1. rewrite map_map.
    apply map_ext. intros t. simpl. lia.
  - destruct (tick randint shuffle st) as [[events st1]|e] eqn:E; [|discriminate].
    cbn [mbind result_mbind result_bind]. intros Hn.
    apply tick_shape in E as (T1 & T2 & _ & _ & T5).
    apply IH in Hn as (I1 & I2 & I3).
    rewrite I1, T1, I3, T5. split; [reflexivity|]. split; [|lia].
    rewrite I2.
    rewrite <- (map_map current_round_number (λ x, x + Z.of_nat n)), T2, map_map.
    apply map_ext. intros t. lia.
Qed.

(** X11. The round loop of [run_simulation] runs to its end.  With
    tables whose seats carry their own positions and that have at most
    114 seats, the loop of rounds, revival and refills never raises and
    returns [60 * minutes] simulated seconds ([0] for a negative
    [minutes]); every table has kept its id, seat count and seat
    indices and has played [6 * minutes] rounds. *)
Theorem run_simulation_completes (h : Heap) (casino : Casino)
    (player_pool : list ref) (minutes : Z) (g : G) :
  shuffle_permutes shuffle →
  Forall playable (tables casino) →
  ∃ st,
    run_simulation randint shuffle h casino player_pool minutes g
    = Ok (Z.max 0 (60 * minutes), st)
    ∧ sim_time st = Z.max 0 (60 * minutes)
    ∧ map table_shape (tables (sim_casino st)) = map table_shape (tables casino)
    ∧ map current_round_number (tables (sim_casino st))
      = map (λ t, current_round_number t + Z.max 0 (6 * minutes)) (tables casino)
    ∧ Forall playable (tables (sim_casino st)).
Proof.
  intros Hs Hall. unfold run_simulation.
  destruct (fill_tables_shape (tables casino) player_pool) as [F1 F2].
  destruct (fill_tables (tables casino) player_pool) as [ts pool0]. cbn [fst] in *.
  assert (Forall playable ts) as Hall0 by (eapply playable_shapes; eauto).
  destruct (ticks_complete (Z.to_nat (minutes * 60 / 10))
              (mkSim h (set_tables ts casino) pool0 g 0) Hs Hall0) as [st E].
  rewrite E. cbn [mbind result_mbind result_bind].
  apply ticks_shape in E as (S1 & S2 & S3).
  cbn [sim_casino sim_time tables set_tables] in *.
  assert (10 * Z.of_nat (Z.to_nat (minutes * 60 / 10)) = Z.max 0 (60 * minutes)) as Hn.
  { replace (minutes * 60) with (6 * minutes * 10) by lia.
    rewrite Z.div_mul by lia. lia. }
  assert (Z.of_nat (Z.to_nat (minutes * 60 / 10)) = Z.max 0 (6 * minutes)) as Hn'.
  { replace (minutes * 60) with (6 * minutes * 10) by lia.
    rewrite Z.div_mul by lia. lia. }
  exists st. rewrite S3, Z.add_0_l, Hn.
  split; [reflexivity|]. split; [reflexivity|].
  split; [rewrite S1; exact F1|].
  split.
  { rewrite S2, Hn'.
    rewrite <- (map_map current_round_number (λ x, x + Z.max 0 (6 * minutes))
                        (tables casino)), <- F2, map_map. reflexivity. }
  eapply playable_shapes; [|exact Hall0]. exact S1.
Qed.

End TablesThroughTicks.

(** ** Players and money through the simulation *)

Lemma total_money_upd (L : list ref) (h : Heap) (F : Player → Player) (p : ref) :
  NoDup L → p ∈ L →
  total_money (heap_upd F p h) L
  = total_money h L + (money_left (F (h p)) - money_left (h p)).
Proof. intros Hnd Hin. apply (sum_money_step L h F p Hnd Hin). Qed.

Section MoneyThroughTicks.

Context {G : Type}.
Context (randint : Z → Z → G → Z * G).
Context (shuffle : list Card → G → list Card * G).

Lemma play_round_identity (h : Heap) (c : Casino) (t : Table) (pool : list ref)
    (g : G) (rd : Round G) (r : ref) :
  play_round randint shuffle h c t pool g = Ok rd →
  identity (rd_heap rd r) = identity (h r).
Proof.
  intros E.
  pose proof (play_round_settled randint shuffle h c t pool g rd E)
    as (_ & _ & _ & _ & _ & Hheap & _).
  cbv zeta in Hheap. rewrite Hheap.
  etransitivity; [|apply identity_settle_item]. reflexivity.
Qed.

(** The money of a round stays between the players and the house. *)
Lemma play_round_total_money (L : list ref) (h : Heap) (c : Casino) (t : Table)
    (pool : list ref) (g : G) (rd : Round G) :
  NoDup L →
  (∀ p, p ∈ seated (seats_list t) → p ∈ L) →
  play_round randint shuffle h c t pool g = Ok rd →
  total_money (rd_heap rd) L + casino_profit (rd_casino rd)
  = total_money h L + casino_profit c
  ∧ casino_profit (rd_casino rd) = casino_profit c + ev_profit_delta (rd_event rd).
Proof.
  intros Hnd Hsub E.
  pose proof (play_round_settled randint shuffle h c t pool g rd E)
    as (_ & Hfound & _ & _ & _ & Hheap & Hprofit & Hdelta & _).
  cbv zeta in *. split; [|lia].
  pose proof (sum_money_fold t (ev_initial_bets (rd_event rd))
                (hand_total (ev_dealer_hand (rd_event rd))) L
                (ev_hands (rd_event rd)) h Hnd Hsub Hfound) as Hsum.
  unfold total_money in *. rewrite Hprofit.
  rewrite (map_ext _ (λ r, money_left
              (fold_left (settle_item t (ev_initial_bets (rd_event rd))
                            (hand_total (ev_dealer_hand (rd_event rd))) r)
                         (ev_hands (rd_event rd)) (h r)))).
  - rewrite Hsum. lia.
  - intros r. rewrite Hheap. reflexivity.
Qed.

Lemma play_tables_total_money (L : list ref) (ts ts' : list Table) (h h' : Heap)
    (c c' : Casino) (pool pool' : list ref) (g g' : G) (events : list Event) :
  NoDup L →
  (∀ p, p ∈ all_seated ts ++ pool ++ finished_players c → p ∈ L) →
  play_tables randint shuffle ts h c pool g = Ok (events, ts', h', c', pool', g') →
  total_money h' L + casino_profit c' = total_money h L + casino_profit c
  ∧ casino_profit c' = casino_profit c + sumZ (map ev_profit_delta events).
Proof.
  intros Hnd. revert ts' h h' c c' pool pool' g g' events.
  induction ts as [|t ts IH]; intros ts' h h' c c' pool pool' g g' events Hsub; simpl.
  - intros [= <- <- <- <- <- <-]. simpl. split; [reflexivity|lia].
  - destruct (play_round randint shuffle h c t pool g) as [rd|e] eqn:Erd; [|discriminate].
    cbn [mbind result_mbind result_bind].
    destruct (play_tables randint shuffle ts (rd_heap rd) (rd_casino rd)
        (rd_player_pool rd) (rd_rng rd))
      as [[[[[[evs rest'] h2] c2] pool2] g2]|e] eqn:Erest; [|discriminate].
    cbn [mbind result_mbind result_bind]. intros [= <- <- <- <- <- <-].
    unfold all_seated in Hsub. simpl in Hsub.
    destruct (play_round_total_money L h c t pool g rd Hnd) as [Hm Hpr]; [|exact Erd|].
    { intros p Hp. apply Hsub. rewrite !elem_of_app. auto. }
    pose proof (play_round_owners_perm randint shuffle h c t pool g rd Erd) as Hperm.
    apply IH in Erest as (Im & Ip).
    + split; [lia|].
      cbn [map sumZ foldr]. fold (sumZ (map ev_profit_delta evs)). lia.
    + intros p Hp. apply Hsub.
      rewrite !elem_of_app in Hp. rewrite <- app_assoc, elem_of_app.
      destruct Hp as [Hp|Hp]; [right; rewrite !elem_of_app; auto|].
      assert (p ∈ seated (seats_list (rd_table rd)) ++ rd_player_pool rd
                    ++ finished_players (rd_casino rd)) as Hin.
      { rewrite !elem_of_app. tauto. }
      rewrite Hperm in Hin. rewrite !elem_of_app in Hin |- *. tauto.
Qed.

Lemma revive_players_total_money (L : list ref) (fin : list ref) (h : Heap)
    (revived : list ref) (g : G) :
  randint_in_range randint →
  NoDup L →
  (∀ p, p ∈ fin → p ∈ L) →
  let h' := fst (fst (revive_players randint fin h revived g)) in
  500 * Z.of_nat (length fin) ≤ total_money h' L - total_money h L
  ≤ 1000 * Z.of_nat (length fin).
Proof.
  intros Hr Hnd. revert h revived g.
  induction fin as [|p fin IH]; intros h revived g Hsub; cbn [revive_players].
  - simpl. lia.
  - pose proof (Hr 500 1000 g ltac:(lia)) as Hm.
    destruct (randint 500 1000 g) as [money g1]. cbn [fst] in Hm.
    destruct (randint 3 10 g1) as [rounds g2].
    set (h1 := heap_upd (λ q, set_money_left (money_left q + money) q) p h).
    set (h2 := heap_upd (λ q, set_rounds_left (rounds_left q + rounds) q) p h1).
    assert (∀ q, q ∈ fin → q ∈ L) as Hsub' by (intros q Hq; apply Hsub; right; exact Hq).
    pose proof (IH h2 (revived ++ [p]) g2 Hsub') as Hsum.
    cbv zeta in *.
    assert (p ∈ L) as Hp by (apply Hsub; left).
    assert (total_money h2 L = total_money h L + money) as Hstep.
    { unfold h2. rewrite total_money_upd by assumption.
      unfold h1 at 1. rewrite total_money_upd by assumption.
      cbn [money_left set_money_left set_rounds_left]. lia. }
    cbn [length]. lia.
Qed.

Lemma revival_step_owners (st st' : Sim G) :
  revival_step randint st = Ok st' →
  collect_all_players (sim_casino st') (sim_player_pool st')
  ≡ₚ collect_all_players (sim_casino st) (sim_player_pool st).
Proof.
  unfold revival_step. destruct (sim_time st mod 1800 =? 0).
  - rewrite revive_Ok. intros [= <-]. unfold collect_all_players.
    cbn [sim_casino sim_player_pool tables finished_players set_finished_players].
    rewrite app_nil_r. reflexivity.
  - intros [= <-]. reflexivity.
Qed.

Lemma tick_owners_perm (st : Sim G) (events : list Event) (st2 : Sim G) :
  tick randint shuffle st = Ok (events, st2) →
  collect_all_players (sim_casino st2) (sim_player_pool st2)
  ≡ₚ collect_all_players (sim_casino st) (sim_player_pool st).
Proof.
  intros E. apply tick_Ok in E
    as (ts & h & c & pool & g & st1 & Hplay & Hstep & _ & Hfin & Hts & Hpool & _).
  apply play_tables_owners in Hplay. apply revival_step_owners in Hstep.
  unfold collect_all_players in *.
  cbn [sim_casino sim_player_pool tables finished_players set_tables] in Hstep.
  rewrite Hts, Hpool, Hfin, app_assoc, fill_tables_owners, <- app_assoc.
  rewrite Hstep. exact Hplay.
Qed.

Lemma play_tables_identity (ts ts' : list Table) (h h' : Heap)
    (c c' : Casino) (pool pool' : list ref) (g g' : G) (events : list Event)
    (r : ref) :
  play_tables randint shuffle ts h c pool g = Ok (events, ts', h', c', pool', g') →
  identity (h' r) = identity (h r).
Proof.
  revert ts' h h' c c' pool pool' g g' events.
  induction ts as [|t ts IH]; intros ts' h h' c c' pool pool' g g' events; simpl.
  - intros [= <- <- <- <- <- <-]. reflexivity.
  - destruct (play_round randint shuffle h c t pool g) as [rd|e] eqn:Erd; [|discriminate].
    cbn [mbind result_mbind result_bind].
    destruct (play_tables randint shuffle ts (rd_heap rd) (rd_casino rd)
        (rd_player_pool rd) (rd_rng rd))
      as [[[[[[evs rest'] h2] c2] pool2] g2]|e] eqn:Erest; [|discriminate].
    cbn [mbind result_mbind result_bind]. intros [= <- <- <- <- <- <-].
    rewrite (IH _ _ _ _ _ _ _ _ _ _ Erest).
    apply (play_round_identity h c t pool g rd r Erd).
Qed.

Lemma revive_players_identity (fin : list ref) (h : Heap) (revived : list ref)
    (g : G) (r : ref) :
  identity (fst (fst (revive_players randint fin h revived g)) r) = identity (h r).
Proof.
  revert h revived g.
  induction fin as [|p fin IH]; intros h revived g; cbn [revive_players]; [reflexivity|].
  destruct (randint 500 1000 g) as [money g1].
  destruct (randint 3 10 g1) as [rounds g2].
  rewrite IH. unfold heap_upd. destruct (decide (r = p)); reflexivity.
Qed.

Lemma tick_identity (st : Sim G) (events : list Event) (st2 : Sim G) (r : ref) :
  tick randint shuffle st = Ok (events, st2) →
  identity (sim_heap st2 r) = identity (sim_heap st r).
Proof.
  intros E. apply tick_Ok in E
    as (ts & h & c & pool & g & st1 & Hplay & Hstep & Hheap & _).
  rewrite Hheap, <- (play_tables_identity _ _ _ _ _ _ _ _ _ _ _ r Hplay).
  unfold revival_step in Hstep. cbn [sim_time] in Hstep.
  destruct ((sim_time st + 10) mod 1800 =? 0).
  - rewrite revive_Ok in Hstep. injection Hstep as <-. cbn [sim_heap sim_casino sim_rng].
    apply revive_players_identity.
  - injection Hstep as <-. reflexivity.
Qed.

Lemma ticks_owners_perm (n : nat) (st st' : Sim G) :
  ticks randint shuffle n st = Ok st' →
  collect_all_players (sim_casino st') (sim_player_pool st')
  ≡ₚ collect_all_players (sim_casino st) (sim_player_pool st)
  ∧ ∀ r, identity (sim_heap st' r) = identity (sim_heap st r).
Proof.
  revert st. induction n as [|n IH]; intros st; cbn [ticks].
  - intros [= <-]. auto.
  - destruct (tick randint shuffle st) as [[events st1]|e] eqn:E; [|discriminate].
    cbn [mbind result_mbind result_bind]. intros Hn.
    apply IH in Hn as [I1 I2]. split.
    + rewrite I1. apply (tick_owners_perm st events st1 E).
    + intros r. rewrite I2. apply (tick_identity st events st1 r E).
Qed.

(** X12. [run_simulation] neither loses nor duplicates a player: what
    [collect_all_players] gathers at the end is a rearrangement of what
    it gathers at the start, so players held once stay held once; no
    player's name, email, id or type changes, and every finished player
    at the end was there at the start. *)
Theorem simulation_keeps_every_player (h : Heap) (casino : Casino)
    (player_pool : list ref) (minutes : Z) (g : G) (t : Z) (st : Sim G) :
  run_simulation randint shuffle h casino player_pool minutes g = Ok (t, st) →
  collect_all_players (sim_casino st) (sim_player_pool st)
  ≡ₚ collect_all_players casino player_pool
  ∧ (NoDup (collect_all_players casino player_pool) →
     NoDup (collect_all_players (sim_casino st) (sim_player_pool st)))
  ∧ (∀ r, identity (sim_heap st r) = identity (h r))
  ∧ finished_players (sim_casino st) ⊆ collect_all_players casino player_pool.
Proof.
  unfold run_simulation.
  pose proof (fill_tables_owners (tables casino) player_pool) as Hfill.
  destruct (fill_tables (tables casino) player_pool) as [ts pool0]. cbn [fst snd] in *.
  destruct (ticks randint shuffle (Z.to_nat (minutes * 60 / 10))
              (mkSim h (set_tables ts casino) pool0 g 0)) as [st'|e] eqn:E;
    [|discriminate].
  cbn [mbind result_mbind result_bind]. intros [= <- <-].
  apply ticks_owners_perm in E as [Hperm Hid].
  cbn [sim_casino sim_player_pool sim_heap] in *.
  assert (collect_all_players (sim_casino st') (sim_player_pool st')
          ≡ₚ collect_all_players casino player_pool) as H.
  { rewrite Hperm. unfold collect_all_players.
    cbn [tables finished_players set_tables]. rewrite app_assoc, Hfill, <- app_assoc.
    reflexivity. }
  split; [exact H|]. split; [intros Hnd; rewrite H; exact Hnd|].
  split; [exact Hid|].
  intros p Hp. rewrite <- H. unfold collect_all_players. rewrite !elem_of_app. auto.
Qed.

End MoneyThroughTicks.

Lemma fill_seats_seated (seats : list Seat) (pool : list ref) :
  seated (fst (fill_seats seats pool))
  ≡ₚ seated seats ++ take (empty_seats seats) pool.
Proof.
  destruct (fill_seats_spec seats pool) as (_ & Hpool & _).
  pose proof (fill_seats_perm seats pool) as Hperm.
  apply (Permutation_app_inv_r (snd (fill_seats seats pool))).
  rewrite Hperm, Hpool, <- app_assoc, take_drop. reflexivity.
Qed.

Section Solvency.

Context {G : Type}.
Context (randint : Z → Z → G → Z * G).
Context (shuffle : list Card → G → list Card * G).

(** One tick, laid out with the state it returns. *)
Lemma tick_layout (st : Sim G) (events : list Event) (st2 : Sim G) :
  tick randint shuffle st = Ok (events, st2) →
  ∃ ts h c pool g st1,
    play_tables randint shuffle (tables (sim_casino st)) (sim_heap st)
                (sim_casino st) (sim_player_pool st) (sim_rng st)
    = Ok (events, ts, h, c, pool, g)
    ∧ revival_step randint (mkSim h (set_tables ts c) pool g (sim_time st + 10))
      = Ok st1
    ∧ st2 = mkSim (sim_heap st1)
                  (set_tables (fst (fill_tables (tables (sim_casino st1))
                                                (sim_player_pool st1)))
                              (sim_casino st1))
                  (snd (fill_tables (tables (sim_casino st1)) (sim_player_pool st1)))
                  (sim_rng st1) (sim_time st1).
Proof.
  unfold tick.
  destruct (play_tables randint shuffle (tables (sim_casino st)) (sim_heap st)
      (sim_casino st) (sim_player_pool st) (sim_rng st))
    as [[[[[[evs ts] h] c] pool] g]|e] eqn:E1; [|discriminate].
  cbn [mbind result_mbind result_bind].
  destruct (revival_step randint (mkSim h (set_tables ts c) pool g (sim_time st + 10)))
    as [st1|e] eqn:E2; [|discriminate].
  cbn [mbind result_mbind result_bind].
  destruct (fill_tables (tables (sim_casino st1)) (sim_player_pool st1))
    as [ts' pool'] eqn:Efill.
  intros [= <- <-]. exists ts, h, c, pool, g, st1.
  split; [reflexivity|]. split; [exact E2|]. rewrite Efill. reflexivity.
Qed.

(** The revival test, by cases. *)
Lemma revival_step_cases (st st' : Sim G) :
  revival_step randint st = Ok st' →
  (sim_time st mod 1800 ≠ 0 ∧ st' = st)
  ∨ (sim_time st mod 1800 = 0
     ∧ st' = mkSim (fst (fst (revive_players randint (finished_players (sim_casino st))
                                (sim_heap st) [] (sim_rng st))))
                   (set_finished_players [] (sim_casino st))
                   (sim_player_pool st ++ finished_players (sim_casino st))
                   (snd (revive_players randint (finished_players (sim_casino st))
                           (sim_heap st) [] (sim_rng st)))
                   (sim_time st)).
Proof.
  unfold revival_step.
  destruct (Z.eqb_spec (sim_time st mod 1800) 0) as [H0|Hn].
  - rewrite revive_Ok. intros [= <-]. right. auto.
  - intros [= <-]. left. auto.
Qed.

(** The gifts of a revival, player by player, when nobody is listed
    twice. *)
Lemma revive_players_gifts (fin : list ref) (h : Heap) (revived : list ref) (g : G) :
  randint_in_range randint →
  NoDup fin →
  let h' := fst (fst (revive_players randint fin h revived g)) in
  (∀ p, p ∈ fin → 500 ≤ money_left (h' p) - money_left (h p) ≤ 1000)
  ∧ (∀ p, p ∉ fin → money_left (h' p) = money_left (h p)).
Proof.
  intros Hr Hnd. cbv zeta.
  destruct (revive_players_spec randint fin h revived g Hr) as [_ Hheap].
  split; intros p Hp; destruct (Hheap p) as (money & rounds & -> & Hm & _);
    rewrite (times_in_NoDup p fin Hnd) in Hm;
    destruct (decide (p ∈ fin)); try contradiction;
    cbn [money_left set_rounds_left set_money_left]; lia.
Qed.

(** X13. Money through one tick of the loop, entered with every player
    held once.  Through the rounds of the tick the money of all players
    together with the casino's profit stays the same, the profit moving
    by the sum of the profit deltas of the events.  After the rounds
    the profit no longer moves, and money moves by the revival gifts
    alone: on a tick that ends at a multiple of 1800 seconds every
    player then in the finished list gets between 500 and 1000, and no
    other player's money changes; on any other tick no player's money
    changes after the rounds.  So money and profit together grow by
    between 500 and 1000 for each revived player. *)
Theorem money_moves_only_between_players_and_house (st : Sim G)
    (events : list Event) (st2 : Sim G) :
  randint_in_range randint →
  NoDup (collect_all_players (sim_casino st) (sim_player_pool st)) →
  tick randint shuffle st = Ok (events, st2) →
  let L := collect_all_players (sim_casino st) (sim_player_pool st) in
  let wealth (s : Sim G) := total_money (sim_heap s) L + casino_profit (sim_casino s) in
  casino_profit (sim_casino st2)
  = casino_profit (sim_casino st) + sumZ (map ev_profit_delta events)
  ∧ ∃ ts h c pool g,
      play_tables randint shuffle (tables (sim_casino st)) (sim_heap st)
                  (sim_casino st) (sim_player_pool st) (sim_rng st)
      = Ok (events, ts, h, c, pool, g)
      ∧ total_money h L + casino_profit c = wealth st
      ∧ casino_profit (sim_casino st2) = casino_profit c
      ∧ let revived :=
          if (sim_time st + 10) mod 1800 =? 0 then finished_players c else [] in
        (∀ p, p ∈ revived →
           p ∈ L ∧ 500 ≤ money_left (sim_heap st2 p) - money_left (h p) ≤ 1000)
        ∧ (∀ p, p ∉ revived → money_left (sim_heap st2 p) = money_left (h p))
        ∧ 500 * Z.of_nat (length revived) ≤ wealth st2 - wealth st
          ≤ 1000 * Z.of_nat (length revived).
Proof.
  intros Hr Hnd E. cbv zeta.
  apply tick_layout in E as (ts & h & c & pool & g & st1 & Hplay & Hstep & ->).
  cbn [sim_heap sim_casino casino_profit set_tables].
  set (L := collect_all_players (sim_casino st) (sim_player_pool st)) in *.
  assert (all_seated ts ++ pool ++ finished_players c ≡ₚ L) as Hown.
  { exact (play_tables_owners randint shuffle _ _ _ _ _ _ _ _ _ _ _ Hplay). }
  destruct (play_tables_total_money randint shuffle L _ _ _ _ _ _ _ _ _ _ _ Hnd
              ltac:(intros p Hp; exact Hp) Hplay) as (Hmoney & Hprofit).
  assert (∀ p, p ∈ finished_players c → p ∈ L) as Hsub.
  { intros p Hp. rewrite <- Hown. rewrite !elem_of_app. auto. }
  assert (NoDup (finished_players c)) as Hfin.
  { rewrite <- Hown in Hnd. apply NoDup_app in Hnd as (_ & _ & Hnd).
    apply NoDup_app in Hnd as (_ & _ & Hnd). exact Hnd. }
  apply revival_step_cases in Hstep as [[Hmod ->]|[Hmod ->]];
    cbn [sim_heap sim_casino sim_time sim_rng sim_player_pool casino_profit
         set_tables set_finished_players finished_players] in *.
  - split; [exact Hprofit|]. exists ts, h, c, pool, g.
    split; [exact Hplay|]. split; [exact Hmoney|]. split; [reflexivity|].
    destruct (Z.eqb_spec ((sim_time st + 10) mod 1800) 0) as [H0|_]; [contradiction|].
    split; [intros p Hp; inversion Hp|]. split; [reflexivity|]. cbn [length]. lia.
  - split; [exact Hprofit|]. exists ts, h, c, pool, g.
    split; [exact Hplay|]. split; [exact Hmoney|]. split; [reflexivity|].
    rewrite Hmod. cbn [Z.eqb].
    destruct (revive_players_gifts (finished_players c) h [] g Hr Hfin) as [Hin Hout].
    split; [intros p Hp; split; [exact (Hsub p Hp)|exact (Hin p Hp)]|].
    split; [exact Hout|].
    pose proof (revive_players_total_money randint L (finished_players c) h [] g
                  Hr Hnd Hsub) as Hsum. cbv zeta in Hsum. lia.
Qed.
(** Who sits, waits and has finished after a round. *)
Lemma play_round_turnover (h : Heap) (c : Casino) (t : Table) (pool : list ref)
    (g : G) (rd : Round G) :
  play_round randint shuffle h c t pool g = Ok rd →
  let h' := rd_heap rd in
  let vacated := map (evict_seat h') (seats_list t) in
  finished_players (rd_casino rd)
  = finished_players c ++ filter (λ p, finished (h' p) = true) (seated (seats_list t))
  ∧ seated (seats_list (rd_table rd))
    ≡ₚ filter (λ p, ¬ finished (h' p) = true) (seated (seats_list t))
       ++ take (empty_seats vacated) pool
  ∧ rd_player_pool rd = drop (empty_seats vacated) pool.
Proof.
  intros E. apply play_round_Ok in E
    as (deck & g1 & bets & hands0 & deck1 & dealer0 & deck2 & hands1 & deck3 & c1
        & dealer & deck4 & h1 & c2 & rs & _ & _ & _ & _ & E4 & _ & E6
        & _ & Hc & Ht & Hp & _).
  cbv zeta. rewrite Hc, Ht, Hp. unfold remove_finished_players.
  rewrite remove_finished_seats_spec.
  cbn [fst snd finished_players set_finished_players]. cbv zeta.
  unfold fill_empty_seats. cbn [seats_list set_seats_list].
  pose proof (fill_seats_seated (map (evict_seat (rd_heap rd)) (seats_list t)) pool) as Hs.
  destruct (fill_seats_spec (map (evict_seat (rd_heap rd)) (seats_list t)) pool)
    as (_ & Hpool & _).
  destruct (fill_seats _ pool) as [seats pool'].
  cbn [fst snd seats_list set_seats_list set_current_round_number] in *.
  split.
  { apply settle_hands_Ok in E6 as (_ & _ & -> & _).
    apply players_act_Ok in E4 as (_ & -> & _). reflexivity. }
  split; [|exact Hpool].
  rewrite Hs, seated_evict. reflexivity.
Qed.

End Solvency.

(** ** Solvency *)

Lemma not_finished_can_play (q : Player) : ¬ finished q = true → can_play q.
Proof.
  unfold finished, can_play. intros H.
  destruct (Z.ltb_spec (money_left q) 100); [exfalso; apply H; reflexivity|].
  destruct (Z.leb_spec (rounds_left q) 0); [exfalso; apply H; reflexivity|]. lia.
Qed.

Lemma Table_wf_shapes (ts ts' : list Table) :
  map table_shape ts' = map table_shape ts → Forall Table_wf ts → Forall Table_wf ts'.
Proof.
  revert ts'. induction ts as [|t ts IH]; intros [|t' ts'] H Hall; simpl in H;
    try discriminate.
  - constructor.
  - apply Forall_cons in Hall as [Ht Hall].
    assert (table_shape t' = table_shape t) as H1 by congruence.
    assert (map table_shape ts' = map table_shape ts) as H2 by congruence.
    constructor; [|exact (IH ts' H2 Hall)].
    unfold table_shape in H1. injection H1 as _ _ H1.
    exact (Table_wf_same_indices t t' H1 Ht).
Qed.

(** Membership in a concatenation, split into its cases. *)
Ltac split_elems :=
  repeat match goal with
         | H : context [_ ∈ _ ++ _] |- _ => rewrite elem_of_app in H
         | |- _ ∈ _ ++ _ => rewrite elem_of_app
         | |- context [_ ∈ _ ++ _] => rewrite elem_of_app
         end.

Section SolvencyThroughTicks.

Context {G : Type}.
Context (randint : Z → Z → G → Z * G).
Context (shuffle : list Card → G → list Card * G).

Lemma play_round_solvent (h : Heap) (c : Casino) (t : Table) (pool : list ref)
    (g : G) (rd : Round G) :
  randint_in_range randint →
  Table_wf t →
  NoDup (seated (seats_list t) ++ pool) →
  play_round randint shuffle h c t pool g = Ok rd →
  (∀ p, p ∈ seated (seats_list t) ++ pool → can_play (h p)) →
  (∀ p, p ∈ seated (seats_list (rd_table rd)) ++ rd_player_pool rd →
        can_play (rd_heap rd p) ∧ p ∈ seated (seats_list t) ++ pool)
  ∧ (∀ p, p ∈ finished_players (rd_casino rd) →
          p ∈ finished_players c
          ∨ (p ∈ seated (seats_list t) ∧ owes_nothing (rd_heap rd p))).
Proof.
  intros Hr Hwf Hnd E Hgood.
  apply NoDup_app in Hnd as (Hnds & Hdisj & _).
  pose proof (play_round_turnover randint shuffle h c t pool g rd E) as (Hfin & Hseat & Hpool).
  cbv zeta in *.
  assert (∀ p, p ∈ pool → can_play (rd_heap rd p)) as Hwaiting.
  { intros p Hp. rewrite (play_round_unseated randint shuffle h c t pool g rd p E).
    - apply Hgood. rewrite elem_of_app. auto.
    - intros Hin. exact (Hdisj p Hin Hp). }
  split.
  - intros p Hp. rewrite elem_of_app, Hseat, Hpool, elem_of_app in Hp.
    rewrite elem_of_app.
    destruct Hp as [[Hp|Hp]|Hp].
    + apply list_elem_of_filter in Hp as [Hnf Hp].
      split; [apply not_finished_can_play; exact Hnf|auto].
    + apply subseteq_take in Hp. auto.
    + apply subseteq_drop in Hp. auto.
  - intros p Hp. rewrite Hfin, elem_of_app in Hp. destruct Hp as [Hp|Hp]; [auto|].
    apply list_elem_of_filter in Hp as [_ Hp]. right. split; [exact Hp|].
    destruct (play_round_seated randint shuffle h c t pool g rd p Hr Hwf Hnds E Hp)
      as [H1 H2].
    destruct (Hgood p ltac:(rewrite elem_of_app; auto)) as [G1 G2].
    unfold owes_nothing. lia.
Qed.

Lemma play_tables_solvent (others : ref → Prop) (ts ts' : list Table) (h h' : Heap)
    (c c' : Casino) (pool pool' : list ref) (g g' : G) (events : list Event) :
  randint_in_range randint →
  Forall Table_wf ts →
  NoDup (all_seated ts ++ pool ++ finished_players c) →
  (∀ p, others p → p ∉ all_seated ts ++ pool ++ finished_players c) →
  (∀ p, others p ∨ p ∈ all_seated ts ++ pool → can_play (h p)) →
  (∀ p, p ∈ finished_players c → owes_nothing (h p)) →
  play_tables randint shuffle ts h c pool g = Ok (events, ts', h', c', pool', g') →
  (∀ p, others p ∨ p ∈ all_seated ts' ++ pool' → can_play (h' p))
  ∧ (∀ p, p ∈ finished_players c' → owes_nothing (h' p)).
Proof.
  intros Hr Hwf. revert others ts' h h' c c' pool pool' g g' events.
  induction Hwf as [|t ts Ht _ IH];
    intros others ts' h h' c c' pool pool' g g' events Hnd Hout Hgood Hfin; simpl.
  - intros [= <- <- <- <- <- <-]. auto.
  - destruct (play_round randint shuffle h c t pool g) as [rd|e] eqn:Erd; [|discriminate].
    cbn [mbind result_mbind result_bind].
    destruct (play_tables randint shuffle ts (rd_heap rd) (rd_casino rd)
        (rd_player_pool rd) (rd_rng rd))
      as [[[[[[evs rest'] h2] c2] pool2] g2]|e] eqn:Erest; [|discriminate].
    cbn [mbind result_mbind result_bind]. intros [= <- <- <- <- <- <-].
    unfold all_seated in *. simpl in Hnd, Hout, Hgood.
    fold (all_seated ts) in *. fold (all_seated rest') in *.
    rewrite <- app_assoc in Hnd, Hout.
    pose proof (play_round_owners_perm randint shuffle h c t pool g rd Erd) as Hperm.
    pose proof Hnd as Hnd0.
    apply NoDup_app in Hnd0 as (HndS & HdisjS & HndR).
    apply NoDup_app in HndR as (_ & HdisjR & HndP).
    apply NoDup_app in HndP as (HndP & HdisjP & _).
    assert (NoDup (seated (seats_list t) ++ pool)) as Hnd1.
    { apply NoDup_app. split; [exact HndS|]. split; [|exact HndP].
      intros x Hx Hp. apply (HdisjS x Hx). split_elems. auto. }
    assert (NoDup (seated (seats_list (rd_table rd)) ++ all_seated ts
                   ++ rd_player_pool rd ++ finished_players (rd_casino rd))) as Hnd'.
    { rewrite (Permutation_app_swap_app (seated (seats_list (rd_table rd)))), Hperm,
        (Permutation_app_swap_app (all_seated ts)).
      exact Hnd. }
    assert (∀ p, p ∈ rd_player_pool rd ++ finished_players (rd_casino rd) →
                 p ∈ seated (seats_list t) ++ pool ++ finished_players c) as Hback.
    { intros p Hp. rewrite <- Hperm. rewrite elem_of_app. auto. }
    assert (∀ p, p ∉ seated (seats_list t) → rd_heap rd p = h p) as Hsame.
    { intros p Hp. apply (play_round_unseated randint shuffle h c t pool g rd p Erd Hp). }
    destruct (play_round_solvent h c t pool g rd Hr Ht Hnd1 Erd) as [Hgood1 Hfin1].
    { intros p Hp. apply Hgood. right. split_elems. tauto. }
    destruct (IH (λ p, others p ∨ p ∈ seated (seats_list (rd_table rd)))
                 rest' (rd_heap rd) h2 (rd_casino rd) c2
                 (rd_player_pool rd) pool2 (rd_rng rd) g2 evs) as [Hgood2 Hfin2].
    + apply NoDup_app in Hnd' as (_ & _ & H). exact H.
    + intros p [Hp|Hp].
      * intros Hin. apply (Hout p Hp). rewrite elem_of_app in Hin.
        destruct Hin as [Hin|Hin]; [split_elems; auto|].
        apply Hback in Hin. split_elems. tauto.
      * apply NoDup_app in Hnd' as (_ & H & _). exact (H p Hp).
    + intros p [[Hp|Hp]|Hp].
      * rewrite Hsame; [apply Hgood; auto|].
        intros Hin. apply (Hout p Hp). rewrite elem_of_app. auto.
      * apply Hgood1. rewrite elem_of_app. auto.
      * rewrite elem_of_app in Hp. destruct Hp as [Hp|Hp].
        -- rewrite Hsame; [apply Hgood; right; split_elems; auto|].
           intros Hin. apply (HdisjS p Hin). rewrite elem_of_app. auto.
        -- apply Hgood1. rewrite elem_of_app. auto.
    + intros p Hp. destruct (Hfin1 p Hp) as [Hf|[_ Hf]]; [|exact Hf].
      rewrite Hsame; [apply Hfin; exact Hf|].
      intros Hin. apply (HdisjS p Hin). split_elems. auto.
    + exact Erest.
    + split; [|exact Hfin2].
      intros p Hp. apply Hgood2. simpl in Hp. fold (all_seated rest') in Hp.
      rewrite <- app_assoc in Hp. unfold all_seated in *. split_elems. tauto.
Qed.

Lemma tick_solvent (st : Sim G) (events : list Event) (st2 : Sim G) :
  randint_in_range randint →
  Forall Table_wf (tables (sim_casino st)) →
  NoDup (collect_all_players (sim_casino st) (sim_player_pool st)) →
  solvent (sim_heap st) (sim_casino st) (sim_player_pool st) →
  tick randint shuffle st = Ok (events, st2) →
  solvent (sim_heap st2) (sim_casino st2) (sim_player_pool st2).
Proof.
  intros Hr Hwf Hnd [Hgood Hfin] E.
  apply tick_layout in E as (ts & h & c & pool & g & st1 & Hplay & Hstep & ->).
  pose proof (play_tables_owners randint shuffle _ _ _ _ _ _ _ _ _ _ _ Hplay) as Hown.
  fold (all_seated ts) (all_seated (tables (sim_casino st))) in Hown.
  assert (NoDup (all_seated ts ++ pool ++ finished_players c)) as Hnd1.
  { rewrite Hown. exact Hnd. }
  destruct (play_tables_solvent (λ _, False) _ _ _ _ _ _ _ _ _ _ _ Hr Hwf Hnd
              ltac:(intros p []) ltac:(intros p [[]|Hp]; apply Hgood; exact Hp)
              Hfin Hplay) as [Hgood1 Hfin1].
  assert (∀ p, p ∈ all_seated (tables (sim_casino st1)) ++ sim_player_pool st1 →
               can_play (sim_heap st1 p)) as Hgood2.
  { apply revival_step_cases in Hstep as [[Hmod ->]|[Hmod ->]];
      cbn [sim_heap sim_casino sim_time sim_rng sim_player_pool tables
           set_tables set_finished_players finished_players] in *.
    - intros p Hp. apply Hgood1. auto.
    - apply NoDup_app in Hnd1 as (_ & _ & Hnd2).
      pose proof Hnd2 as Hnd3. apply NoDup_app in Hnd3 as (_ & _ & Hndf).
      destruct (revive_players_spec randint (finished_players c) h [] g Hr)
        as [_ Hspec].
      intros p Hp. destruct (Hspec p) as (money & rounds & Heq & Hm & Hk).
      rewrite (times_in_NoDup p _ Hndf) in Hm, Hk. rewrite Heq.
      unfold can_play. cbn [money_left rounds_left set_rounds_left set_money_left].
      destruct (decide (p ∈ finished_players c)) as [Hin|Hout].
      + destruct (Hfin1 p Hin). lia.
      + rewrite app_assoc, elem_of_app in Hp. destruct Hp as [Hp|Hp]; [|contradiction].
        destruct (Hgood1 p (or_intror Hp)). lia. }
  assert (∀ p, p ∈ finished_players (sim_casino st1) → owes_nothing (sim_heap st1 p))
    as Hfin2.
  { apply revival_step_cases in Hstep as [[Hmod ->]|[Hmod ->]];
      cbn [sim_heap sim_casino sim_time sim_rng sim_player_pool tables
           set_tables set_finished_players finished_players] in *.
    - exact Hfin1.
    - intros p Hp. inversion Hp. }
  split; cbn [sim_heap sim_casino sim_player_pool tables finished_players set_tables].
  - intros p Hp. apply Hgood2. unfold all_seated in *.
    rewrite fill_tables_owners in Hp. exact Hp.
  - exact Hfin2.
Qed.

Lemma ticks_solvent (n : nat) (st st' : Sim G) :
  randint_in_range randint →
  Forall Table_wf (tables (sim_casino st)) →
  NoDup (collect_all_players (sim_casino st) (sim_player_pool st)) →
  solvent (sim_heap st) (sim_casino st) (sim_player_pool st) →
  ticks randint shuffle n st = Ok st' →
  solvent (sim_heap st') (sim_casino st') (sim_player_pool st').
Proof.
  intros Hr. revert st. induction n as [|n IH]; intros st Hwf Hnd Hsol; cbn [ticks].
  - intros [= <-]. exact Hsol.
  - destruct (tick randint shuffle st) as [[events st1]|e] eqn:E; [|discriminate].
    cbn [mbind result_mbind result_bind]. apply IH.
    + apply tick_shape in E as (Hshape & _). eapply Table_wf_shapes; eauto.
    + rewrite (tick_owners_perm randint shuffle st events st1 E). exact Hnd.
    + exact (tick_solvent st events st1 Hr Hwf Hnd Hsol E).
Qed.

(** X14. Nobody goes into debt.  If, at tables whose seats carry their
    own positions and with every player held once, every seated or
    waiting player has at least 100 of money and one round left and no
    finished player has negative money or rounds, then the same holds
    after any number of ticks; in particular no player of the casino
    ever has negative money or a negative number of rounds left. *)
Theorem no_player_goes_into_debt (n : nat) (st0 st : Sim G) :
  randint_in_range randint →
  Forall Table_wf (tables (sim_casino st0)) →
  NoDup (collect_all_players (sim_casino st0) (sim_player_pool st0)) →
  solvent (sim_heap st0) (sim_casino st0) (sim_player_pool st0) →
  ticks randint shuffle n st0 = Ok st →
  solvent (sim_heap st) (sim_casino st) (sim_player_pool st)
  ∧ ∀ p, p ∈ collect_all_players (sim_casino st) (sim_player_pool st) →
         0 ≤ money_left (sim_heap st p) ∧ 0 ≤ rounds_left (sim_heap st p).
Proof.
  intros Hr Hwf Hnd Hsol E.
  pose proof (ticks_solvent n st0 st Hr Hwf Hnd Hsol E) as [Hgood Hfin].
  split; [split; assumption|].
  intros p Hp. unfold collect_all_players in Hp. rewrite app_assoc, elem_of_app in Hp.
  destruct Hp as [Hp|Hp].
  - destruct (Hgood p Hp). lia.
  - exact (Hfin p Hp).
Qed.

End SolvencyThroughTicks.

(** ** Strings and their lengths *)

Lemma py_len_app (s1 s2 : string) : py_len (s1 +:+ s2) = (py_len s1 + py_len s2)%nat.
Proof.
  induction s1 as [|a s1 IH]; [reflexivity|].
  simpl. rewrite IH. destruct (continuation_byte a); reflexivity.
Qed.

Lemma py_len_spaces (n : nat) : py_len (spaces n) = n.
Proof. induction n as [|n IH]; [reflexivity|]. cbn [spaces py_len]. simpl. rewrite IH. reflexivity. Qed.

Lemma py_len_ljust (w : nat) (s : string) : py_len (ljust w s) = Nat.max w (py_len s).
Proof. unfold ljust. rewrite py_len_app, py_len_spaces. lia. Qed.

Lemma py_len_rjust (w : nat) (s : string) : py_len (rjust w s) = Nat.max w (py_len s).
Proof. unfold rjust. rewrite py_len_app, py_len_spaces. lia. Qed.

(** ** [ascii_cards] *)

Lemma card_lines_width (r s : string) :
  (py_len r ≤ 2)%nat → py_len s = 1%nat →
  length (card_lines r s) = 5%nat
  ∧ Forall (λ line, py_len line = 11%nat) (card_lines r s).
Proof.
  intros Hr Hs. split; [reflexivity|]. unfold card_lines.
  repeat constructor; rewrite ?py_len_app, ?py_len_ljust, ?py_len_rjust, ?Hs;
    change (py_len "│") with 1%nat; change (py_len "       │") with 8%nat;
    change (py_len "│    ") with 5%nat; change (py_len "    │") with 5%nat;
    change (py_len "│       ") with 8%nat; try reflexivity; lia.
Qed.

Lemma append_card_width (n : nat) (lines card : list string) :
  length lines = 5%nat → length card = 5%nat →
  Forall (λ line, py_len line = n) lines →
  Forall (λ line, py_len line = 11%nat) card →
  length (append_card lines card) = 5%nat
  ∧ Forall (λ line, py_len line = (n + 12)%nat) (append_card lines card).
Proof.
  intros Hl Hc Hlines Hcard. unfold append_card. split.
  - rewrite length_zip_with. lia.
  - clear Hl Hc. revert card Hcard.
    induction Hlines as [|line lines Hline _ IH]; intros card Hcard; [constructor|].
    destruct Hcard as [|c card Hc Hcard]; [constructor|].
    cbn [zip_with]. constructor; [|apply IH; exact Hcard].
    rewrite !py_len_app, Hline, Hc. change (py_len " ") with 1%nat. lia.
Qed.

Lemma suit_symbols_known (suit : string) :
  suit ∈ SUITS → ∃ s, str_dict_get suit suit_symbols = Some s ∧ py_len s = 1%nat.
Proof.
  unfold SUITS. rewrite !elem_of_cons, elem_of_nil.
  intros [->|[->|[->|[->|[]]]]]; eexists; split; reflexivity.
Qed.

Lemma CARD_LIST_rank_width (rank : string) (value : Z) :
  (rank, value) ∈ CARD_LIST → (py_len rank ≤ 2)%nat.
Proof.
  assert (Forall (λ rv : string * Z, (py_len (fst rv) ≤ 2)%nat) CARD_LIST) as H.
  { unfold CARD_LIST. repeat constructor. }
  intros Hin. exact (proj1 (Forall_forall _ _) H _ Hin).
Qed.

Lemma ascii_cards_from_Ok (cards : list Card) (lines : list string) (n : nat) :
  Forall shoe_card cards →
  length lines = 5%nat →
  Forall (λ line, py_len line = n) lines →
  ∃ lines', ascii_cards_from cards lines = Ok lines'
            ∧ length lines' = 5%nat
            ∧ Forall (λ line, py_len line = (n + 12 * length cards)%nat) lines'.
Proof.
  intros Hcards. revert lines n.
  induction Hcards as [|[[rank suit] value] cards [Hr Hs] _ IH]; intros lines n Hl Hw.
  - exists lines. split; [reflexivity|]. split; [exact Hl|].
    eapply Forall_impl; [exact Hw|]. intros line ->. simpl. lia.
  - cbn [fst snd] in Hr, Hs. cbn [ascii_cards_from].
    destruct (suit_symbols_known suit Hs) as (s & -> & Hsl).
    destruct (card_lines_width rank s (CARD_LIST_rank_width _ _ Hr) Hsl) as [Hc1 Hc2].
    destruct (append_card_width n lines (card_lines rank s) Hl Hc1 Hw Hc2) as [Ha1 Ha2].
    destruct (IH _ _ Ha1 Ha2) as (lines' & E & Hl' & Hw').
    exists lines'. split; [exact E|]. split; [exact Hl'|].
    eapply Forall_impl; [exact Hw'|]. intros line ->. cbn [length]. lia.
Qed.

Lemma str_dict_get_None {V : Type} (k : string) (d : list (string * V)) :
  k ∉ map fst d → str_dict_get k d = None.
Proof.
  induction d as [|[k' v] d IH]; [reflexivity|].
  cbn [map fst str_dict_get]. intros Hk. apply not_elem_of_cons in Hk as [Hne Hk].
  destruct (String.eqb_spec k' k) as [->|_]; [contradiction|auto].
Qed.

Lemma ascii_cards_from_unknown (cards : list Card) (lines : list string) :
  Exists (λ card, str_dict_get (snd (fst card)) suit_symbols = None) cards →
  ascii_cards_from cards lines = Raise KeyError.
Proof.
  intros H. revert lines. induction H as [[[rank suit] value] cards H|[[rank suit] value] cards _ IH];
    intros lines; cbn [ascii_cards_from].
  - cbn [fst snd] in H. rewrite H. reflexivity.
  - destruct (str_dict_get suit suit_symbols); [apply IH|reflexivity].
Qed.

Section CardArt.

Context {G : Type}.
Context (randint : Z → Z → G → Z * G).
Context (shuffle : list Card → G → list Card * G).

(** X17. [ascii_cards] draws every card of the shoe: for cards with a
    rank of [CARD_LIST] and a suit of [SUITS] it returns five lines,
    each [12 * len(cards)] characters long.  A card of an unknown suit
    raises [KeyError]; no card gives five empty lines.  The hands of a
    completed round can always be drawn. *)
Theorem ascii_cards_draws_every_shoe_card (cards : list Card) :
  (Forall shoe_card cards →
   ∃ lines, ascii_cards cards = Ok lines
            ∧ length lines = 5%nat
            ∧ Forall (λ line, py_len line = (12 * length cards)%nat) lines)
  ∧ (Exists (λ card, snd (fst card) ∉ ["Heart"; "Diamond"; "Club"; "Spade"]) cards →
     ascii_cards cards = Raise KeyError)
  ∧ ascii_cards [] = Ok [""; ""; ""; ""; ""]
  ∧ ∀ h c t pool g rd,
      shuffle_permutes shuffle →
      play_round randint shuffle h c t pool g = Ok rd →
      is_Ok (ascii_cards (ev_dealer_hand (rd_event rd)))
      ∧ Forall (λ it, is_Ok (ascii_cards (snd it))) (ev_hands (rd_event rd)).
Proof.
  split.
  { intros H. apply (ascii_cards_from_Ok cards _ 0 H); [reflexivity|].
    repeat constructor. }
  split.
  { intros H. apply ascii_cards_from_unknown.
    eapply Exists_impl; [exact H|]. intros card Hs.
    apply str_dict_get_None. exact Hs. }
  split; [reflexivity|].
  intros h c t pool g rd Hs E.
  destruct (play_round_cards randint shuffle h c t pool g rd Hs E) as (H1 & _ & _ & H4).
  split.
  - destruct (ascii_cards_from_Ok _ [""; ""; ""; ""; ""] 0 H4) as (lines & El & _);
      [reflexivity|repeat constructor|]. exists lines. exact El.
  - eapply Forall_impl; [exact H1|]. intros it (_ & _ & Hc).
    destruct (ascii_cards_from_Ok _ [""; ""; ""; ""; ""] 0 Hc) as (lines & El & _);
      [reflexivity|repeat constructor|]. exists lines. exact El.
Qed.

End CardArt.

(** ** The clock *)

Lemma append_String (a : ascii) (s t : string) : String a s +:+ t = String a (s +:+ t).
Proof. reflexivity. Qed.

Lemma append_empty (t : string) : "" +:+ t = t.
Proof. reflexivity. Qed.

Lemma digit_not_continuation (a : ascii) :
  0 ≤ digit_value a ≤ 9 → continuation_byte a = false.
Proof.
  unfold digit_value, continuation_byte. intros H. cbv zeta.
  apply andb_false_iff. left. apply Nat.leb_gt. lia.
Qed.

Lemma py_len_String_plain (a : ascii) (s : string) :
  continuation_byte a = false → py_len (String a s) = S (py_len s).
Proof. intros H. cbn [py_len]. rewrite H. reflexivity. Qed.

Lemma format_02d_two_digits (n : Z) :
  0 ≤ n < 100 →
  ∃ d1 d2, format_02d n = String d1 (String d2 EmptyString)
           ∧ 10 * digit_value d1 + digit_value d2 = n
           ∧ 0 ≤ digit_value d1 ≤ 9 ∧ 0 ≤ digit_value d2 ≤ 9.
Proof.
  intros Hn.
  assert (forallb (λ k, match format_02d k with
                        | String d1 (String d2 EmptyString) =>
                            (10 * digit_value d1 + digit_value d2 =? k)
                            && (0 <=? digit_value d1) && (digit_value d1 <=? 9)
                            && (0 <=? digit_value d2) && (digit_value d2 <=? 9)
                        | _ => false
                        end) (seqZ 0 100) = true) as H.
  { vm_compute. reflexivity. }
  rewrite forallb_forall in H. specialize (H n).
  rewrite <- list_elem_of_In, elem_of_seqZ in H. specialize (H ltac:(lia)).
  destruct (format_02d n) as [|d1 [|d2 [|]]]; try discriminate.
  exists d1, d2. split; [reflexivity|]. lia.
Qed.

(** X18. The clock of the views.  Hours, minutes and seconds as the
    views compute them make up the simulated time, with minutes and
    seconds below 60 (and seconds a multiple of 10 when the time is).
    For a time below 100 hours the text [HH:MM:SS] is 8 characters long
    and reads back as the time. *)
Theorem timestamp_shows_the_simulated_time (sim_time : Z) :
  let hours := sim_time / 3600 in
  let minutes := (sim_time mod 3600) / 60 in
  let seconds := sim_time mod 60 in
  sim_time = 3600 * hours + 60 * minutes + seconds
  ∧ 0 ≤ minutes < 60 ∧ 0 ≤ seconds < 60
  ∧ (sim_time mod 10 = 0 → seconds mod 10 = 0)
  ∧ (0 ≤ sim_time < 360000 →
     py_len (timestamp sim_time) = 8%nat
     ∧ read_timestamp (timestamp sim_time) = sim_time).
Proof.
  cbv zeta.
  pose proof (Z.div_mod sim_time 3600 ltac:(lia)) as H1.
  pose proof (Z.mod_pos_bound sim_time 3600 ltac:(lia)) as H2.
  pose proof (Z.div_mod (sim_time mod 3600) 60 ltac:(lia)) as H3.
  pose proof (Z.mod_pos_bound sim_time 60 ltac:(lia)) as H4.
  assert ((sim_time mod 3600) mod 60 = sim_time mod 60) as H5.
  { apply Z.mod_mod_divide. exists 60. reflexivity. }
  rewrite H5 in *.
  assert (0 ≤ sim_time mod 3600 / 60 < 60) as H6.
  { split; [apply Z.div_pos; lia|apply Z.div_lt_upper_bound; lia]. }
  split; [lia|]. split; [exact H6|]. split; [lia|].
  split.
  { intros H10. rewrite Z.mod_mod_divide; [exact H10|]. exists 6. reflexivity. }
  intros Ht.
  assert (0 ≤ sim_time / 3600 < 100) as H7.
  { split; [apply Z.div_pos; lia|apply Z.div_lt_upper_bound; lia]. }
  destruct (format_02d_two_digits _ H7) as (h1 & h2 & Eh & Hh & Dh1 & Dh2).
  destruct (format_02d_two_digits (sim_time mod 3600 / 60) ltac:(lia))
    as (m1 & m2 & Em & Hm & Dm1 & Dm2).
  destruct (format_02d_two_digits (sim_time mod 60) ltac:(lia))
    as (s1 & s2 & Es & Hs & Ds1 & Ds2).
  unfold timestamp. rewrite Eh, Em, Es.
  repeat (rewrite append_String || rewrite append_empty).
  cbn [read_timestamp]. split; [|lia].
  rewrite !py_len_String_plain;
    first [reflexivity | apply digit_not_continuation; assumption].
Qed.

(** ** The table view *)

Lemma tally_result_counted (sa : list SeatAfter) (tl : Tally) (r : ResultEntry) :
  let tl' := tally_result sa tl r in
  let d := res_money_delta r in
  if counted sa r then
    total_winnings tl' = total_winnings tl + Z.max 0 (- d)
    ∧ total_losses tl' = total_losses tl + Z.max 0 d
    ∧ total_bets tl' = total_bets tl + Z.abs d
    ∧ length (winners tl') = (length (winners tl) + if decide (d < 0)%Z then 1 else 0)%nat
    ∧ length (losers tl') = (length (losers tl) + if decide (0 < d)%Z then 1 else 0)%nat
    ∧ length (pushes tl') = (length (pushes tl) + if decide (d = 0%Z) then 1 else 0)%nat
  else tl' = tl.
Proof.
  cbv zeta. unfold counted, tally_result.
  destruct (find_player_name sa (res_seat_index r)) as [name|]; [|reflexivity].
  destruct (String.eqb name ""); [reflexivity|]. cbn [negb].
  destruct (Z.ltb_spec (res_money_delta r) 0) as [Hneg|Hnn].
  - cbn [total_winnings total_losses total_bets winners losers pushes].
    rewrite length_app. cbn [length].
    destruct (decide (res_money_delta r < 0)); [|lia].
    destruct (decide (0 < res_money_delta r)); [lia|].
    destruct (decide (res_money_delta r = 0)); [lia|]. repeat split; lia.
  - destruct (Z.ltb_spec 0 (res_money_delta r)) as [Hpos|Hz].
    + cbn [total_winnings total_losses total_bets winners losers pushes].
      rewrite length_app. cbn [length].
      destruct (decide (res_money_delta r < 0)); [lia|].
      destruct (decide (0 < res_money_delta r)); [|lia].
      destruct (decide (res_money_delta r = 0)); [lia|]. repeat split; lia.
    + cbn [total_winnings total_losses total_bets winners losers pushes].
      rewrite length_app. cbn [length].
      destruct (decide (res_money_delta r < 0)); [lia|].
      destruct (decide (0 < res_money_delta r)); [lia|].
      destruct (decide (res_money_delta r = 0)); [|lia]. repeat split; lia.
Qed.

Lemma tally_fold (sa : list SeatAfter) (results : list ResultEntry) (tl : Tally) :
  let tl' := fold_left (tally_result sa) results tl in
  let shown := filter (λ r, counted sa r = true) results in
  total_winnings tl'
  = total_winnings tl + sumZ (map (λ r, Z.max 0 (- res_money_delta r)) shown)
  ∧ total_losses tl'
    = total_losses tl + sumZ (map (λ r, Z.max 0 (res_money_delta r)) shown)
  ∧ total_bets tl'
    = total_bets tl + sumZ (map (λ r, Z.abs (res_money_delta r)) shown)
  ∧ length (winners tl')
    = (length (winners tl) + length (filter (λ r, (res_money_delta r < 0)%Z) shown))%nat
  ∧ length (losers tl')
    = (length (losers tl) + length (filter (λ r, (0 < res_money_delta r)%Z) shown))%nat
  ∧ length (pushes tl')
    = (length (pushes tl) + length (filter (λ r, res_money_delta r = 0%Z) shown))%nat.
Proof.
  cbv zeta. revert tl. induction results as [|r results IH]; intros tl.
  - simpl. repeat split; lia.
  - cbn [fold_left]. rewrite filter_cons.
    pose proof (tally_result_counted sa tl r) as Hstep. cbv zeta in Hstep.
    destruct (IH (tally_result sa tl r)) as (I1 & I2 & I3 & I4 & I5 & I6).
    destruct (counted sa r).
    + destruct (decide (true = true)); [|contradiction].
      destruct Hstep as (S1 & S2 & S3 & S4 & S5 & S6).
      unfold sumZ in *. cbn [map foldr]. rewrite !filter_cons.
      destruct (decide (res_money_delta r < 0)); destruct (decide (0 < res_money_delta r));
        destruct (decide (res_money_delta r = 0)); cbn [length]; repeat split; lia.
    + destruct (decide (false = true)); [discriminate|]. rewrite Hstep in *.
      repeat split; assumption.
Qed.

Lemma find_player_name_positions (h : Heap) (seats : list Seat) (s i : nat) :
  map seat_index seats = seq s (length seats) →
  find_player_name (seats_after h seats) i
  = if decide (s ≤ i)%nat
    then seat ← seats !! (i - s)%nat; p ← player seat; Some (first_name (h p))
    else None.
Proof.
  revert s. induction seats as [|seat seats IH]; intros s Hidx.
  - simpl. destruct (decide (s ≤ i)%nat); reflexivity.
  - cbn [map length seq] in Hidx. injection Hidx as Hs Hrest.
    specialize (IH (S s) Hrest).
    unfold seats_after in *. cbn [map find_player_name].
    destruct (player seat) as [p|] eqn:Ep; cbn [sa_player sa_seat].
    + rewrite Hs. destruct (Nat.eqb_spec s i) as [->|Hne].
      * destruct (decide (i ≤ i)%nat); [|lia]. rewrite Nat.sub_diag. simpl.
        rewrite Ep. reflexivity.
      * rewrite IH. destruct (decide (S s ≤ i)%nat); destruct (decide (s ≤ i)%nat);
          try lia; [|reflexivity].
        replace (i - s)%nat with (S (i - S s)) by lia. reflexivity.
    + rewrite IH. destruct (decide (S s ≤ i)%nat); destruct (decide (s ≤ i)%nat);
        try lia; [| |reflexivity].
      * replace (i - s)%nat with (S (i - S s)) by lia. reflexivity.
      * replace i with s by lia. rewrite Nat.sub_diag. simpl. rewrite Ep. reflexivity.
Qed.


Section TableView.

Context {G : Type}.
Context (randint : Z → Z → G → Z * G).
Context (shuffle : list Card → G → list Card * G).

Lemma tally_results_totals (seats_after : list SeatAfter)
    (results : list ResultEntry) :
  let tl := tally_results seats_after results in
  let shown := filter (λ r, counted seats_after r = true) results in
  total_bets tl = total_winnings tl + total_losses tl
  ∧ total_losses tl - total_winnings tl = sumZ (map res_money_delta shown)
  ∧ length (winners tl) = length (filter (λ r, res_money_delta r < 0) shown)
  ∧ length (losers tl) = length (filter (λ r, 0 < res_money_delta r) shown)
  ∧ length (pushes tl) = length (filter (λ r, res_money_delta r = 0) shown)
  ∧ (length (winners tl) + length (losers tl) + length (pushes tl))%nat
    = length shown.
Proof.
  cbv zeta.
  destruct (tally_fold seats_after results (mkTally [] [] [] 0 0 0))
    as (T1 & T2 & T3 & T4 & T5 & T6). cbv zeta in *.
  cbn [total_winnings total_losses total_bets winners losers pushes length] in *.
  fold (tally_results seats_after results) in *.
  set (shown := filter (λ r, counted seats_after r = true) results) in *.
  assert (∀ l : list ResultEntry,
            sumZ (map (λ r, Z.abs (res_money_delta r)) l)
            = sumZ (map (λ r, Z.max 0 (- res_money_delta r)) l)
              + sumZ (map (λ r, Z.max 0 (res_money_delta r)) l)
            ∧ sumZ (map (λ r, Z.max 0 (res_money_delta r)) l)
              - sumZ (map (λ r, Z.max 0 (- res_money_delta r)) l)
              = sumZ (map res_money_delta l)
            ∧ (length (filter (λ r, (res_money_delta r < 0)%Z) l)
               + length (filter (λ r, (0 < res_money_delta r)%Z) l)
               + length (filter (λ r, res_money_delta r = 0%Z) l) = length l)%nat) as Hsums.
  { induction l as [|r l (I1 & I2 & I3)]; [simpl; repeat split; lia|].
    unfold sumZ in *. cbn [map foldr length]. rewrite !filter_cons.
    destruct (decide (res_money_delta r < 0)); destruct (decide (0 < res_money_delta r));
      destruct (decide (res_money_delta r = 0)); cbn [length]; repeat split; lia. }
  destruct (Hsums shown) as (H1 & H2 & H3).
  split; [lia|]. split; [lia|]. split; [lia|]. split; [lia|]. split; lia.
Qed.

(** X19. The round-results box of the table view.  Its total of bets
    is the sum of its winnings and losses, the difference of losses and
    winnings is the sum of the money deltas of the results it counts,
    and winners, losers and pushes are the counted results of negative,
    positive and zero delta.  A result is looked up by the name its
    seat shows after the round; when no name is empty and every seat
    occupied in the round is still occupied after it, the box agrees
    with the event: losses less winnings is the profit delta, and every
    seat occupied in the round is counted once. *)
Theorem round_results_box_totals (seats_after : list SeatAfter)
    (results : list ResultEntry) :
  (let tl := tally_results seats_after results in
   let shown := filter (λ r, counted seats_after r = true) results in
   total_bets tl = total_winnings tl + total_losses tl
   ∧ total_losses tl - total_winnings tl = sumZ (map res_money_delta shown)
   ∧ length (winners tl) = length (filter (λ r, res_money_delta r < 0) shown)
   ∧ length (losers tl) = length (filter (λ r, 0 < res_money_delta r) shown)
   ∧ length (pushes tl) = length (filter (λ r, res_money_delta r = 0) shown))
  ∧ ∀ h c t pool g rd,
      Table_wf t →
      play_round randint shuffle h c t pool g = Ok rd →
      let ev := rd_event rd in
      let tl := tally_results (ev_seats_after ev) (ev_results ev) in
      (∀ i, find_player_name (ev_seats_after ev) i
            = p ← seat_player (rd_table rd) i; Some (first_name (rd_heap rd p)))
      ∧ ((∀ r, first_name (h r) ≠ "") →
         (∀ i, is_Some (seat_player t i) → is_Some (seat_player (rd_table rd) i)) →
         total_losses tl - total_winnings tl = ev_profit_delta ev
         ∧ (length (winners tl) + length (losers tl) + length (pushes tl))%nat
           = occupied (seats_list t)).
Proof.
  split.
  { pose proof (tally_results_totals seats_after results) as H. cbv zeta in *. tauto. }
  intros h c t pool g rd Hwf E. cbv zeta.
  pose proof (tally_results_totals (ev_seats_after (rd_event rd))
                (ev_results (rd_event rd))) as (_ & T2 & _ & _ & _ & T6).
  pose proof (play_round_shape randint shuffle h c t pool g rd E) as (_ & _ & _ & Hidx).
  pose proof (Table_wf_same_indices t (rd_table rd) Hidx Hwf) as Hwf'.
  pose proof (play_round_settled randint shuffle h c t pool g rd E)
    as (_ & Hfound & _ & Hkeys & Hrs & _ & _ & Hdelta & _).
  cbv zeta in *. specialize (Hkeys Hwf).
  pose proof (play_round_Ok randint shuffle h c t pool g rd E)
    as (deck & g1 & bets & hands0 & deck1 & dealer0 & deck2 & hands1 & deck3 & c1
        & dealer & deck4 & h1 & c2 & rs & _ & _ & _ & _ & _ & _ & _ & _ & _ & _ & _ & Hev).
  assert (∀ i, find_player_name (ev_seats_after (rd_event rd)) i
               = p ← seat_player (rd_table rd) i; Some (first_name (rd_heap rd p)))
    as Hname.
  { intros i. rewrite Hev. cbn [ev_seats_after].
    rewrite (find_player_name_positions _ _ 0).
    - destruct (decide (0 ≤ i)%nat); [|lia]. rewrite Nat.sub_0_r.
      unfold seat_player. destruct (seats_list (rd_table rd) !! i); reflexivity.
    - apply Table_wf_indices. exact Hwf'. }
  split; [exact Hname|].
  intros Hnames Hstay.
  assert (filter (λ r, counted (ev_seats_after (rd_event rd)) r = true)
                 (ev_results (rd_event rd))
          = ev_results (rd_event rd)) as Hall.
  { apply filter_all.
    rewrite Hrs. apply Forall_fmap. eapply Forall_impl; [exact Hfound|].
    intros item [Hp _]. unfold counted, compose, item_result. cbn [res_seat_index].
    rewrite Hname. destruct (Hstay _ Hp) as [p' Hp']. rewrite Hp'. simpl.
    pose proof (play_round_identity randint shuffle h c t pool g rd p' E) as Hid.
    unfold identity in Hid. injection Hid as Hfn _ _ _ _. rewrite Hfn.
    destruct (String.eqb_spec (first_name (h p')) ""); [|reflexivity].
    exfalso. eapply Hnames. eassumption. }
  rewrite Hall in *. split.
  - rewrite T2, Hdelta. rewrite Hrs at 1. apply sum_result_deltas.
  - rewrite T6, Hrs, length_map, <- occupied_indices_length, <- Hkeys. unfold dict_keys.
    rewrite length_map. reflexivity.
Qed.

End TableView.


Lemma count_seats_fold (seats : list Seat) (n : Z) :
  fold_left (λ n seat, match player seat with Some _ => n + 1 | None => n end) seats n
  = n + Z.of_nat (occupied seats).
Proof.
  revert n. induction seats as [|seat seats IH]; intros n.
  - change (occupied []) with 0%nat. simpl. lia.
  - cbn [fold_left]. rewrite IH, occupied_cons. destruct (player seat); lia.
Qed.

Lemma count_seats_after_fold (h : Heap) (seats : list Seat) (n : Z) :
  fold_left (λ n s, match sa_player s with Some _ => n + 1 | None => n end)
            (seats_after h seats) n
  = n + Z.of_nat (occupied seats).
Proof.
  revert n. induction seats as [|seat seats IH]; intros n.
  - change (occupied []) with 0%nat. simpl. lia.
  - unfold seats_after in *. cbn [map fold_left]. rewrite IH, occupied_cons.
    destruct (player seat); cbn [sa_player]; lia.
Qed.

Lemma active_players_fold (ts : list Table) (n : Z) :
  fold_left
    (λ n table,
       fold_left (λ n seat, match player seat with Some _ => n + 1 | None => n end)
                 (seats_list table) n)
    ts n
  = n + Z.of_nat (length (all_seated ts)).
Proof.
  revert n. induction ts as [|t ts IH]; intros n.
  - simpl. lia.
  - cbn [fold_left]. rewrite IH, count_seats_fold. unfold all_seated. simpl.
    rewrite length_app. unfold occupied. lia.
Qed.

Section Displays.

Context {G : Type}.
Context (randint : Z → Z → G → Z * G).
Context (shuffle : list Card → G → list Card * G).


(** X21. The counters of the casino view: active players are the
    seated players of all tables; active, waiting and finished players
    together are the players [collect_all_players] gathers; without a
    pool the view shows 0 waiting.  The line of a table shows its id,
    its occupied seats after the round out of its number of seats, and
    the change of the casino's profit in the round. *)
Theorem casino_view_counts_every_player (c : Casino) (player_pool : list ref) :
  active_players c = Z.of_nat (length (all_seated (tables c)))
  ∧ active_players c + waiting_players (Some player_pool)
    + Z.of_nat (length (finished_players c))
    = Z.of_nat (length (collect_all_players c player_pool))
  ∧ waiting_players None = 0
  ∧ ∀ h c0 t pool g rd,
      play_round randint shuffle h c0 t pool g = Ok rd →
      table_summary (rd_event rd)
      = (table_id t,
         Z.of_nat (occupied (seats_list (rd_table rd))),
         Z.of_nat (length (seats_list t)),
         casino_profit (rd_casino rd) - casino_profit c0)
      ∧ (occupied (seats_list (rd_table rd)) ≤ length (seats_list t))%nat.
Proof.
  assert (active_players c = Z.of_nat (length (all_seated (tables c)))) as Ha.
  { unfold active_players. rewrite active_players_fold. lia. }
  split; [exact Ha|]. split.
  { rewrite Ha. unfold collect_all_players, waiting_players, all_seated.
    rewrite !length_app. lia. }
  split; [reflexivity|].
  intros h c0 t pool g rd E.
  pose proof (play_round_shape randint shuffle h c0 t pool g rd E) as (_ & _ & _ & Hidx).
  assert (length (seats_list (rd_table rd)) = length (seats_list t)) as Hlen.
  { rewrite <- (length_map seat_index), Hidx, length_map. reflexivity. }
  apply play_round_Ok in E
    as (deck & g1 & bets & hands0 & deck1 & dealer0 & deck2 & hands1 & deck3 & c1
        & dealer & deck4 & h1 & c2 & rs & _ & _ & _ & _ & _ & _ & _ & _ & _ & _ & _ & Hev).
  split.
  - unfold table_summary. rewrite Hev.
    cbn [ev_table_id ev_seats_after ev_profit_delta].
    rewrite count_seats_after_fold. unfold seats_after. rewrite length_map, Hlen.
    rewrite Z.add_0_l. reflexivity.
  - pose proof (empty_seats_occupied (seats_list (rd_table rd))). lia.
Qed.

End Displays.

(** ** The player view *)

Lemma count_outcomes_fold (history : list (string * Z)) (w l p : Z) :
  fold_left
    (λ '(wins, losses, pushes) h,
       if String.eqb (fst h) "win" then (wins + 1, losses, pushes)
       else if String.eqb (fst h) "loss" then (wins, losses + 1, pushes)
       else (wins, losses, pushes + 1))
    history (w, l, p)
  = (w + Z.of_nat (length (filter (λ e, fst e = "win") history)),
     l + Z.of_nat (length (filter (λ e, fst e = "loss") history)),
     p + Z.of_nat (length (filter (λ e, fst e ≠ "win" ∧ fst e ≠ "loss") history))).
Proof.
  revert w l p. induction history as [|e history IH]; intros w l p.
  - simpl. repeat (f_equal; try lia).
  - cbn [fold_left]. rewrite !filter_cons.
    destruct (String.eqb_spec (fst e) "win") as [Hw|Hw].
    + rewrite IH. destruct (decide (fst e = "win")); [|contradiction].
      destruct (decide (fst e = "loss")); [congruence|].
      destruct (decide (fst e ≠ "win" ∧ fst e ≠ "loss")); [tauto|].
      cbn [length]. repeat (f_equal; try lia).
    + destruct (String.eqb_spec (fst e) "loss") as [Hl|Hl].
      * rewrite IH. destruct (decide (fst e = "win")); [contradiction|].
        destruct (decide (fst e = "loss")); [|contradiction].
        destruct (decide (fst e ≠ "win" ∧ fst e ≠ "loss")); [tauto|].
        cbn [length]. repeat (f_equal; try lia).
      * rewrite IH. destruct (decide (fst e = "win")); [contradiction|].
        destruct (decide (fst e = "loss")); [contradiction|].
        destruct (decide (fst e ≠ "win" ∧ fst e ≠ "loss")); [|tauto].
        cbn [length]. repeat (f_equal; try lia).
Qed.

Lemma bets_of_history_fold (history : list (string * Z)) (bets : list Z) :
  fold_left (λ bets h, if 0 <? snd h then bets ++ [Z.abs (snd h)] else bets)
            history bets
  = bets ++ map (λ e, Z.abs (snd e)) (filter (λ e, 0 < snd e) history).
Proof.
  revert bets. induction history as [|e history IH]; intros bets.
  - simpl. rewrite app_nil_r. reflexivity.
  - cbn [fold_left]. rewrite IH, filter_cons.
    destruct (Z.ltb_spec 0 (snd e)).
    + destruct (decide (0 < snd e)); [|lia]. cbn [map]. rewrite <- app_assoc.
      reflexivity.
    + destruct (decide (0 < snd e)); [lia|]. reflexivity.
Qed.

(** X22. The statistics of the player view: wins, losses and pushes add
    up to the length of the history; the bets averaged are the positive
    stakes.  On a well-formed history these are the stakes of the wins
    and losses, all between 10 and 100, and the pushes are the entries
    [("push", 0)]. *)
Theorem player_view_statistics (history : list (string * Z)) :
  let wins := fst (fst (count_outcomes history)) in
  let losses := snd (fst (count_outcomes history)) in
  let pushes := snd (count_outcomes history) in
  let bets := bets_of_history history in
  wins + losses + pushes = Z.of_nat (length history)
  ∧ (0 ≤ wins ∧ 0 ≤ losses ∧ 0 ≤ pushes)
  ∧ Forall (λ bet, 0 < bet) bets
  ∧ (Forall history_entry_ok history →
     bets = map snd (filter (λ e, fst e ≠ "push") history)
     ∧ Z.of_nat (length bets) = wins + losses
     ∧ pushes = Z.of_nat (length (filter (λ e, e = ("push", 0)) history))
     ∧ Forall (λ bet, 10 ≤ bet ≤ 100) bets).
Proof.
  cbv zeta. unfold count_outcomes, bets_of_history.
  rewrite count_outcomes_fold, bets_of_history_fold. cbn [fst snd app].
  assert (∀ l : list (string * Z),
            (length (filter (λ e, fst e = "win") l)
             + length (filter (λ e, fst e = "loss") l)
             + length (filter (λ e, fst e ≠ "win" ∧ fst e ≠ "loss") l)
             = length l)%nat) as Hsum.
  { induction l as [|e l IH]; [reflexivity|]. rewrite !filter_cons.
    destruct (decide (fst e = "win")); destruct (decide (fst e = "loss"));
      destruct (decide (fst e ≠ "win" ∧ fst e ≠ "loss")); cbn [length];
      try lia; try tauto; congruence. }
  split; [specialize (Hsum history); lia|]. split; [lia|].
  split.
  { apply Forall_fmap, Forall_forall. intros e He.
    apply list_elem_of_filter in He as [He _]. simpl. lia. }
  intros Hok.
  induction Hok as [|e l He _ IH]; [simpl; repeat split; constructor|].
  destruct IH as (I1 & I2 & I3 & I4). rewrite !filter_cons.
  destruct e as [o amt]. unfold history_entry_ok in He. cbn [fst snd] in *.
  destruct He as [[[->| ->] Hamt]|[= -> ->]]; cbn [fst snd] in *;
    repeat match goal with
           | |- context [decide ?P] =>
               destruct (decide P) as [?|?];
               try solve [exfalso;
                          first [discriminate | lia | congruence | tauto
                                | match goal with H : ¬ _ |- _ => apply H end;
                                  first [discriminate | reflexivity
                                        | split; discriminate]]]
           end;
    cbn [map length fst snd]; rewrite ?Z.abs_eq by lia.
  - split; [f_equal; exact I1|]. split; [lia|]. split; [exact I3|].
    constructor; [lia|exact I4].
  - split; [f_equal; exact I1|]. split; [lia|]. split; [exact I3|].
    constructor; [lia|exact I4].
  - split; [exact I1|]. split; [lia|]. split; [lia|exact I4].
Qed.

(** ** Drawing from any deck *)

Lemma draw_cards_short (n : nat) (deck : list Card) :
  (length deck < n)%nat → draw_cards n deck = Raise IndexError_pop_from_empty_list.
Proof.
  revert deck. induction n as [|n IH]; intros deck Hlen; [lia|].
  cbn [draw_cards]. destruct deck as [|card deck _] using rev_ind.
  - rewrite draw_card_nil. reflexivity.
  - rewrite draw_card_snoc. cbn [mbind result_mbind result_bind].
    rewrite IH; [reflexivity|]. rewrite length_app in Hlen. simpl in Hlen. lia.
Qed.

Lemma occurrences_perm (card : Card) (deck deck' : list Card) :
  deck ≡ₚ deck' → occurrences card deck = occurrences card deck'.
Proof. intros H. unfold occurrences. rewrite H. reflexivity. Qed.

Section Shoe.

Context {G : Type}.
Context (shuffle : list Card → G → list Card * G).

(** X10. Drawing [n] cards from a list of at least [n] cards gives its
    last [n] cards, the last one first, and leaves the others in place;
    from a shorter list the draw raises [IndexError].  The cards drawn
    and the cards left always make up the list drawn from.  With a
    generator whose [shuffle] permutes, [shuffle_deck] keeps the number
    of cards and of copies of each card. *)
Theorem draws_take_the_last_cards_first (n : nat) (deck : list Card) :
  ((n ≤ length deck)%nat →
   draw_cards n deck
   = Ok (rev (drop (length deck - n) deck), take (length deck - n) deck))
  ∧ ((length deck < n)%nat →
     draw_cards n deck = Raise IndexError_pop_from_empty_list)
  ∧ (∀ cards deck', draw_cards n deck = Ok (cards, deck') →
       length cards = n ∧ deck = deck' ++ rev cards)
  ∧ (shuffle_permutes shuffle →
     ∀ g card,
       length (fst (shuffle_deck shuffle deck g)) = length deck
       ∧ occurrences card (fst (shuffle_deck shuffle deck g)) = occurrences card deck).
Proof.
  split; [apply draw_cards_enough|]. split; [apply draw_cards_short|].
  split; [apply draw_cards_Ok|].
  intros Hs g card. pose proof (shuffle_deck_permutes shuffle deck g Hs) as Hperm.
  split; [rewrite Hperm; reflexivity|apply occurrences_perm; exact Hperm].
Qed.

End Shoe.

(** ** Generated players *)

Lemma can_play_not_finished (q : Player) : can_play q → finished q = false.
Proof.
  unfold can_play, finished. intros [H1 H2]. apply orb_false_iff.
  split; [apply Z.ltb_ge; lia|apply Z.leb_gt; lia].
Qed.

Section GeneratedPlayers.

Context {G : Type}.
Context (choices : list string → list Z → G → string * G).
Context (randint : Z → Z → G → Z * G).
Context (fake_first_name fake_last_name : G → string * G).
Context (fake_unique_email : G → option (string * G)).

(** Two calls of [randint] in a row. *)
Lemma randint_pair (lo hi lo' hi' : Z) (g : G) :
  randint_in_range randint →
  lo ≤ hi → lo' ≤ hi' →
  lo ≤ fst (randint lo hi g) ≤ hi
  ∧ lo' ≤ fst (randint lo' hi' (snd (randint lo hi g))) ≤ hi'.
Proof. intros Hr H1 H2. split; apply Hr; assumption. Qed.

Lemma generate_player_Some (pid : Z) (g : G) (p : Player) (g' : G) :
  randint_in_range randint →
  generate_player choices randint fake_first_name fake_last_name fake_unique_email
                  pid g = Some (p, g') →
  player_id p = pid
  ∧ history p = []
  ∧ player_type p
    = fst (choices ["casual"; "regular"; "aggressive"; "high_roller"]
                   [70; 20; 8; 2] g)
  ∧ (player_type p = "casual" →
     1000 ≤ money_left p ≤ 2500 ∧ 5 ≤ rounds_left p ≤ 10)
  ∧ (player_type p = "regular" →
     2000 ≤ money_left p ≤ 4000 ∧ 10 ≤ rounds_left p ≤ 20)
  ∧ (player_type p = "aggressive" →
     3000 ≤ money_left p ≤ 8000 ∧ 8 ≤ rounds_left p ≤ 15)
  ∧ (player_type p ≠ "casual" → player_type p ≠ "regular" →
     player_type p ≠ "aggressive" →
     8000 ≤ money_left p ≤ 20000 ∧ 15 ≤ rounds_left p ≤ 40)
  ∧ 1000 ≤ money_left p ≤ 20000 ∧ 5 ≤ rounds_left p ≤ 40.
Proof.
  intros Hr. unfold generate_player.
  destruct (choices _ _ g) as [ptype g1]. cbn [fst].
  destruct (String.eqb_spec ptype "casual") as [->|Hc].
  { pose proof (randint_pair 1000 2500 5 10 g1 Hr ltac:(lia) ltac:(lia)) as Hp.
    destruct (randint 1000 2500 g1) as [money g2]. cbn [fst snd] in Hp.
    destruct (randint 5 10 g2) as [rounds g3]. cbn [fst snd] in Hp.
    destruct (fake_first_name g3) as [fn g4]. destruct (fake_last_name g4) as [ln g5].
    destruct (fake_unique_email g5) as [[em g6]|]; [|discriminate].
    intros [= <- <-]. cbn [player_id history player_type money_left rounds_left].
    repeat split; try lia; try discriminate; intros; congruence. }
  destruct (String.eqb_spec ptype "regular") as [->|Hg].
  { pose proof (randint_pair 2000 4000 10 20 g1 Hr ltac:(lia) ltac:(lia)) as Hp.
    destruct (randint 2000 4000 g1) as [money g2]. cbn [fst snd] in Hp.
    destruct (randint 10 20 g2) as [rounds g3]. cbn [fst snd] in Hp.
    destruct (fake_first_name g3) as [fn g4]. destruct (fake_last_name g4) as [ln g5].
    destruct (fake_unique_email g5) as [[em g6]|]; [|discriminate].
    intros [= <- <-]. cbn [player_id history player_type money_left rounds_left].
    repeat split; try lia; try discriminate; intros; congruence. }
  destruct (String.eqb_spec ptype "aggressive") as [->|Ha].
  { pose proof (randint_pair 3000 8000 8 15 g1 Hr ltac:(lia) ltac:(lia)) as Hp.
    destruct (randint 3000 8000 g1) as [money g2]. cbn [fst snd] in Hp.
    destruct (randint 8 15 g2) as [rounds g3]. cbn [fst snd] in Hp.
    destruct (fake_first_name g3) as [fn g4]. destruct (fake_last_name g4) as [ln g5].
    destruct (fake_unique_email g5) as [[em g6]|]; [|discriminate].
    intros [= <- <-]. cbn [player_id history player_type money_left rounds_left].
    repeat split; try lia; try discriminate; intros; congruence. }
  pose proof (randint_pair 8000 20000 15 40 g1 Hr ltac:(lia) ltac:(lia)) as Hp.
  destruct (randint 8000 20000 g1) as [money g2]. cbn [fst snd] in Hp.
  destruct (randint 15 40 g2) as [rounds g3]. cbn [fst snd] in Hp.
  destruct (fake_first_name g3) as [fn g4]. destruct (fake_last_name g4) as [ln g5].
  destruct (fake_unique_email g5) as [[em g6]|]; [|discriminate].
  intros [= <- <-]. cbn [player_id history player_type money_left rounds_left].
  repeat split; try lia; try reflexivity; intros; try contradiction; lia.
Qed.

Lemma generate_player_total (pid : Z) (g : G) :
  (∀ g0, is_Some (fake_unique_email g0)) →
  is_Some (generate_player choices randint fake_first_name fake_last_name
                           fake_unique_email pid g).
Proof.
  intros He. unfold generate_player.
  destruct (choices _ _ g) as [ptype g1].
  destruct (if String.eqb ptype "casual" then _ else _) as [[money rounds] g3].
  destruct (fake_first_name g3) as [fn g4]. destruct (fake_last_name g4) as [ln g5].
  destruct (He g5) as [[em g6] ->]. eexists. reflexivity.
Qed.

Lemma generate_players_Some (ids : list nat) (pool : list Player) (g : G)
    (pool' : list Player) (g' : G) :
  randint_in_range randint →
  generate_players choices randint fake_first_name fake_last_name fake_unique_email
                   ids pool g = Some (pool', g') →
  ∃ new,
    pool' = pool ++ new
    ∧ map player_id new = map Z.of_nat ids
    ∧ Forall (λ p, history p = []
                   ∧ 1000 ≤ money_left p ≤ 20000 ∧ 5 ≤ rounds_left p ≤ 40) new.
Proof.
  intros Hr. revert pool g. induction ids as [|i ids IH]; intros pool g; cbn [generate_players].
  - intros [= <- <-]. exists []. rewrite app_nil_r. split; [reflexivity|].
    split; [reflexivity|constructor].
  - destruct (generate_player _ _ _ _ _ (Z.of_nat i) g) as [[p g1]|] eqn:E;
      [|discriminate]. cbn [mbind option_bind].
    intros Hrest. apply IH in Hrest as (new & -> & Hids & Hall).
    apply (generate_player_Some _ _ _ _ Hr) in E as (Hid & Hh & _ & _ & _ & _ & _ & Hm).
    exists (p :: new). rewrite <- app_assoc. split; [reflexivity|].
    split; [cbn [map]; rewrite Hid, Hids; reflexivity|].
    constructor; [|exact Hall]. auto.
Qed.

Lemma generate_players_total (ids : list nat) (pool : list Player) (g : G) :
  (∀ g0, is_Some (fake_unique_email g0)) →
  is_Some (generate_players choices randint fake_first_name fake_last_name
                            fake_unique_email ids pool g).
Proof.
  intros He. revert pool g. induction ids as [|i ids IH]; intros pool g;
    cbn [generate_players].
  - eexists. reflexivity.
  - destruct (generate_player_total (Z.of_nat i) g He) as [[p g1] ->].
    cbn [mbind option_bind]. apply IH.
Qed.

(** X15. A player made by [generate_player] has the requested id, an
    empty history and the type drawn by [random.choices]; money and
    rounds lie in the ranges of that type (1000..2500 and 5..10 for
    casual, 2000..4000 and 10..20 for regular, 3000..8000 and 8..15 for
    aggressive, 8000..20000 and 15..40 for any other type); so a new
    player can always sit down and play. *)
Theorem generated_player_by_type (pid : Z) (g : G) (p : Player) (g' : G) :
  randint_in_range randint →
  generate_player choices randint fake_first_name fake_last_name fake_unique_email
                  pid g = Some (p, g') →
  player_id p = pid
  ∧ history p = []
  ∧ player_type p
    = fst (choices ["casual"; "regular"; "aggressive"; "high_roller"]
                   [70; 20; 8; 2] g)
  ∧ (player_type p = "casual" →
     1000 ≤ money_left p ≤ 2500 ∧ 5 ≤ rounds_left p ≤ 10)
  ∧ (player_type p = "regular" →
     2000 ≤ money_left p ≤ 4000 ∧ 10 ≤ rounds_left p ≤ 20)
  ∧ (player_type p = "aggressive" →
     3000 ≤ money_left p ≤ 8000 ∧ 8 ≤ rounds_left p ≤ 15)
  ∧ (player_type p ≠ "casual" → player_type p ≠ "regular" →
     player_type p ≠ "aggressive" →
     8000 ≤ money_left p ≤ 20000 ∧ 15 ≤ rounds_left p ≤ 40)
  ∧ can_play p ∧ finished p = false.
Proof.
  intros Hr E.
  destruct (generate_player_Some pid g p g' Hr E)
    as (H1 & H2 & H3 & H4 & H5 & H6 & H7 & H8).
  assert (can_play p) as Hcan by (unfold can_play; lia).
  repeat (split; [assumption|]).
  apply can_play_not_finished. exact Hcan.
Qed.

(** X16. [generate_player_pool] gives [count] players (none for a
    count of 0 or less) whose ids are 0, 1, ..., [count - 1] in order,
    hence different, every one able to play and with an empty history.
    It fails only when Faker finds no unused email address. *)
Theorem generated_pool_is_numbered_and_can_play (count : Z) (g : G) :
  randint_in_range randint →
  (∀ pool g',
     generate_player_pool choices randint fake_first_name fake_last_name
                          fake_unique_email count g = Some (pool, g') →
     length pool = Z.to_nat count
     ∧ map player_id pool = map Z.of_nat (seq 0 (Z.to_nat count))
     ∧ NoDup (map player_id pool)
     ∧ Forall (λ p, can_play p ∧ history p = []) pool
     ∧ (count ≤ 0 → pool = []))
  ∧ ((∀ g0, is_Some (fake_unique_email g0)) →
     is_Some (generate_player_pool choices randint fake_first_name fake_last_name
                                   fake_unique_email count g)).
Proof.
  intros Hr. split; [|intros He; apply generate_players_total; exact He].
  intros pool g' E. unfold generate_player_pool in E.
  apply (generate_players_Some _ _ _ _ _ Hr) in E as (new & -> & Hids & Hall).
  cbn [app].
  assert (length new = Z.to_nat count) as Hlen.
  { rewrite <- (length_map player_id), Hids, length_map, length_seq. reflexivity. }
  split; [exact Hlen|]. split; [exact Hids|].
  split.
  { rewrite Hids. apply NoDup_fmap; [intros a b; lia|apply NoDup_seq]. }
  split.
  { eapply Forall_impl; [exact Hall|]. intros p (Hh & Hm & Hk).
    unfold can_play. split; [lia|exact Hh]. }
  intros Hc. apply length_zero_iff_nil. lia.
Qed.

End GeneratedPlayers.

(** ** Which rounds are shown *)

Lemma tracked_in_Some (lower : string → string) (name : string)
    (results : list ResultEntry) :
  tracked_in lower (Some name) results
  = Ok (bool_decide (Exists (λ r, lower (res_player_name r) = lower name) results)).
Proof.
  induction results as [|r results IH]; cbn [tracked_in].
  - rewrite bool_decide_eq_false_2; [reflexivity|]. intros H. inversion H.
  - destruct (String.eqb_spec (lower (res_player_name r)) (lower name)) as [He|Hne].
    + rewrite bool_decide_eq_true_2; [reflexivity|]. left. exact He.
    + rewrite IH. f_equal. apply bool_decide_ext. rewrite Exists_cons. tauto.
Qed.

Lemma player_view_events_Some (lower : string → string) (cfg : RunConfig)
    (name : string) (events filtered : list Event) :
  tracked_player cfg = Some name →
  player_view_events lower cfg events filtered
  = Ok (filtered ++ filter (mentions lower name) events).
Proof.
  intros Hn. revert filtered. induction events as [|ev events IH]; intros filtered;
    cbn [player_view_events].
  - rewrite app_nil_r. reflexivity.
  - rewrite Hn, tracked_in_Some. cbn [mbind result_mbind result_bind].
    rewrite IH, filter_cons. unfold mentions at 2.
    destruct (decide (Exists _ (ev_results ev))) as [He|Hne].
    + rewrite bool_decide_eq_true_2 by exact He. rewrite <- app_assoc. reflexivity.
    + rewrite bool_decide_eq_false_2 by exact Hne. reflexivity.
Qed.

Lemma player_view_events_None (lower : string → string) (cfg : RunConfig)
    (events filtered : list Event) :
  tracked_player cfg = None →
  (Forall (λ ev, ev_results ev = []) events →
   player_view_events lower cfg events filtered = Ok filtered)
  ∧ (Exists (λ ev, ev_results ev ≠ []) events →
     player_view_events lower cfg events filtered = Raise AttributeError).
Proof.
  intros Hn. split.
  - intros H. revert filtered. induction H as [|ev events He _ IH]; intros filtered;
      cbn [player_view_events]; [reflexivity|].
    rewrite He. cbn [tracked_in mbind result_mbind result_bind]. apply IH.
  - intros H. revert filtered. induction events as [|ev events IH]; intros filtered;
      [inversion H|]. cbn [player_view_events]. rewrite Hn.
    destruct (ev_results ev) as [|r rs] eqn:Er.
    + cbn [tracked_in mbind result_mbind result_bind]. apply IH.
      apply Exists_cons in H as [H|H]; [contradiction|exact H].
    + reflexivity.
Qed.

Lemma filter_at_most_one {A B : Type} `{EqDecision B} (f : A → B) (b : B) (l : list A) :
  NoDup (map f l) → (length (filter (λ x, f x = b) l) ≤ 1)%nat.
Proof.
  induction l as [|x l IH]; cbn [map]; intros Hnd; [simpl; lia|].
  apply NoDup_cons in Hnd as [Hx Hnd]. rewrite filter_cons.
  destruct (decide (f x = b)) as [<-|Hne]; [|auto].
  rewrite filter_none; [simpl; lia|].
  apply Forall_forall. intros y Hy Heq. apply Hx. rewrite <- Heq.
  apply list_elem_of_fmap_2. exact Hy.
Qed.

Section Shown.

Context {G : Type}.
Context (randint : Z → Z → G → Z * G).
Context (shuffle : list Card → G → list Card * G).
Context (lower : string → string).

(** X23. What a tick displays.  In casino mode all events of the round
    go to the casino view; in table mode the events of the tracked
    table go to the table view, each on its own (none without a tracked
    table, at most one when the table ids differ, exactly one for a
    tracked table of the casino); in player mode the events with a
    result for the tracked name, compared in lower case, go to the
    player view, which is not called without such an event; with no
    tracked name the comparison raises [AttributeError] at the first
    result; any other mode displays nothing. *)
Theorem what_a_tick_displays (run_config : RunConfig) (round_events : list Event) :
  (view_mode run_config = "casino" →
   shown lower run_config round_events = Ok (ShowCasino round_events))
  ∧ (view_mode run_config = "table" →
     shown lower run_config round_events
     = Ok (ShowTables (table_view_events run_config round_events))
     ∧ (∀ ev, ev ∈ table_view_events run_config round_events
              ↔ ev ∈ round_events ∧ Some (ev_table_id ev) = tracked_table run_config)
     ∧ (tracked_table run_config = None →
        table_view_events run_config round_events = [])
     ∧ (NoDup (map ev_table_id round_events) →
        (length (table_view_events run_config round_events) ≤ 1)%nat))
  ∧ (view_mode run_config = "player" →
     (∀ name, tracked_player run_config = Some name →
        shown lower run_config round_events
        = Ok (match filter (mentions lower name) round_events with
              | [] => ShowNothing
              | event_list => ShowPlayer event_list
              end))
     ∧ (tracked_player run_config = None →
        (Forall (λ ev, ev_results ev = []) round_events →
         shown lower run_config round_events = Ok ShowNothing)
        ∧ (Exists (λ ev, ev_results ev ≠ []) round_events →
           shown lower run_config round_events = Raise AttributeError)))
  ∧ (∀ event_list,
       shown lower run_config round_events = Ok (ShowPlayer event_list) →
       event_list ≠ [] ∧ is_Some (last event_list))
  ∧ (view_mode run_config ≠ "casino" → view_mode run_config ≠ "table" →
     view_mode run_config ≠ "player" →
     shown lower run_config round_events = Ok ShowNothing)
  ∧ ∀ (st : Sim G) st2,
      tick randint shuffle st = Ok (round_events, st2) →
      map ev_table_id round_events = map table_id (tables (sim_casino st))
      ∧ (NoDup (map table_id (tables (sim_casino st))) →
         ∀ id, tracked_table run_config = Some id →
               id ∈ map table_id (tables (sim_casino st)) →
               ∃ ev, table_view_events run_config round_events = [ev]
                     ∧ ev_table_id ev = id).
Proof.
  split.
  { intros Hm. unfold shown. rewrite Hm. reflexivity. }
  split.
  { intros Hm. split; [unfold shown; rewrite Hm; reflexivity|].
    split.
    { intros ev. unfold table_view_events. rewrite list_elem_of_filter. tauto. }
    split.
    { intros Hn. unfold table_view_events. apply filter_none.
      apply Forall_forall. intros ev _. rewrite Hn. discriminate. }
    intros Hnd. unfold table_view_events.
    destruct (tracked_table run_config) as [id|].
    - pose proof (filter_at_most_one ev_table_id id round_events Hnd) as H.
      erewrite list_filter_iff; [exact H|]. intros ev. cbv beta. split; congruence.
    - rewrite filter_none; [simpl; lia|]. apply Forall_forall. intros ev _. discriminate. }
  split.
  { intros Hm. split.
    - intros name Hn. unfold shown. rewrite Hm. cbn [String.eqb].
      change (String.eqb "player" "casino") with false.
      change (String.eqb "player" "table") with false.
      change (String.eqb "player" "player") with true. cbv iota.
      rewrite (player_view_events_Some lower run_config name _ _ Hn). cbn [app].
      cbn [mbind result_mbind result_bind].
      destruct (filter (mentions lower name) round_events); reflexivity.
    - intros Hn. destruct (player_view_events_None lower run_config round_events [] Hn)
        as [H1 H2].
      split; intros H; unfold shown; rewrite Hm;
        change (String.eqb "player" "casino") with false;
        change (String.eqb "player" "table") with false;
        change (String.eqb "player" "player") with true; cbv iota.
      + rewrite (H1 H). reflexivity.
      + rewrite (H2 H). reflexivity. }
  split.
  { intros event_list. unfold shown.
    destruct (String.eqb (view_mode run_config) "casino"); [discriminate|].
    destruct (String.eqb (view_mode run_config) "table"); [discriminate|].
    destruct (String.eqb (view_mode run_config) "player"); [|discriminate].
    destruct (player_view_events lower run_config round_events []) as [[|ev l]|e];
      cbn [mbind result_mbind result_bind]; try discriminate.
    intros [= <-]. split; [discriminate|].
    destruct (last (ev :: l)) eqn:El; [eauto|].
    apply last_None in El. discriminate. }
  split.
  { intros H1 H2 H3. unfold shown.
    destruct (String.eqb_spec (view_mode run_config) "casino"); [contradiction|].
    destruct (String.eqb_spec (view_mode run_config) "table"); [contradiction|].
    destruct (String.eqb_spec (view_mode run_config) "player"); [contradiction|].
    reflexivity. }
  intros st st2 E.
  apply tick_shape in E as (_ & _ & Hids & _). split; [exact Hids|].
  intros Hnd id Hid Hin. rewrite <- Hids in Hnd, Hin.
  apply list_elem_of_fmap in Hin as (ev & -> & Hev).
  pose proof (filter_at_most_one ev_table_id (ev_table_id ev) round_events Hnd) as Hle.
  assert (ev ∈ table_view_events run_config round_events) as Hmem.
  { unfold table_view_events. apply list_elem_of_filter. rewrite Hid. auto. }
  assert (table_view_events run_config round_events
          = filter (λ x, ev_table_id x = ev_table_id ev) round_events) as Heq.
  { unfold table_view_events. apply list_filter_iff. intros x. rewrite Hid.
    split; congruence. }
  rewrite Heq in *.
  destruct (filter (λ x, ev_table_id x = ev_table_id ev) round_events) as [|a [|b l]].
  - inversion Hmem.
  - exists a. split; [reflexivity|].
    apply elem_of_cons in Hmem as [->|Hmem]; [reflexivity|inversion Hmem].
  - simpl in Hle. lia.
Qed.

End Shown.

(** ** The properties on the sample data *)

Lemma play_round_keeps_table_shape_witness :
  ∃ rd,
    play_round counting_randint reversing_shuffle sample_heap sample_casino
               sample_table [3; 4]%nat 0%nat = Ok rd
    ∧ current_round_number (rd_table rd) = 2
    ∧ length (seats_list (rd_table rd)) = 3%nat.
Proof.
  destruct sample_round_Ok as [rd E]. exists rd. split; [exact E|].
  destruct (play_round_keeps_table_shape _ _ _ _ _ _ _ _ E)
    as (_ & Hlen & _ & _ & Hround & _).
  split; [exact Hround|exact Hlen].
Defined.

Lemma round_event_layout_witness :
  ∃ rd,
    randint_in_range counting_randint
    ∧ Table_wf sample_table
    ∧ play_round counting_randint reversing_shuffle sample_heap sample_casino
                 sample_table [3; 4]%nat 0%nat = Ok rd
    ∧ map res_seat_index (ev_results (rd_event rd)) = [0; 1; 2]%nat.
Proof.
  destruct sample_round_Ok as [rd E]. exists rd.
  split; [exact counting_randint_in_range|]. split; [exact sample_table_wf|].
  split; [exact E|].
  destruct (round_event_layout _ _ _ _ _ _ _ _ counting_randint_in_range
              sample_table_wf E) as (_ & _ & H & _).
  exact H.
Defined.

Lemma round_changes_only_seated_players_witness :
  ∃ rd,
    randint_in_range counting_randint
    ∧ play_round counting_randint reversing_shuffle sample_heap sample_casino
                 sample_table [3; 4]%nat 0%nat = Ok rd
    ∧ rd_heap rd 3%nat = sample_heap 3%nat
    ∧ rounds_left (rd_heap rd 0%nat) = 4.
Proof.
  destruct sample_round_Ok as [rd E]. exists rd.
  split; [exact counting_randint_in_range|]. split; [exact E|].
  destruct (round_changes_only_seated_players _ _ _ _ _ _ _ _
              counting_randint_in_range E) as (Hout & _ & Hin).
  split.
  - apply Hout. apply (bool_decide_unpack _). vm_compute. exact I.
  - destruct (Hin sample_table_wf sample_seated_NoDup 0%nat) as [H _]; [|exact H].
    apply (bool_decide_unpack _). vm_compute. exact I.
Defined.

Lemma history_entries_stay_well_formed_witness :
  ∃ rd,
    randint_in_range counting_randint
    ∧ play_round counting_randint reversing_shuffle sample_heap sample_casino
                 sample_table [3; 4]%nat 0%nat = Ok rd
    ∧ Forall history_entry_ok (history (sample_heap 0%nat))
    ∧ Forall history_entry_ok (history (rd_heap rd 0%nat)).
Proof.
  destruct sample_round_Ok as [rd E]. exists rd.
  split; [exact counting_randint_in_range|]. split; [exact E|].
  split; [constructor|].
  apply (history_entries_stay_well_formed _ _ _ _ _ _ _ _
           counting_randint_in_range E 0%nat (Forall_nil_2 _)).
Defined.

Lemma final_totals_between_18_and_28_witness :
  ∃ rd,
    shuffle_permutes reversing_shuffle
    ∧ play_round counting_randint reversing_shuffle sample_heap sample_casino
                 sample_table [3; 4]%nat 0%nat = Ok rd
    ∧ 18 ≤ hand_total (ev_dealer_hand (rd_event rd)) ≤ 28.
Proof.
  destruct sample_round_Ok as [rd E]. exists rd.
  split; [exact reversing_shuffle_permutes|]. split; [exact E|].
  apply (final_totals_between_18_and_28 _ _ _ _ _ _ _ _ reversing_shuffle_permutes E).
Defined.

Lemma round_at_an_empty_table_witness :
  shuffle_permutes reversing_shuffle
  ∧ seated (seats_list (Table_init 7 2)) = []
  ∧ ∃ rd,
      play_round counting_randint reversing_shuffle sample_heap sample_casino
                 (Table_init 7 2) [3; 4]%nat 0%nat = Ok rd
      ∧ ev_results (rd_event rd) = []
      ∧ seated (seats_list (rd_table rd)) = [3; 4]%nat.
Proof.
  split; [exact reversing_shuffle_permutes|]. split; [reflexivity|].
  destruct (round_at_an_empty_table counting_randint reversing_shuffle sample_heap
              sample_casino (Table_init 7 2) [3; 4]%nat 0%nat
              reversing_shuffle_permutes eq_refl)
    as (rd & E & (_ & _ & Hrs & _) & _ & _ & _ & _ & _ & Hseated & _).
  exists rd. split; [exact E|]. split; [exact Hrs|exact Hseated].
Defined.

Lemma sample_table_playable : Forall playable [sample_table].
Proof.
  constructor; [|constructor]. split; [exact sample_table_wf|]. vm_compute. lia.
Qed.

Lemma run_simulation_completes_witness :
  shuffle_permutes reversing_shuffle
  ∧ Forall playable (tables (set_tables [sample_table] sample_casino))
  ∧ ∃ st,
      run_simulation counting_randint reversing_shuffle sample_heap
                     (set_tables [sample_table] sample_casino) [3; 4]%nat 1 0%nat
      = Ok (60, st).
Proof.
  split; [exact reversing_shuffle_permutes|]. split; [exact sample_table_playable|].
  destruct (run_simulation_completes counting_randint reversing_shuffle sample_heap
              (set_tables [sample_table] sample_casino) [3; 4]%nat 1 0%nat
              reversing_shuffle_permutes sample_table_playable) as (st & E & _).
  exists st. exact E.
Defined.

Lemma sample_run_Ok :
  ∃ st,
    run_simulation counting_randint reversing_shuffle sample_heap
                   (set_tables [sample_table] sample_casino) [3; 4]%nat 1 0%nat
    = Ok (60, st).
Proof.
  unfold run_simulation.
  destruct (fill_tables_shape (tables (set_tables [sample_table] sample_casino))
              [3; 4]%nat) as [F1 _].
  destruct (fill_tables (tables (set_tables [sample_table] sample_casino))
              [3; 4]%nat) as [ts pool0].
  cbn [fst] in F1.
  assert (Forall playable ts) as Hall
    by (eapply playable_shapes; [exact F1|exact sample_table_playable]).
  destruct (ticks_complete counting_randint reversing_shuffle 6
              (mkSim sample_heap (set_tables ts (set_tables [sample_table] sample_casino))
                     pool0 0%nat 0)
              reversing_shuffle_permutes Hall) as [st E].
  change (Z.to_nat (1 * 60 / 10)) with 6%nat. rewrite E.
  cbn [mbind result_mbind result_bind].
  apply ticks_shape in E as (_ & _ & S3). exists st. rewrite S3. reflexivity.
Qed.

Lemma simulation_keeps_every_player_witness :
  ∃ st,
    run_simulation counting_randint reversing_shuffle sample_heap
                   (set_tables [sample_table] sample_casino) [3; 4]%nat 1 0%nat
    = Ok (60, st)
    ∧ collect_all_players (sim_casino st) (sim_player_pool st)
      ≡ₚ [0; 1; 2; 3; 4]%nat.
Proof.
  destruct sample_run_Ok as [st E]. exists st. split; [exact E|].
  apply (simulation_keeps_every_player _ _ _ _ _ _ _ _ _ E).
Defined.

Lemma sample_floor_owners :
  NoDup (collect_all_players (sim_casino sample_floor) (sim_player_pool sample_floor)).
Proof. apply (bool_decide_unpack _). vm_compute. exact I. Qed.

Lemma sample_floor_tick :
  ∃ events st2, tick counting_randint reversing_shuffle sample_floor = Ok (events, st2).
Proof.
  apply tick_completes; [exact reversing_shuffle_permutes|exact sample_table_playable].
Qed.

(** The tick of the sample state that ends at the half hour: players 5
    and 6 are revived, player 7 waits. *)
Lemma money_moves_only_between_players_and_house_witness :
  ∃ events st2,
    randint_in_range counting_randint
    ∧ NoDup (collect_all_players (sim_casino sample_sim) (sim_player_pool sample_sim))
    ∧ tick counting_randint reversing_shuffle sample_sim = Ok (events, st2)
    ∧ 500 ≤ money_left (sim_heap st2 5%nat) - money_left (sample_heap 5%nat) ≤ 1000
    ∧ money_left (sim_heap st2 7%nat) = money_left (sample_heap 7%nat)
    ∧ casino_profit (sim_casino st2) = 0.
Proof.
  destruct (tick counting_randint reversing_shuffle sample_sim)
    as [[events st2]|e] eqn:E; [|discriminate E].
  exists events, st2.
  split; [exact counting_randint_in_range|].
  split; [exact sample_sim_owners|]. split; [reflexivity|].
  destruct (money_moves_only_between_players_and_house counting_randint
              reversing_shuffle sample_sim events st2
              counting_randint_in_range sample_sim_owners E)
    as (_ & ts & h & c & pool & g & Hplay & _ & Hprofit & Hin & Hout & _).
  injection Hplay as <- <- <- <- <- <-.
  split; [|split; [|exact Hprofit]].
  - apply Hin. apply (bool_decide_unpack _). vm_compute. exact I.
  - apply Hout. apply (bool_decide_unpack _). vm_compute. exact I.
Defined.

Lemma sample_floor_solvent :
  solvent (sim_heap sample_floor) (sim_casino sample_floor)
          (sim_player_pool sample_floor).
Proof.
  split; intros p _; [unfold can_play|unfold owes_nothing];
    unfold sample_floor, flush_heap; cbn [sim_heap money_left rounds_left]; lia.
Qed.

Lemma sample_floor_wf : Forall Table_wf (tables (sim_casino sample_floor)).
Proof. constructor; [exact sample_table_wf|constructor]. Qed.

Lemma sample_floor_ticks :
  ∃ st, ticks counting_randint reversing_shuffle 3 sample_floor = Ok st.
Proof.
  apply ticks_complete; [exact reversing_shuffle_permutes|exact sample_table_playable].
Qed.

Lemma no_player_goes_into_debt_witness :
  ∃ st,
    randint_in_range counting_randint
    ∧ Forall Table_wf (tables (sim_casino sample_floor))
    ∧ NoDup (collect_all_players (sim_casino sample_floor)
                                 (sim_player_pool sample_floor))
    ∧ solvent (sim_heap sample_floor) (sim_casino sample_floor)
              (sim_player_pool sample_floor)
    ∧ ticks counting_randint reversing_shuffle 3 sample_floor = Ok st
    ∧ solvent (sim_heap st) (sim_casino st) (sim_player_pool st).
Proof.
  destruct sample_floor_ticks as [st E]. exists st.
  split; [exact counting_randint_in_range|]. split; [exact sample_floor_wf|].
  split; [exact sample_floor_owners|]. split; [exact sample_floor_solvent|].
  split; [exact E|].
  apply (no_player_goes_into_debt _ _ _ _ _ counting_randint_in_range
           sample_floor_wf sample_floor_owners sample_floor_solvent E).
Defined.

Lemma generated_player_by_type_witness :
  ∃ p g',
    randint_in_range counting_randint
    ∧ generate_player sample_choices counting_randint sample_name sample_name
                      sample_email 7 1%nat = Some (p, g')
    ∧ player_type p = "regular"
    ∧ 2000 ≤ money_left p ≤ 4000.
Proof.
  destruct (generate_player sample_choices counting_randint sample_name sample_name
                            sample_email 7 1%nat) as [[p g']|] eqn:E;
    [|vm_compute in E; discriminate E].
  exists p, g'. split; [exact counting_randint_in_range|]. split; [reflexivity|].
  destruct (generated_player_by_type _ _ _ _ _ _ _ _ _ counting_randint_in_range E)
    as (_ & _ & Htype & _ & Hreg & _).
  assert (player_type p = "regular") as Ht by (rewrite Htype; reflexivity).
  split; [exact Ht|]. apply Hreg. exact Ht.
Defined.

Lemma generated_pool_is_numbered_and_can_play_witness :
  randint_in_range counting_randint
  ∧ is_Some (generate_player_pool sample_choices counting_randint sample_name
                                  sample_name sample_email 3 0%nat).
Proof.
  split; [exact counting_randint_in_range|].
  apply (generated_pool_is_numbered_and_can_play sample_choices counting_randint
           sample_name sample_name sample_email 3 0%nat counting_randint_in_range).
  intros g0. eexists. reflexivity.
Defined.



(** ** More of the properties on the sample data *)

(** Three seats and four players waiting. *)
Lemma new_table_seats_pool_in_order_witness :
  seated (seats_list (fst (fill_empty_seats (Table_init 1 3) [0; 1; 2; 5]%nat)))
  = [0; 1; 2]%nat
  ∧ snd (fill_empty_seats (Table_init 1 3) [0; 1; 2; 5]%nat) = [5%nat].
Proof.
  destruct (new_table_seats_pool_in_order 1 3 [0; 1; 2; 5]%nat)
    as (_ & _ & _ & _ & _ & _ & _ & Hseated & Hpool).
  split; [exact Hseated|exact Hpool].
Defined.

(** Two empty seats and one player waiting. *)
Lemma fill_empty_seats_saturates_witness :
  empty_seats (seats_list (fst (fill_empty_seats (Table_init 7 2) [3%nat]))) = 1%nat
  ∧ snd (fill_empty_seats (Table_init 7 2) [3%nat]) = [].
Proof.
  destruct (fill_empty_seats_saturates (Table_init 7 2) [3%nat])
    as (_ & Hempty & Hpool & _).
  split; [exact Hempty|exact Hpool].
Defined.


(** Two draws from the sample hand and a card below it. *)
Lemma draws_take_the_last_cards_first_witness :
  draw_cards 2 (("7", "Club", 7) :: sample_hand)
  = Ok ([("10", "Heart", 10); ("A", "Spade", 11)], [("7", "Club", 7)])
  ∧ draw_cards 4 (("7", "Club", 7) :: sample_hand)
    = Raise IndexError_pop_from_empty_list.
Proof.
  destruct (draws_take_the_last_cards_first reversing_shuffle 2
              (("7", "Club", 7) :: sample_hand)) as (Hdraw & _).
  destruct (draws_take_the_last_cards_first reversing_shuffle 4
              (("7", "Club", 7) :: sample_hand)) as (_ & Hshort & _).
  split.
  - apply Hdraw. cbn. lia.
  - apply Hshort. cbn. lia.
Defined.

Lemma sample_hand_shoe_cards : Forall shoe_card sample_hand.
Proof.
  repeat constructor; cbn [fst snd]; apply (bool_decide_unpack _); vm_compute; exact I.
Qed.

Lemma ascii_cards_draws_every_shoe_card_witness :
  ∃ lines,
    ascii_cards sample_hand = Ok lines
    ∧ length lines = 5%nat
    ∧ Forall (λ line, py_len line = 24%nat) lines.
Proof.
  destruct (ascii_cards_draws_every_shoe_card counting_randint reversing_shuffle
              sample_hand) as (Hdrawn & _).
  exact (Hdrawn sample_hand_shoe_cards).
Defined.

(** One hour, one minute and ten seconds. *)
Lemma timestamp_shows_the_simulated_time_witness :
  py_len (timestamp 3670) = 8%nat ∧ read_timestamp (timestamp 3670) = 3670.
Proof.
  destruct (timestamp_shows_the_simulated_time 3670) as (_ & _ & _ & _ & Hshown).
  apply Hshown. lia.
Defined.

Lemma sample_round_seats (rd : Round nat) :
  play_round counting_randint reversing_shuffle sample_heap sample_casino
             sample_table [3; 4]%nat 0%nat = Ok rd →
  map player (seats_list (rd_table rd)) = [Some 0; Some 3; Some 2]%nat.
Proof.
  intros E.
  assert (H : match play_round counting_randint reversing_shuffle sample_heap
                               sample_casino sample_table [3; 4]%nat 0%nat with
              | Ok rd => Some (map player (seats_list (rd_table rd)))
              | Raise _ => None
              end
              = Some [Some 0; Some 3; Some 2]%nat).
  { vm_compute. reflexivity. }
  rewrite E in H. injection H as H. exact H.
Qed.

Lemma sample_round_refilled (rd : Round nat) (i : nat) :
  play_round counting_randint reversing_shuffle sample_heap sample_casino
             sample_table [3; 4]%nat 0%nat = Ok rd →
  is_Some (seat_player sample_table i) → is_Some (seat_player (rd_table rd) i).
Proof.
  intros E. apply sample_round_seats in E. unfold seat_player.
  destruct (seats_list (rd_table rd)) as [|s0 [|s1 [|s2 [|s3 l]]]];
    try discriminate E.
  injection E as E0 E1 E2.
  destruct i as [|[|[|i]]]; cbn; rewrite ?E0, ?E1, ?E2; intros Hs; eauto.
Qed.

(** The sample round: two players lost 13 and 14, one won 15. *)
Lemma round_results_box_totals_witness :
  ∃ rd,
    play_round counting_randint reversing_shuffle sample_heap sample_casino
               sample_table [3; 4]%nat 0%nat = Ok rd
    ∧ total_losses (tally_results (ev_seats_after (rd_event rd))
                                  (ev_results (rd_event rd)))
      - total_winnings (tally_results (ev_seats_after (rd_event rd))
                                      (ev_results (rd_event rd)))
      = ev_profit_delta (rd_event rd).
Proof.
  destruct sample_round_Ok as [rd E]. exists rd. split; [exact E|].
  destruct (round_results_box_totals counting_randint reversing_shuffle
              (ev_seats_after (rd_event rd)) (ev_results (rd_event rd)))
    as (_ & Hround).
  destruct (Hround _ _ _ _ _ _ sample_table_wf E) as (_ & Hagree).
  destruct Hagree as [Hmoney _]; [| |exact Hmoney].
  - intros r. discriminate.
  - intros i. exact (sample_round_refilled rd i E).
Defined.

(** Three players seated, two waiting, nobody finished. *)
Lemma casino_view_counts_every_player_witness :
  active_players (sim_casino sample_floor) = 3
  ∧ active_players (sim_casino sample_floor) + waiting_players (Some [3; 4]%nat)
    + Z.of_nat (length (finished_players (sim_casino sample_floor)))
    = 5.
Proof.
  destruct (casino_view_counts_every_player counting_randint reversing_shuffle
              (sim_casino sample_floor) [3; 4]%nat) as (Hactive & Hall & _).
  split; [exact Hactive|exact Hall].
Defined.

Lemma sample_history_ok : Forall history_entry_ok sample_history.
Proof.
  unfold sample_history, history_entry_ok.
  apply Forall_cons_2; [left; cbn [fst snd]; split; [left; reflexivity|lia]|].
  apply Forall_cons_2; [right; reflexivity|].
  apply Forall_cons_2; [left; cbn [fst snd]; split; [right; reflexivity|lia]|].
  apply Forall_nil_2.
Qed.

Lemma player_view_statistics_witness :
  bets_of_history sample_history = [20; 50]
  ∧ fst (fst (count_outcomes sample_history))
    + snd (fst (count_outcomes sample_history))
    + snd (count_outcomes sample_history) = 3.
Proof.
  destruct (player_view_statistics sample_history) as (Hsum & _ & _ & Hok).
  destruct (Hok sample_history_ok) as (Hbets & _).
  split; [|exact Hsum].
  rewrite Hbets. vm_compute. reflexivity.
Defined.

Lemma sample_floor_table_ids :
  NoDup (map table_id (tables (sim_casino sample_floor))).
Proof. apply (bool_decide_unpack _). vm_compute. exact I. Qed.

(** The first tick of the sample floor, watched at table 1. *)
Lemma what_a_tick_displays_witness :
  ∃ events st2 ev,
    tick counting_randint reversing_shuffle sample_floor = Ok (events, st2)
    ∧ shown id watch_table_1 events = Ok (ShowTables [ev])
    ∧ ev_table_id ev = 1.
Proof.
  destruct sample_floor_tick as (events & st2 & E).
  destruct (what_a_tick_displays counting_randint reversing_shuffle id
              watch_table_1 events) as (_ & Htable & _ & _ & _ & Htick).
  destruct (Htable eq_refl) as (Hshown & _).
  destruct (Htick sample_floor st2 E) as (_ & Hone).
  destruct (Hone sample_floor_table_ids 1 eq_refl) as (ev & Hev & Hid).
  - apply (bool_decide_unpack _). vm_compute. exact I.
  - exists events, st2, ev. split; [exact E|]. split; [|exact Hid].
    rewrite Hshown, Hev. reflexivity.
Defined.
